(** * Cabonizer: the shadow-preserving background removal pipeline

    A shallow embedding of [src/services/imageProcessingService.ts]
    ([computeDistanceMap] and the pixel stages of [processImage]) and of the
    parameter record of [src/types.ts].

    Number model.  A finite JavaScript number is a rational, so numbers are
    [Q] and arithmetic is exact: the rounding of IEEE doubles and of
    [Float32Array] stores is not modelled, and neither are NaN and the
    infinities (on an image with a pixel and with finite parameters no stage
    of the pipeline produces them).  [Math.sqrt] is a parameter of the model.  Typed-array stores that
    change the value are modelled: [Uint8Array] ([toUint8]) and
    [Uint8ClampedArray] ([toUint8Clamped]).  Where the rounding can move a
    stored value (a byte next to a half or to an integer, a distance stored
    in the [Float32Array] just above [maxDist]), the claims and the further
    properties are stated in a form that it cannot reach: comparisons,
    relations between two runs, and bounds with the margin they name.  The
    distance transform only ever
    holds the integers 0..1e6, which a [Float32Array] stores exactly, so its
    cells are [Z].  Arrays are lists read with stdpp's lookup and written
    with its insert; indices are [nat]. *)

From Stdlib Require Import ZArith QArith Qround Qminmax Qabs Lia Lqa.
From Stdlib Require String Ascii.
From stdpp Require Import base list.
Import String.StringSyntax Ascii.AsciiSyntax.
Delimit Scope string_scope with string.
Delimit Scope char_scope with char.

Local Open Scope Z_scope.

(** ** Numbers and typed-array stores *)

(** [a < b] on numbers, as a boolean. *)
Definition Qltb (a b : Q) : bool := negb (Qle_bool b a).

(** Truncation toward zero (the ToIntegerOrInfinity step of a typed-array store). *)
Definition Qtrunc (q : Q) : Z :=
  if Qle_bool 0 q then Qfloor q else Qceiling q.

(** Store into a [Uint8Array]: truncate, then wrap modulo 256. *)
Definition toUint8 (q : Q) : Z := Qtrunc q mod 256.

(** Store into a [Uint8ClampedArray]: clamp to 0..255, round to the nearest
    integer, ties to even. *)
Definition toUint8Clamped (q : Q) : Z :=
  if Qle_bool q 0 then 0
  else if Qle_bool 255 q then 255
  else
    let f := Qfloor q in
    let r := (q - inject_Z f)%Q in
    if Qltb r (1 # 2) then f
    else if Qltb (1 # 2) r then f + 1
    else if Z.even f then f else f + 1.

(** Reading a cell of a byte array ([Uint8Array], [Uint8ClampedArray]) or of
    a distance field.  Every read of the pixel loops is inside its array
    (see [computeDistanceMap_length], [pixel_read_in_range] and the
    [length_*] lemmas); the default is never returned there. *)
Definition zAt (a : list Z) (i : nat) : Z := default 0 (a !! i).

(** Reading a cell of a [Float32Array]. *)
Definition qAt (a : list Q) (i : nat) : Q := default 0%Q (a !! i).

(** ** types.ts *)

Record AlgorithmParams := mkParams {
  colorTolerance : Q;
  fadeStrength : Q;
  shavePx : Q;
  featherWidth : Q;
  objectThreshold : Q;
  edgeDesat : Q;
  edgeDark : Q;
  globalDarkFactor : Q;
  alphaBoost : Q;
  autoDetectBg : bool;
  manualBgColor : Q * Q * Q
}.

Definition DEFAULT_PARAMS : AlgorithmParams := {|
  colorTolerance := 15;
  fadeStrength := 50;
  shavePx := 0;
  featherWidth := 0;
  objectThreshold := 210;
  edgeDesat := 1;
  edgeDark := 0;
  globalDarkFactor := 0;
  alphaBoost := 5 # 2;
  autoDetectBg := true;
  manualBgColor := (0, 255, 0)%Q
|}.

(** ** computeDistanceMap *)

Definition INF : Z := 1000000.

(** The initial value of a cell.  [val] is [mask[i]]; a read outside the
    mask is [undefined], which is [=== ] neither 0 nor 1. *)
Definition seed (invert : bool) (val : option Z) : Z :=
  if invert then
    match val with Some v => if v =? 0 then 0 else INF | None => INF end
  else
    match val with Some v => if v =? 1 then 0 else INF | None => INF end.

Definition initDist (mask : list Z) (size : nat) (invert : bool) : list Z :=
  map (fun i => seed invert (mask !! i)) (seq 0 size).

(** One iteration of the body of pass 1, at row [y] and column [x]. *)
Definition relaxFwd (width : nat) (dist : list Z) (y x : nat) : list Z :=
  let idx := (y * width + x)%nat in
  match dist !! idx with
  | Some d =>
      if 0 <? d then
        let up := if (0 <? y)%nat then zAt dist ((y - 1) * width + x)%nat else INF in
        let left := if (0 <? x)%nat then zAt dist (y * width + (x - 1))%nat else INF in
        <[idx := Z.min (Z.min d (up + 1)) (left + 1)]> dist
      else dist
  | None => dist
  end.

(** One iteration of the body of pass 2. *)
Definition relaxBwd (width height : nat) (dist : list Z) (y x : nat) : list Z :=
  let idx := (y * width + x)%nat in
  match dist !! idx with
  | Some d =>
      if 0 <? d then
        let down := if (y <? height - 1)%nat then zAt dist ((y + 1) * width + x)%nat else INF in
        let right := if (x <? width - 1)%nat then zAt dist (y * width + (x + 1))%nat else INF in
        <[idx := Z.min (Z.min d (down + 1)) (right + 1)]> dist
      else dist
  | None => dist
  end.

(** Pass 1: top-left to bottom-right. *)
Definition pass1 (width height : nat) (dist : list Z) : list Z :=
  foldl (fun d y => foldl (fun d x => relaxFwd width d y x) d (seq 0 width))
        dist (seq 0 height).

(** Pass 2: bottom-right to top-left. *)
Definition pass2 (width height : nat) (dist : list Z) : list Z :=
  foldl (fun d y => foldl (fun d x => relaxBwd width height d y x) d (rev (seq 0 width)))
        dist (rev (seq 0 height)).

Definition computeDistanceMap (mask : list Z) (width height : nat) (invert : bool) : list Z :=
  pass2 width height (pass1 width height (initDist mask (width * height) invert)).

(** ** processImage: the pixel stages *)

(** The decoded image: what [ctx.getImageData(0, 0, w, h)] hands to the
    pixel stages, a flat RGBA byte array of length [4 * w * h]. *)
Record ImageData := mkImageData {
  width : nat;
  height : nat;
  data : list Z
}.

Local Open Scope Q_scope.

(** [data[idx]] read as a number. *)
Definition byteAt (data : list Z) (idx : nat) : Q := inject_Z (zAt data idx).

(** *** 1. Detect background color *)

(** With [w * h = 0] the corner reads fall outside the buffer and the
    JavaScript key is NaN; no later stage reads the key then, since there is
    no pixel. *)
Definition detectBackground (w h : nat) (data : list Z)
    (autoDetect : bool) (manual : Q * Q * Q) : Q * Q * Q :=
  if autoDetect then
    let corners := [(0, 0); (w - 1, 0); (0, h - 1); (w - 1, h - 1)]%nat in
    let '(sumR, sumG, sumB) :=
      foldl (fun '(sR, sG, sB) '(cx, cy) =>
               let idx := ((cy * w + cx) * 4)%nat in
               (sR + byteAt data idx, sG + byteAt data (idx + 1), sB + byteAt data (idx + 2)))
            (0, 0, 0) corners in
    (sumR / 4, sumG / 4, sumB / 4)
  else manual.

(** *** 2. Raw alpha *)

(** [origR], [origG], [origB]: channel [c] of every pixel. *)
Definition origChannel (data : list Z) (size c : nat) : list Q :=
  map (fun i => byteAt data (i * 4 + c)) (seq 0 size).

Section Pipeline.

(** [Math.sqrt]. *)
Variable Math_sqrt : Q -> Q.

Definition chromaDist (data : list Z) (key : Q * Q * Q) (i : nat) : Q :=
  let '(keyR, keyG, keyB) := key in
  let idx := (i * 4)%nat in
  let r := byteAt data idx in
  let g := byteAt data (idx + 1) in
  let b := byteAt data (idx + 2) in
  Math_sqrt ((r - keyR) ^ 2 + (g - keyG) ^ 2 + (b - keyB) ^ 2).

(** [dists] is a [Float32Array]: the code stores each distance rounded to
    single precision, within 2^-24 of its value, while [maxDist] below keeps
    the double, so that a stored distance can exceed [maxDist] by that much.
    Here both are the exact value. *)
Definition chromaDists (data : list Z) (size : nat) (key : Q * Q * Q) : list Q :=
  map (chromaDist data key) (seq 0 size).

(** [if (d > maxDist) maxDist = d], over the whole image, from 0. *)
Definition maxDistOf (dists : list Q) : Q :=
  foldl (fun maxDist d => if Qltb maxDist d then d else maxDist) 0 dists.

End Pipeline.

Definition EPS : Q := 1 # 1000000.

Definition opaqueDistNormOf (colorTolerance : Q) : Q := colorTolerance / 255.
Definition clearDistNormOf (colorTolerance fadeStrength : Q) : Q :=
  (colorTolerance * fadeStrength) / 255.

(** The branch of the alpha shaper a pixel takes. *)
Inductive AlphaZone := ZoneBackground | ZoneOpaque | ZoneFade.

Definition alphaZone (distNorm opaqueDistNorm clearDistNorm : Q) : AlphaZone :=
  if Qle_bool distNorm opaqueDistNorm then ZoneBackground
  else if Qltb clearDistNorm distNorm then ZoneOpaque
  else ZoneFade.

(** The value stored in [alphaRaw[i]].  In the fade branch a zero
    denominator would make the JavaScript quotient NaN or infinite, which a
    [Uint8Array] stores as 0; the quotient of [Q] by zero is 0, stored as 0
    too. *)
Definition rawAlphaOf (distNorm opaqueDistNorm clearDistNorm : Q) : Z :=
  match alphaZone distNorm opaqueDistNorm clearDistNorm with
  | ZoneBackground => 0%Z
  | ZoneOpaque => 255%Z
  | ZoneFade =>
      let fade := (distNorm - opaqueDistNorm) / (clearDistNorm - opaqueDistNorm) in
      toUint8 (inject_Z (Qfloor (255 * fade)))
  end.

Definition rawAlpha (dists : list Q) (maxDist : Q) (size : nat)
    (colorTolerance fadeStrength : Q) : list Z :=
  let distMaxDiv := maxDist + EPS in
  let opaqueDistNorm := opaqueDistNormOf colorTolerance in
  let clearDistNorm := clearDistNormOf colorTolerance fadeStrength in
  map (fun i => rawAlphaOf (qAt dists i / distMaxDiv) opaqueDistNorm clearDistNorm)
      (seq 0 size).

(** *** 3. Object and shadow masks *)

Definition objectMaskOf (alphaRaw : list Z) (size : nat) (objectThreshold : Q) : list Z :=
  map (fun i => if Qle_bool objectThreshold (inject_Z (zAt alphaRaw i)) then 1%Z else 0%Z)
      (seq 0 size).

Definition shadowMaskOf (alphaRaw : list Z) (size : nat) (objectThreshold : Q) : list Z :=
  map (fun i =>
         if (0 <? zAt alphaRaw i)%Z && Qltb (inject_Z (zAt alphaRaw i)) objectThreshold
         then 1%Z else 0%Z)
      (seq 0 size).

(** *** 4. Shave *)

Definition shave (objectMask : list Z) (w h : nat) (shavePx : Q) : list Z :=
  if Qltb 0 shavePx then
    let distInside := computeDistanceMap objectMask w h true in
    map (fun i => if Qltb shavePx (inject_Z (zAt distInside i)) then 1%Z else 0%Z)
        (seq 0 (w * h))
  else
    (* shavedObj.set(objectMask) *)
    objectMask.

(** *** 5. Feather *)

(** The value stored in [objectFeather[i]], a [Float32Array]: the clamped
    quotient, here exact; the code rounds the quotient to a double and the
    stored value to single precision (0 and 1 are stored as they are). *)
Definition featherVal (d : Z) (featherWidth : Q) : Q :=
  let val := inject_Z d / featherWidth in
  let val := if Qltb 1 val then 1 else val in
  let val := if Qltb val 0 then 0 else val in
  val.

Definition feather (shavedObj : list Z) (w h : nat) (featherWidth : Q) : list Q :=
  if Qltb 0 featherWidth then
    let distFeather := computeDistanceMap shavedObj w h true in
    map (fun i => featherVal (zAt distFeather i) featherWidth) (seq 0 (w * h))
  else
    map (fun i => if (zAt shavedObj i =? 1)%Z then 1 else 0) (seq 0 (w * h)).

(** *** 6. Final assembly *)

(** [params.alphaBoost || 1.0]: 0 is falsy. *)
Definition boostOf (alphaBoost : Q) : Q :=
  if Qeq_bool alphaBoost 0 then 1 else alphaBoost.

(** [finalA] of one pixel, before it is stored.  The products are exact
    here and rounded to doubles in the code: the truncation of the store can
    then differ by one where a product is next to an integer. *)
Definition finalAlphaOf (aRaw shaved shadow : Z) (f boost : Q) : Q :=
  let finalA :=
    if (shaved =? 1)%Z then inject_Z aRaw * f
    else if (shadow =? 1)%Z then inject_Z aRaw
    else 0 in
  if Qltb 0 finalA then Qmin 255 (finalA * boost) else finalA.

Definition assemble (alphaRaw shavedObj shadowMask : list Z) (objectFeather : list Q)
    (size : nat) (alphaBoost : Q) : list Z :=
  let boost := boostOf alphaBoost in
  map (fun i =>
         toUint8 (finalAlphaOf (zAt alphaRaw i) (zAt shavedObj i) (zAt shadowMask i)
                               (qAt objectFeather i) boost))
      (seq 0 size).

(** *** 7. Edge desaturation *)

(** The luma, exact here; the code evaluates it in doubles, to within 1e-13
    on bytes. *)
Definition grayOf (r g b : Q) : Q :=
  (2989 # 10000) * r + (5870 # 10000) * g + (1140 # 10000) * b.

(** The value stored in [finalR[i]], [finalG[i]] or [finalB[i]]: [c] is the
    channel of the pixel, [r], [g], [b] its three channels and [a] its final
    alpha. *)
Definition edgeChannel (c r g b : Q) (a : Z) (edgeDesat edgeDark : Q) : Q :=
  let c :=
    if (0 <? a)%Z && (a <? 255)%Z then
      let gray := grayOf r g b in
      (c * (1 - edgeDesat) + gray * edgeDesat) * edgeDark
    else c in
  (* Clip *)
  Qmin 255 (Qmax 0 c).

Definition edgeDesaturate (chan origR origG origB : list Q) (alpha : list Z) (size : nat)
    (edgeDesat edgeDark : Q) : list Q :=
  map (fun i => edgeChannel (qAt chan i) (qAt origR i) (qAt origG i) (qAt origB i)
                            (zAt alpha i) edgeDesat edgeDark)
      (seq 0 size).

(** *** 8. Output *)

Definition darkGrayOf (r g b globalDarkFactor : Q) : Q :=
  let origGray := grayOf r g b in
  Qmin 255 (Qmax 0 (origGray * globalDarkFactor)).

(** The four cells of [outD] written for pixel [i]; [outD] is a
    [Uint8ClampedArray]. *)
Definition outPixel (origR origG origB : list Q) (alpha : list Z)
    (globalDarkFactor : Q) (i : nat) : list Z :=
  let darkGray := darkGrayOf (qAt origR i) (qAt origG i) (qAt origB i) globalDarkFactor in
  [toUint8Clamped darkGray; toUint8Clamped darkGray; toUint8Clamped darkGray;
   toUint8Clamped (inject_Z (zAt alpha i))].

Definition output (origR origG origB : list Q) (alpha : list Z) (size : nat)
    (globalDarkFactor : Q) : list Z :=
  flat_map (outPixel origR origG origB alpha globalDarkFactor) (seq 0 size).

(** *** The whole run *)

(** Every buffer a run allocates, as it stands when the run ends. *)
Record Buffers := mkBuffers {
  key : Q * Q * Q;
  origR : list Q;
  origG : list Q;
  origB : list Q;
  dists : list Q;
  maxDist : Q;
  alphaRaw : list Z;
  objectMask : list Z;
  shadowMask : list Z;
  shavedObj : list Z;
  objectFeather : list Q;
  alpha : list Z;
  finalR : list Q;
  finalG : list Q;
  finalB : list Q;
  outD : list Z
}.

Section Run.

Variable Math_sqrt : Q -> Q.

(** Stages 1 to 8 of the [img.onload] handler, on the decoded image. *)
Definition pixelStages (img : ImageData) (params : AlgorithmParams) : Buffers :=
  let w := width img in
  let h := height img in
  let data := data img in
  let key := detectBackground w h data (autoDetectBg params) (manualBgColor params) in
  let size := (w * h)%nat in
  let origR := origChannel data size 0 in
  let origG := origChannel data size 1 in
  let origB := origChannel data size 2 in
  let dists := chromaDists Math_sqrt data size key in
  let maxDist := maxDistOf dists in
  let alphaRaw := rawAlpha dists maxDist size (colorTolerance params) (fadeStrength params) in
  let objectMask := objectMaskOf alphaRaw size (objectThreshold params) in
  let shadowMask := shadowMaskOf alphaRaw size (objectThreshold params) in
  let shavedObj := shave objectMask w h (shavePx params) in
  let objectFeather := feather shavedObj w h (featherWidth params) in
  let alpha := assemble alphaRaw shavedObj shadowMask objectFeather size (alphaBoost params) in
  let finalR :=
    edgeDesaturate origR origR origG origB alpha size (edgeDesat params) (edgeDark params) in
  let finalG :=
    edgeDesaturate origG origR origG origB alpha size (edgeDesat params) (edgeDark params) in
  let finalB :=
    edgeDesaturate origB origR origG origB alpha size (edgeDesat params) (edgeDark params) in
  let outD := output origR origG origB alpha size (globalDarkFactor params) in
  mkBuffers key origR origG origB dists maxDist alphaRaw objectMask shadowMask
            shavedObj objectFeather alpha finalR finalG finalB outD.

(** The two calls of [reject]. *)
Inductive Rejection :=
  | ImageLoadError          (* img.onerror = (err) => reject(err) *)
  | NoCanvasContext.        (* reject(new Error("Could not get canvas context")) *)

(** The resolved value; [processed] is the raster that [canvas.toDataURL]
    encodes into [processedUrl]. *)
Record Processed := mkProcessed {
  res_width : nat;
  res_height : nat;
  processed : list Z
}.

(** What becomes of the promise.  [Unsettled]: an exception escaped the
    [img.onload] handler, so that neither [resolve] nor [reject] is called. *)
Inductive Outcome :=
  | Resolved (r : Processed)
  | Rejected (e : Rejection)
  | Unsettled.

(** What the browser does with the file and the canvas, none of which is
    code of the repository: [decoded] is the image it decodes from the file
    ([None]: the load fails and [img.onerror] fires), [hasCtx] tells whether
    [canvas.getContext('2d')] returns a context, and [canvasThrows] whether
    the canvas calls of the handler ([drawImage], [getImageData],
    [createImageData], [putImageData], [toDataURL]) throw instead of handing
    out the pixel buffer of the image. *)
Record Browser := mkBrowser {
  decoded : option ImageData;
  hasCtx : bool;
  canvasThrows : bool
}.

Definition processImage (env : Browser) (params : AlgorithmParams) : Outcome :=
  match decoded env with
  | None => Rejected ImageLoadError
  | Some img =>
      if negb (hasCtx env) then Rejected NoCanvasContext
      else if canvasThrows env then Unsettled
      else Resolved (mkProcessed (width img) (height img) (outD (pixelStages img params)))
  end.

End Run.

(** A square root to run the pipeline on concrete images.  It is exact on
    the square of a rational, and the images below only have such squared
    distances. *)
Definition sqrtQ (q : Q) : Q := Z.sqrt (Qnum q * Zpos (Qden q)) # Qden q.

(** Updates of a parameter set. *)
Definition with_shavePx (s : Q) (p : AlgorithmParams) : AlgorithmParams :=
  mkParams (colorTolerance p) (fadeStrength p) s (featherWidth p) (objectThreshold p)
           (edgeDesat p) (edgeDark p) (globalDarkFactor p) (alphaBoost p)
           (autoDetectBg p) (manualBgColor p).

Definition with_featherWidth (f : Q) (p : AlgorithmParams) : AlgorithmParams :=
  mkParams (colorTolerance p) (fadeStrength p) (shavePx p) f (objectThreshold p)
           (edgeDesat p) (edgeDark p) (globalDarkFactor p) (alphaBoost p)
           (autoDetectBg p) (manualBgColor p).

Definition with_alphaBoost (a : Q) (p : AlgorithmParams) : AlgorithmParams :=
  mkParams (colorTolerance p) (fadeStrength p) (shavePx p) (featherWidth p) (objectThreshold p)
           (edgeDesat p) (edgeDark p) (globalDarkFactor p) a
           (autoDetectBg p) (manualBgColor p).

(** Two parameter sets that agree on every field but [edgeDesat] and [edgeDark]. *)
Definition sameButEdge (p q : AlgorithmParams) : Prop :=
  colorTolerance p = colorTolerance q /\ fadeStrength p = fadeStrength q
  /\ shavePx p = shavePx q /\ featherWidth p = featherWidth q
  /\ objectThreshold p = objectThreshold q /\ globalDarkFactor p = globalDarkFactor q
  /\ alphaBoost p = alphaBoost q /\ autoDetectBg p = autoDetectBg q
  /\ manualBgColor p = manualBgColor q.

(** The number of pixels a mask holds. *)
Definition maskCount (mask : list Z) : nat := length (filter (fun v => v = 1%Z) mask).

(** The images of the end-to-end scenarios. *)
Definition img2x2green : ImageData :=
  mkImageData 2 2 [0;255;0;255; 0;255;0;255; 0;255;0;255; 0;255;0;255]%Z.

Definition greenPx : list Z := [0; 255; 0; 255]%Z.
(** At distance 300 from green: 100^2 + 200^2 + 200^2 = 300^2. *)
Definition bluePx : list Z := [100; 55; 200; 255]%Z.

(** A 2x2 block centred in green. *)
Definition img4x4 : ImageData :=
  mkImageData 4 4
    (greenPx ++ greenPx ++ greenPx ++ greenPx
     ++ greenPx ++ bluePx ++ bluePx ++ greenPx
     ++ greenPx ++ bluePx ++ bluePx ++ greenPx
     ++ greenPx ++ greenPx ++ greenPx ++ greenPx).

(** Images and parameter sets the pipeline is run on below. *)
Definition emptyImage : ImageData := mkImageData 0 0 [].

Definition onePixelRed : ImageData := mkImageData 1 1 [1; 0; 0; 255]%Z.

(** Key (0, 0, 0) given by the caller, [colorTolerance * fadeStrength / 255]
    just below 1. *)
Definition nearOneParams : AlgorithmParams :=
  mkParams (1274999 # 10000) 2 0 0 210 1 0 0 (5 # 2) false (0, 0, 0).

Definition wideFadeParams : AlgorithmParams :=
  mkParams 100 2 0 0 210 1 0 0 (5 # 2) false (0, 0, 0).

(** [fadeStrength = 1]: the fade zone has zero width. *)
Definition sharpParams : AlgorithmParams :=
  mkParams 15 1 0 0 210 1 0 0 (5 # 2) true (0, 255, 0).

(** The default parameters with [globalDarkFactor = 1], and the same with
    other edge parameters. *)
Definition grayParams : AlgorithmParams :=
  mkParams 15 50 0 0 210 1 0 1 (5 # 2) true (0, 255, 0).

Definition softEdgeParams : AlgorithmParams :=
  mkParams 15 50 0 0 210 (1 # 2) 1 1 (5 # 2) true (0, 255, 0).

Definition noBoostParams : AlgorithmParams := with_alphaBoost 0 DEFAULT_PARAMS.

(** [objectThreshold = 0]: every pixel is in the object mask. *)
Definition allObjectParams : AlgorithmParams :=
  mkParams 15 1 0 1 0 1 0 0 (5 # 2) true (0, 255, 0).

Definition featherParams : AlgorithmParams :=
  mkParams 15 1 0 2 210 1 0 0 (5 # 2) true (0, 255, 0).

(** A value read for a neighbour: INF at the image border, a cell otherwise. *)
Inductive neighbour (dist : list Z) : Z -> Prop :=
  | nb_border : neighbour dist INF
  | nb_cell (j : nat) : neighbour dist (zAt dist j).

(** What one iteration of either pass does to the field: nothing, or it
    writes into a positive cell the minimum of the cell and of two
    neighbours plus 1. *)
Inductive relaxStep (dist : list Z) : list Z -> Prop :=
  | relax_skip : relaxStep dist dist
  | relax_write (idx : nat) (d a b : Z) :
      dist !! idx = Some d -> (0 < d)%Z -> neighbour dist a -> neighbour dist b ->
      relaxStep dist (<[idx := Z.min (Z.min d (a + 1)) (b + 1)]> dist).

(** Every cell of a distance field is in [0, INF]. *)
Definition inRange (dist : list Z) : Prop := Forall (fun d => 0 <= d <= INF)%Z dist.

(** A decoded image: the buffer holds four bytes per pixel. *)
Definition wellFormed (img : ImageData) : Prop :=
  length (data img) = (4 * (width img * height img))%nat
  /\ Forall (fun v => 0 <= v <= 255)%Z (data img).

(** The default parameters with the key colour given by the caller. *)
Definition manualKeyParams : AlgorithmParams :=
  mkParams 15 50 0 0 210 1 0 0 (5 # 2) false (100, 55, 200).

(** A 2x3 image of one colour. *)
Definition imgUniform : ImageData :=
  mkImageData 2 3 (bluePx ++ bluePx ++ bluePx ++ bluePx ++ bluePx ++ bluePx).

(** A gray pixel above a green one. *)
Definition imgGray : ImageData := mkImageData 1 2 [128; 128; 128; 255; 0; 255; 0; 255]%Z.

(** ** The application: file queue, processing loop, lightbox, download names

    The state handlers of the [App] component, as functions of the state
    they read.  Browser values that the handlers only pass along (object
    URLs, blobs, the random [id] of a result) are left out. *)

Definition MAX_FILES : nat := 10.

(** A [File]: its [name] and its MIME [type]. *)
Record FileEntry := mkFile {
  file_name : String.string;
  file_type : String.string
}.

Definition acceptedTypes : list String.string :=
  ["image/jpeg"; "image/png"; "image/jpg"]%string.

(** [['image/jpeg', 'image/png', 'image/jpg'].includes(f.type)] *)
Definition isAccepted (f : FileEntry) : bool :=
  existsb (String.eqb (file_type f)) acceptedTypes.

(** [handleFileChange]: the new queue, and whether the alert is shown. *)
Definition handleFileChange (files selectedFiles : list FileEntry)
    : list FileEntry * bool :=
  let validFiles := List.filter isAccepted selectedFiles in
  if (MAX_FILES <? length validFiles + length files)%nat then (files, true)
  else (files ++ validFiles, false).

(** [removeFile]: [prev.filter((_, i) => i !== index)]. *)
Definition removeFile (files : list FileEntry) (index : nat) : list FileEntry :=
  map snd (List.filter (fun p => negb (fst p =? index)%nat)
                       (combine (seq 0 (length files)) files)).

(** An entry of [results]: the file name and the resolved value of
    [processImage]. *)
Record ProcessedImage := mkProcessedImage {
  pi_fileName : String.string;
  pi_result : Processed
}.

(** The loop of [processImages] over the queue: [run f] is what the promise
    of [processImage(file, DEFAULT_PARAMS)] becomes for the file [f].  A
    resolved file is pushed on [newResults] and counted in
    [completedImages]; a rejection is caught and logged; an unsettled promise
    is awaited for ever, and the loop gives no result ([None]). *)
Fixpoint processLoop (run : FileEntry -> Outcome) (files : list FileEntry)
    (newResults : list ProcessedImage) (completedImages : nat)
    : option (list ProcessedImage * nat) :=
  match files with
  | [] => Some (newResults, completedImages)
  | file :: rest =>
      match run file with
      | Resolved r =>
          processLoop run rest (newResults ++ [mkProcessedImage (file_name file) r])
                      (S completedImages)
      | Rejected _ => processLoop run rest newResults completedImages
      | Unsettled => None
      end
  end.

(** [processImages] on the state of the component: the queue [files], the
    shown [results] and [status.completedImages].  Nothing happens on an
    empty queue; otherwise, when the loop ends, the new results replace the
    shown ones and the queue is cleared.  [None]: the loop never ends. *)
Definition processImages (run : FileEntry -> Outcome) (files : list FileEntry)
    (results : list ProcessedImage) (completedImages : nat)
    : option (list FileEntry * list ProcessedImage * nat) :=
  match files with
  | [] => Some (files, results, completedImages)
  | _ =>
      match processLoop run files [] 0%nat with
      | Some (newResults, completed) => Some ([], newResults, completed)
      | None => None
      end
  end.

(** [lightboxIndex]: [null], a slide number, or NaN (the remainder by zero
    slides). *)
Inductive LightboxIndex :=
  | LbNull
  | LbIndex (n : nat)
  | LbNaN.

(** [nextImage], the state update, with [results.length]. *)
Definition nextImage (resultsLength : nat) (prev : LightboxIndex) : LightboxIndex :=
  match prev with
  | LbNull => LbNull
  | LbNaN => LbNaN
  | LbIndex p =>
      let totalSlides := (resultsLength * 2)%nat in
      if (totalSlides =? 0)%nat then LbNaN else LbIndex ((p + 1) mod totalSlides)
  end.

(** [prevImage]: [(prev - 1 + totalSlides) % totalSlides]; the dividend is
    not negative when there is a slide. *)
Definition prevImage (resultsLength : nat) (prev : LightboxIndex) : LightboxIndex :=
  match prev with
  | LbNull => LbNull
  | LbNaN => LbNaN
  | LbIndex p =>
      let totalSlides := (resultsLength * 2)%nat in
      if (totalSlides =? 0)%nat then LbNaN
      else LbIndex ((p + totalSlides - 1) mod totalSlides)
  end.

Inductive SlideType := Original | Result.

(** What [getCurrentSlide] returns: [null], a slide with its data, type and
    image index, or a TypeError when [results[imageIndex]] is undefined. *)
Inductive Slide :=
  | NoSlide
  | SlideOf (data : ProcessedImage) (type : SlideType) (imageIndex : nat)
  | SlideError.

Definition getCurrentSlide (results : list ProcessedImage) (lightboxIndex : LightboxIndex)
    : Slide :=
  match lightboxIndex with
  | LbNull => NoSlide
  | LbNaN => SlideError
  | LbIndex i =>
      let imageIndex := (i / 2)%nat in
      let isOriginal := (i mod 2 =? 0)%nat in
      match results !! imageIndex with
      | Some data => SlideOf data (if isOriginal then Original else Result) imageIndex
      | None => SlideError
      end
  end.

(** [filename.replace(/\.[^/.]+$/, "")]: the match, if any, starts at the
    last dot of the name and runs to its end, and needs at least one
    character after the dot and no slash there. *)
Fixpoint splitLastDot (s : String.string) : option (String.string * String.string) :=
  match s with
  | String.EmptyString => None
  | String.String c rest =>
      match splitLastDot rest with
      | Some (p, e) => Some (String.String c p, e)
      | None => if Ascii.eqb c "."%char then Some (String.EmptyString, rest) else None
      end
  end.

Fixpoint hasChar (c : Ascii.ascii) (s : String.string) : bool :=
  match s with
  | String.EmptyString => false
  | String.String d rest => Ascii.eqb d c || hasChar c rest
  end.

Definition stripExtension (filename : String.string) : String.string :=
  match splitLastDot filename with
  | Some (p, e) =>
      match e with
      | String.EmptyString => filename
      | _ => if hasChar "/"%char e then filename else p
      end
  | None => filename
  end.

(** The name given to a download and to an entry of the archive. *)
Definition downloadName (filename : String.string) : String.string :=
  String.append "processed_" (String.append (stripExtension filename) ".png").

(** ** Reference notions for the further properties *)

(** The city-block distance between the pixels [(y, x)] and [(sy, sx)]. *)
Definition cityBlock (y x sy sx : nat) : Z :=
  (Z.abs (Z.of_nat y - Z.of_nat sy) + Z.abs (Z.of_nat x - Z.of_nat sx))%Z.

(** The pixel [(sy, sx)] is a seed of the transform: its cell starts at 0. *)
Definition isSeed (mask : list Z) (width : nat) (invert : bool) (sy sx : nat) : Prop :=
  seed invert (mask !! (sy * width + sx)%nat) = 0%Z.

(** Invariants of the two passes, on the distance field [d].  Every seed
    cell holds 0. *)
Definition seedsAtZero (mask : list Z) (width height : nat) (invert : bool)
    (d : list Z) : Prop :=
  forall sy sx, (sy < height)%nat -> (sx < width)%nat -> isSeed mask width invert sy sx ->
    zAt d (sy * width + sx) = 0%Z.

(** No cell is below both INF and the distance to every seed. *)
Definition notBelowSeeds (mask : list Z) (width height : nat) (invert : bool)
    (d : list Z) : Prop :=
  forall y x, (y < height)%nat -> (x < width)%nat ->
    (INF <= zAt d (y * width + x))%Z
    \/ exists sy sx, (sy < height)%nat /\ (sx < width)%nat /\ isSeed mask width invert sy sx
                     /\ (cityBlock y x sy sx <= zAt d (y * width + x))%Z.

(** Pass 1 has visited the cells before [(Y, X)] in row-major order: each is
    within the distance of every seed above and to the left of it. *)
Definition fwdDone (mask : list Z) (width height : nat) (invert : bool)
    (Y X : nat) (d : list Z) : Prop :=
  forall y x, (y < height)%nat -> (x < width)%nat -> (y < Y \/ (y = Y /\ x < X))%nat ->
    forall sy sx, (sy <= y)%nat -> (sx <= x)%nat -> isSeed mask width invert sy sx ->
      (zAt d (y * width + x) <= cityBlock y x sy sx)%Z.

(** Pass 2 has visited the rows below [Y] and, in row [Y], the cells from
    column [X] on: each is within the distance of every seed. *)
Definition bwdDone (mask : list Z) (width height : nat) (invert : bool)
    (Y X : nat) (d : list Z) : Prop :=
  forall y x, (y < height)%nat -> (x < width)%nat -> (Y < y \/ (y = Y /\ X <= x))%nat ->
    forall sy sx, (sy < height)%nat -> (sx < width)%nat -> isSeed mask width invert sy sx ->
      (zAt d (y * width + x) <= cityBlock y x sy sx)%Z.

(** Pass 2 has visited the rows from [Y] on. *)
Definition rowsDone (mask : list Z) (width height : nat) (invert : bool)
    (Y : nat) (d : list Z) : Prop :=
  forall y x, (y < height)%nat -> (x < width)%nat -> (Y <= y)%nat ->
    forall sy sx, (sy < height)%nat -> (sx < width)%nat -> isSeed mask width invert sy sx ->
      (zAt d (y * width + x) <= cityBlock y x sy sx)%Z.

(** * Facts *)

Local Close Scope Q_scope.
Local Open Scope nat_scope.

(** ** Loops over [0 .. size-1] *)

Lemma lookup_map_seq {A} (f : nat -> A) (n i : nat) :
  i < n -> map f (seq 0 n) !! i = Some (f i).
Proof.
  intros Hi.
  change (map f (seq 0 n)) with (f <$> seq 0 n).
  rewrite list_lookup_fmap, lookup_seq_lt by lia. reflexivity.
Qed.

Lemma lookup_map_seq_ge {A} (f : nat -> A) (n i : nat) :
  n <= i -> map f (seq 0 n) !! i = None.
Proof.
  intros Hi. apply lookup_ge_None. rewrite length_map, length_seq. lia.
Qed.

Lemma zAt_map_seq (f : nat -> Z) (n i : nat) :
  i < n -> zAt (map f (seq 0 n)) i = f i.
Proof. intros Hi. unfold zAt. rewrite lookup_map_seq by lia. reflexivity. Qed.

Lemma qAt_map_seq (f : nat -> Q) (n i : nat) :
  i < n -> qAt (map f (seq 0 n)) i = f i.
Proof. intros Hi. unfold qAt. rewrite lookup_map_seq by lia. reflexivity. Qed.

Lemma foldl_preserves {A B} (P : A -> Prop) (f : A -> B -> A) (l : list B) (a : A) :
  (forall a b, P a -> P (f a b)) -> P a -> P (foldl f a l).
Proof.
  intros Hstep. revert a. induction l as [|b l IH]; intros a Ha; simpl; auto.
Qed.

(** ** The distance transform *)

(** Step invariants: the length, the seeds, the range, and the positive
    cells. *)
Lemma zAt_inRange dist i : inRange dist -> (0 <= zAt dist i <= INF)%Z.
Proof.
  intros H. unfold zAt. destruct (dist !! i) as [d|] eqn:Hd; simpl.
  - exact (proj1 (Forall_lookup _ _) H i d Hd).
  - unfold INF. lia.
Qed.

Lemma neighbour_inRange dist a : inRange dist -> neighbour dist a -> (0 <= a <= INF)%Z.
Proof.
  intros Hr [|j]; [unfold INF; lia | apply zAt_inRange; exact Hr].
Qed.

Lemma relaxStep_length dist dist' : relaxStep dist dist' -> length dist' = length dist.
Proof. intros [|idx d a b _ _ _ _]; [reflexivity | apply length_insert]. Qed.

(** A cell that holds 0 is never written again. *)
Lemma relaxStep_zero dist dist' i :
  relaxStep dist dist' -> dist !! i = Some 0%Z -> dist' !! i = Some 0%Z.
Proof.
  intros [|idx d a b Hd Hpos _ _] Hi; [exact Hi|].
  destruct (decide (idx = i)) as [Heq|Hne].
  - subst i. rewrite Hi in Hd. inversion Hd; subst d. lia.
  - rewrite list_lookup_insert_ne by exact Hne. exact Hi.
Qed.

Lemma relaxStep_inRange dist dist' : relaxStep dist dist' -> inRange dist -> inRange dist'.
Proof.
  intros [|idx d a b Hd Hpos Ha Hb] Hr; [exact Hr|].
  unfold inRange. apply Forall_insert; [exact Hr|].
  pose proof (proj1 (Forall_lookup _ _) Hr _ _ Hd) as Hdr. simpl in Hdr.
  pose proof (neighbour_inRange _ _ Hr Ha). pose proof (neighbour_inRange _ _ Hr Hb).
  lia.
Qed.

Lemma relaxStep_pos dist dist' i :
  relaxStep dist dist' -> inRange dist ->
  (exists v, dist !! i = Some v /\ (1 <= v)%Z) ->
  exists v, dist' !! i = Some v /\ (1 <= v)%Z.
Proof.
  intros [|idx d a b Hd Hpos Ha Hb] Hr [v [Hi Hv]]; [eauto|].
  destruct (decide (idx = i)) as [Heq|Hne].
  - subst i. rewrite Hi in Hd. inversion Hd; subst d.
    rewrite list_lookup_insert_eq by (eapply lookup_lt_Some; exact Hi).
    eexists; split; [reflexivity|].
    pose proof (neighbour_inRange _ _ Hr Ha). pose proof (neighbour_inRange _ _ Hr Hb).
    lia.
  - rewrite list_lookup_insert_ne by exact Hne. eauto.
Qed.

Section DistanceMapFacts.

Variables (width height : nat).

Lemma relaxFwd_step dist y x : relaxStep dist (relaxFwd width dist y x).
Proof.
  unfold relaxFwd.
  destruct (dist !! (y * width + x)) as [d|] eqn:Hd; [|constructor].
  destruct (0 <? d)%Z eqn:Hpos; [|constructor].
  apply Z.ltb_lt in Hpos.
  apply relax_write; [exact Hd | exact Hpos | |].
  - destruct (0 <? y); constructor.
  - destruct (0 <? x); constructor.
Qed.

Lemma relaxBwd_step dist y x : relaxStep dist (relaxBwd width height dist y x).
Proof.
  unfold relaxBwd.
  destruct (dist !! (y * width + x)) as [d|] eqn:Hd; [|constructor].
  destruct (0 <? d)%Z eqn:Hpos; [|constructor].
  apply Z.ltb_lt in Hpos.
  apply relax_write; [exact Hd | exact Hpos | |].
  - destruct (y <? height - 1); constructor.
  - destruct (x <? width - 1); constructor.
Qed.

(** A property of the distance field that every step keeps is kept by the
    two passes. *)
Lemma passes_preserve (P : list Z -> Prop) (dist : list Z) :
  (forall d d', relaxStep d d' -> P d -> P d') ->
  P dist -> P (pass2 width height (pass1 width height dist)).
Proof.
  intros Hstep H0. unfold pass2, pass1.
  apply foldl_preserves.
  { intros d y Hd. apply foldl_preserves; [|exact Hd].
    intros d' x Hd'. exact (Hstep _ _ (relaxBwd_step d' y x) Hd'). }
  apply foldl_preserves; [|exact H0].
  intros d y Hd. apply foldl_preserves; [|exact Hd].
  intros d' x Hd'. exact (Hstep _ _ (relaxFwd_step d' y x) Hd').
Qed.

Lemma initDist_length mask size invert : length (initDist mask size invert) = size.
Proof. unfold initDist. rewrite length_map, length_seq. reflexivity. Qed.

Lemma computeDistanceMap_length mask invert :
  length (computeDistanceMap mask width height invert) = width * height.
Proof.
  unfold computeDistanceMap.
  apply (passes_preserve (fun d => length d = width * height)).
  - intros d d' Hstep <-. apply relaxStep_length. exact Hstep.
  - apply initDist_length.
Qed.

(** With [invert = true] the cells of the pixels outside the mask are the
    seeds, and they keep distance 0. *)
Lemma computeDistanceMap_seed_zero mask i :
  i < width * height -> mask !! i = Some 0%Z ->
  computeDistanceMap mask width height true !! i = Some 0%Z.
Proof.
  intros Hi Hm. unfold computeDistanceMap.
  apply (passes_preserve (fun d => d !! i = Some 0%Z)).
  - intros d d' Hstep. apply relaxStep_zero. exact Hstep.
  - unfold initDist. rewrite lookup_map_seq by exact Hi. rewrite Hm. reflexivity.
Qed.

Lemma initDist_inRange mask size invert : inRange (initDist mask size invert).
Proof.
  unfold inRange, initDist. apply Forall_forall. intros v Hv.
  apply list_elem_of_In, in_map_iff in Hv. destruct Hv as [j [<- _]].
  unfold seed, INF. destruct invert, (mask !! j) as [m|]; try lia.
  - destruct (m =? 0)%Z; lia.
  - destruct (m =? 1)%Z; lia.
Qed.

(** The field only holds integers of [0, 1e6]: a [Float32Array] stores each
    of them exactly, and so does the sum [up + 1] of a double. *)
Lemma computeDistanceMap_inRange mask invert :
  inRange (computeDistanceMap mask width height invert).
Proof.
  unfold computeDistanceMap. apply (passes_preserve inRange).
  - intros d d' Hstep. apply relaxStep_inRange. exact Hstep.
  - apply initDist_inRange.
Qed.

(** With [invert = true] a pixel of the mask keeps a distance of at least 1. *)
Lemma computeDistanceMap_mask_pos mask i v :
  i < width * height -> mask !! i = Some v -> v <> 0%Z ->
  (1 <= zAt (computeDistanceMap mask width height true) i)%Z.
Proof.
  intros Hi Hm Hv.
  assert (H : inRange (computeDistanceMap mask width height true)
              /\ exists v, computeDistanceMap mask width height true !! i = Some v
                           /\ (1 <= v)%Z).
  { unfold computeDistanceMap.
    apply (passes_preserve
             (fun d => inRange d /\ exists v, d !! i = Some v /\ (1 <= v)%Z)).
    - intros d d' Hstep [Hr Hp]. split.
      + exact (relaxStep_inRange _ _ Hstep Hr).
      + exact (relaxStep_pos _ _ i Hstep Hr Hp).
    - split; [apply initDist_inRange|].
      unfold initDist. rewrite lookup_map_seq by exact Hi. rewrite Hm. simpl.
      apply Z.eqb_neq in Hv. rewrite Hv. eexists; split; [reflexivity | unfold INF; lia]. }
  destruct H as [_ [d [Hd Hpos]]]. unfold zAt. rewrite Hd. exact Hpos.
Qed.

End DistanceMapFacts.

(** ** Number facts *)

Lemma Qltb_lt (a b : Q) : Qltb a b = true <-> (a < b)%Q.
Proof.
  unfold Qltb. rewrite negb_true_iff. split.
  - intros H. apply Qnot_le_lt. intros Hle. apply Qle_bool_iff in Hle. congruence.
  - intros H. destruct (Qle_bool b a) eqn:E; [|reflexivity].
    apply Qle_bool_iff in E. exfalso. exact (Qlt_not_le _ _ H E).
Qed.

Lemma Qltb_ge (a b : Q) : Qltb a b = false <-> (b <= a)%Q.
Proof.
  unfold Qltb. rewrite negb_false_iff. apply Qle_bool_iff.
Qed.

Lemma Qle_bool_gt (a b : Q) : Qle_bool a b = false <-> (b < a)%Q.
Proof.
  rewrite <- Qltb_lt. unfold Qltb. destruct (Qle_bool a b); simpl; split; congruence.
Qed.

Lemma Qdiv255_le (a b : Q) : (a <= b -> a / 255 <= b / 255)%Q.
Proof.
  intros H. unfold Qdiv. apply Qmult_le_compat_r; [exact H|].
  apply Qinv_le_0_compat. lra.
Qed.

Lemma toUint8_range (q : Q) : (0 <= toUint8 q <= 255)%Z.
Proof. unfold toUint8. pose proof (Z.mod_pos_bound (Qtrunc q) 256). lia. Qed.

(** A byte is stored unchanged in a [Uint8ClampedArray]. *)
Lemma toUint8Clamped_byte (a : Z) : (0 <= a <= 255)%Z -> toUint8Clamped (inject_Z a) = a.
Proof.
  intros Ha. unfold toUint8Clamped.
  destruct (Qle_bool (inject_Z a) 0) eqn:E0.
  { apply Qle_bool_iff in E0. change 0%Q with (inject_Z 0) in E0.
    rewrite <- Zle_Qle in E0. lia. }
  destruct (Qle_bool 255 (inject_Z a)) eqn:E1.
  { apply Qle_bool_iff in E1. change 255%Q with (inject_Z 255) in E1.
    rewrite <- Zle_Qle in E1. lia. }
  rewrite Qfloor_Z.
  assert (Hr : Qltb (inject_Z a - inject_Z a) (1 # 2) = true).
  { apply Qltb_lt. lra. }
  rewrite Hr. reflexivity.
Qed.

(** The stored byte is within one half of the value assigned. *)
Lemma toUint8Clamped_near (q : Q) :
  (0 <= q)%Q -> (q <= 255)%Q -> (Qabs (inject_Z (toUint8Clamped q) - q) <= 1 # 2)%Q.
Proof.
  intros H0 H255. unfold toUint8Clamped.
  destruct (Qle_bool q 0) eqn:E0.
  { apply Qle_bool_iff in E0. apply Qabs_Qle_condition.
    change (inject_Z 0) with 0%Q. split; lra. }
  destruct (Qle_bool 255 q) eqn:E1.
  { apply Qle_bool_iff in E1. apply Qabs_Qle_condition.
    change (inject_Z 255) with 255%Q. split; lra. }
  pose proof (Qfloor_le q) as Hlo. pose proof (Qlt_floor q) as Hhi.
  rewrite inject_Z_plus in Hhi. change (inject_Z 1) with 1%Q in Hhi.
  destruct (Qltb (q - inject_Z (Qfloor q)) (1 # 2)) eqn:Ea.
  { apply Qltb_lt in Ea. apply Qabs_Qle_condition. split; lra. }
  apply Qltb_ge in Ea.
  assert (Hup : (Qabs (inject_Z (Qfloor q + 1) - q) <= 1 # 2)%Q).
  { rewrite inject_Z_plus. change (inject_Z 1) with 1%Q.
    apply Qabs_Qle_condition. split; lra. }
  destruct (Qltb (1 # 2) (q - inject_Z (Qfloor q))) eqn:Eb; [exact Hup|].
  apply Qltb_ge in Eb.
  destruct (Z.even (Qfloor q)); [|exact Hup].
  apply Qabs_Qle_condition. split; lra.
Qed.

(** ** Buffers of a run *)

Lemma lookup_flat_map4_from (f : nat -> list Z) (n s i k : nat) :
  (forall j, length (f j) = 4) -> i < n -> k < 4 ->
  flat_map f (seq s n) !! (i * 4 + k) = f (s + i) !! k.
Proof.
  intros Hlen. revert s i. induction n as [|n IH]; intros s i Hi Hk; [lia|].
  simpl. destruct i as [|i].
  - rewrite lookup_app_l by (rewrite Hlen; lia). rewrite Nat.add_0_r. reflexivity.
  - rewrite lookup_app_r by (rewrite Hlen; lia). rewrite Hlen.
    replace (S i * 4 + k - 4) with (i * 4 + k) by lia.
    rewrite IH by lia. f_equal. f_equal. lia.
Qed.

Lemma lookup_flat_map4 (f : nat -> list Z) (n i k : nat) :
  (forall j, length (f j) = 4) -> i < n -> k < 4 ->
  flat_map f (seq 0 n) !! (i * 4 + k) = f i !! k.
Proof. intros. rewrite lookup_flat_map4_from by assumption. reflexivity. Qed.

Lemma length_flat_map4 (f : nat -> list Z) (n : nat) :
  (forall j, length (f j) = 4) -> length (flat_map f (seq 0 n)) = 4 * n.
Proof.
  intros Hlen. generalize 0 at 1 as s. induction n as [|n IH]; intros s; simpl; [reflexivity|].
  rewrite length_app, Hlen, IH. lia.
Qed.

(** In a decoded image every read of the pixel loops and, when the image has
    a pixel, every corner read of the key estimator is inside the buffer. *)
Lemma pixel_read_in_range (img : ImageData) (i k : nat) :
  wellFormed img -> i < width img * height img -> k < 4 ->
  is_Some (data img !! (i * 4 + k)).
Proof.
  intros [Hlen _] Hi Hk. apply lookup_lt_is_Some. rewrite Hlen. lia.
Qed.

Lemma corner_read_in_range (img : ImageData) (cx cy k : nat) :
  wellFormed img -> cx < width img -> cy < height img -> k < 4 ->
  is_Some (data img !! ((cy * width img + cx) * 4 + k)).
Proof.
  intros Hwf Hx Hy Hk. apply pixel_read_in_range; [exact Hwf | | exact Hk]. nia.
Qed.

Section RunFacts.

Variable Math_sqrt : Q -> Q.
Variables (img : ImageData) (params : AlgorithmParams).

Let size := width img * height img.
Let b := pixelStages Math_sqrt img params.

Lemma length_alphaRaw : length (alphaRaw b) = size.
Proof. unfold b, pixelStages, rawAlpha; simpl. rewrite length_map, length_seq. reflexivity. Qed.

Lemma length_objectMask : length (objectMask b) = size.
Proof. unfold b, pixelStages, objectMaskOf; simpl. rewrite length_map, length_seq. reflexivity. Qed.

Lemma length_shavedObj : length (shavedObj b) = size.
Proof.
  unfold b, pixelStages, shave; simpl. destruct (Qltb 0 (shavePx params)).
  - rewrite length_map, length_seq. reflexivity.
  - unfold objectMaskOf. rewrite length_map, length_seq. reflexivity.
Qed.

Lemma length_alpha : length (alpha b) = size.
Proof. unfold b, pixelStages, assemble; simpl. rewrite length_map, length_seq. reflexivity. Qed.

Lemma length_outD : length (outD b) = 4 * size.
Proof. unfold b, pixelStages, output; simpl. apply length_flat_map4. reflexivity. Qed.

(** [origR[i]] is the red byte of pixel [i], and so on. *)
Lemma orig_channels (i : nat) :
  i < size ->
  qAt (origR b) i = byteAt (data img) (i * 4)
  /\ qAt (origG b) i = byteAt (data img) (i * 4 + 1)
  /\ qAt (origB b) i = byteAt (data img) (i * 4 + 2).
Proof.
  intros Hi. unfold b, pixelStages, origChannel; simpl.
  rewrite !qAt_map_seq by exact Hi. rewrite Nat.add_0_r. auto.
Qed.

Lemma alpha_byte (i : nat) : (0 <= zAt (alpha b) i <= 255)%Z.
Proof.
  unfold zAt. destruct (alpha b !! i) as [a|] eqn:Ha; simpl; [|lia].
  unfold b, pixelStages, assemble in Ha; simpl in Ha.
  apply lookup_lt_Some in Ha as Hi. rewrite length_map, length_seq in Hi.
  rewrite lookup_map_seq in Ha by exact Hi. inversion Ha. apply toUint8_range.
Qed.

End RunFacts.

(** The four cells of the output raster written for pixel [i]. *)
Lemma outD_cell (Math_sqrt : Q -> Q) (img : ImageData) (params : AlgorithmParams)
    (i k : nat) :
  i < width img * height img -> k < 4 ->
  outD (pixelStages Math_sqrt img params) !! (i * 4 + k) =
  outPixel (origR (pixelStages Math_sqrt img params)) (origG (pixelStages Math_sqrt img params))
           (origB (pixelStages Math_sqrt img params)) (alpha (pixelStages Math_sqrt img params))
           (globalDarkFactor params) i !! k.
Proof.
  intros Hi Hk. unfold pixelStages at 1, output; simpl.
  apply lookup_flat_map4; [reflexivity | exact Hi | exact Hk].
Qed.

Lemma outD_alpha_cell (Math_sqrt : Q -> Q) (img : ImageData) (params : AlgorithmParams)
    (i : nat) :
  i < width img * height img ->
  outD (pixelStages Math_sqrt img params) !! (i * 4 + 3) =
  Some (zAt (alpha (pixelStages Math_sqrt img params)) i).
Proof.
  intros Hi. rewrite outD_cell by (exact Hi || lia). unfold outPixel. simpl.
  rewrite toUint8Clamped_byte by apply alpha_byte. reflexivity.
Qed.

(** ** End-to-end runs *)

(** A 2x2 image of the key colour: alpha 0 everywhere, and colour 0 since
    [globalDarkFactor] is 0 by default. *)
Example run_green :
  outD (pixelStages sqrtQ img2x2green DEFAULT_PARAMS)
  = [0; 0; 0; 0;  0; 0; 0; 0;  0; 0; 0; 0;  0; 0; 0; 0]%Z.
Proof. vm_compute. reflexivity. Qed.

(** The red block on green with the default parameters: the normalised
    distance of the block is just below 1, inside the fade zone that ends at
    [15 * 50 / 255], and the block is kept as shadow. *)
Example run_block :
  alphaRaw (pixelStages sqrtQ img4x4 DEFAULT_PARAMS)
  = [0; 0; 0; 0; 0; 83; 83; 0; 0; 83; 83; 0; 0; 0; 0; 0]%Z
  /\ shadowMask (pixelStages sqrtQ img4x4 DEFAULT_PARAMS)
  = [0; 0; 0; 0; 0; 1; 1; 0; 0; 1; 1; 0; 0; 0; 0; 0]%Z
  /\ alpha (pixelStages sqrtQ img4x4 DEFAULT_PARAMS)
  = [0; 0; 0; 0; 0; 207; 207; 0; 0; 207; 207; 0; 0; 0; 0; 0]%Z.
Proof. vm_compute. repeat split; reflexivity. Qed.

(** * The claims *)

Local Open Scope Q_scope.

(** ** The output compositor *)

(** The byte stored for a value within 1/1000 of [q] is within 501/1000 of
    [q].  The luma and its product with [globalDarkFactor] are evaluated in
    doubles, to within 1e-12 of the exact value on bytes; the margin 1/1000
    of the statement below covers this rounding, which decides the stored
    byte when the exact value is that close to a half. *)
Lemma toUint8Clamped_stable (q v : Q) :
  0 <= q -> q <= 255 -> 0 <= v -> v <= 255 -> Qabs (v - q) <= 1 # 1000 ->
  Qabs (inject_Z (toUint8Clamped v) - q) <= 501 # 1000.
Proof.
  intros Hq0 Hq1 Hv0 Hv1 Hvq.
  pose proof (toUint8Clamped_near v Hv0 Hv1) as Hn.
  apply Qabs_Qle_condition in Hn. apply Qabs_Qle_condition in Hvq.
  apply Qabs_Qle_condition. split; lra.
Qed.

(** C1.  For every image, every parameter set and every pixel [i], the
    three colour cells of the output raster hold one and the same byte [c],
    and [c] is [clamp(0, 255, (0.2989*R + 0.5870*G + 0.1140*B) *
    globalDarkFactor)] of the decoded bytes [R], [G], [B] of the pixel, as a
    cell of the output's [Uint8ClampedArray] holds it: [c] is that value when
    the value is an integer and the nearest integer otherwise, at most
    501/1000 away (one half for the store, the rest for the rounding of the
    double arithmetic, see [toUint8Clamped_stable]).  The alpha cell holds
    [alpha[i]], the byte in which the compositor stored its final alpha of
    the pixel. *)
Theorem output_pixel_gray (Math_sqrt : Q -> Q) (img : ImageData)
    (params : AlgorithmParams) (i : nat) :
  (i < width img * height img)%nat ->
  let b := pixelStages Math_sqrt img params in
  let r := byteAt (data img) (i * 4) in
  let g := byteAt (data img) (i * 4 + 1) in
  let bl := byteAt (data img) (i * 4 + 2) in
  let darkGray :=
    Qmin 255 (Qmax 0 (((2989 # 10000) * r + (5870 # 10000) * g + (1140 # 10000) * bl)
                      * globalDarkFactor params)) in
  let c := zAt (outD b) (i * 4) in
  outD b !! (i * 4)%nat = Some c
  /\ outD b !! (i * 4 + 1)%nat = Some c
  /\ outD b !! (i * 4 + 2)%nat = Some c
  /\ (0 <= c <= 255)%Z
  /\ Qabs (inject_Z c - darkGray) <= 501 # 1000
  /\ (forall n : Z, darkGray == inject_Z n -> c = n)
  /\ outD b !! (i * 4 + 3)%nat = Some (zAt (alpha b) i)
  /\ (0 <= zAt (alpha b) i <= 255)%Z.
Proof.
  intros Hi b r g bl darkGray c.
  destruct (orig_channels Math_sqrt img params i Hi) as (HR & HG & HB).
  assert (Hpix : forall k, (k < 4)%nat ->
            outD b !! (i * 4 + k)%nat =
            outPixel (origR b) (origG b) (origB b) (alpha b) (globalDarkFactor params) i !! k).
  { intros k Hk. apply outD_cell; assumption. }
  assert (Hdg : darkGrayOf (qAt (origR b) i) (qAt (origG b) i) (qAt (origB b) i)
                           (globalDarkFactor params) = darkGray).
  { unfold b. rewrite HR, HG, HB. reflexivity. }
  assert (H0 : outD b !! (i * 4)%nat = Some (toUint8Clamped darkGray)).
  { rewrite <- (Nat.add_0_r (i * 4)), Hpix by lia. unfold outPixel. rewrite Hdg. reflexivity. }
  assert (Hc : c = toUint8Clamped darkGray) by (unfold c, zAt; rewrite H0; reflexivity).
  assert (Hlo : 0 <= darkGray) by (unfold darkGray; apply Q.min_glb; [lra | apply Q.le_max_l]).
  assert (Hhi : darkGray <= 255) by (unfold darkGray; apply Q.le_min_l).
  pose proof (toUint8Clamped_near darkGray Hlo Hhi) as Hnear.
  rewrite <- Hc in Hnear. apply Qabs_Qle_condition in Hnear. destruct Hnear as [Hn1 Hn2].
  split; [rewrite Hc; exact H0|].
  split; [rewrite Hpix by lia; unfold outPixel; rewrite Hdg, Hc; reflexivity|].
  split; [rewrite Hpix by lia; unfold outPixel; rewrite Hdg, Hc; reflexivity|].
  split.
  { assert (G1 : inject_Z (-1) < inject_Z c) by (change (inject_Z (-1)) with (- (1))%Q; lra).
    assert (G2 : inject_Z c < inject_Z 256) by (change (inject_Z 256) with 256%Q; lra).
    rewrite <- Zlt_Qlt in G1, G2. lia. }
  split; [apply Qabs_Qle_condition; split; lra|].
  split.
  { intros n Hn.
    assert (G1 : inject_Z (n - 1) < inject_Z c).
    { unfold Z.sub. rewrite inject_Z_plus. change (inject_Z (- (1))) with (- (1))%Q. lra. }
    assert (G2 : inject_Z c < inject_Z (n + 1)).
    { rewrite inject_Z_plus. change (inject_Z 1) with 1%Q. lra. }
    rewrite <- Zlt_Qlt in G1, G2. lia. }
  split; [apply outD_alpha_cell; exact Hi | apply alpha_byte].
Qed.

Lemma output_pixel_gray_witness :
  (5 < width img4x4 * height img4x4)%nat
  /\ outD (pixelStages sqrtQ img4x4 grayParams) !! (5 * 4 + 1)%nat
     = Some (zAt (outD (pixelStages sqrtQ img4x4 grayParams)) (5 * 4))
  /\ outD (pixelStages sqrtQ img4x4 grayParams) !! (5 * 4 + 3)%nat
     = Some (zAt (alpha (pixelStages sqrtQ img4x4 grayParams)) 5).
Proof.
  assert (H : (5 < width img4x4 * height img4x4)%nat) by (simpl; lia).
  destruct (output_pixel_gray sqrtQ img4x4 grayParams 5 H)
    as (_ & H1 & _ & _ & _ & _ & H3 & _).
  split; [exact H | split; [exact H1 | exact H3]].
Defined.

(** On the 4x4 image with [globalDarkFactor = 1], pixel 5 is (100, 55, 200):
    the value is 84.975 and the three colour cells of the output hold 85. *)
Example output_colour_run :
  firstn 4 (skipn (5 * 4) (outD (pixelStages sqrtQ img4x4 grayParams)))
  = [85; 85; 85; 207]%Z
  /\ Qmin 255 (Qmax 0 (((2989 # 10000) * 100 + (5870 # 10000) * 55 + (1140 # 10000) * 200) * 1))
     == 84975 # 1000.
Proof. split; vm_compute; reflexivity. Qed.

(** ** A raster without pixels *)

(** C2, as amended.  The pipeline has no size check and no invalid-input
    error: the promise is rejected only for a failed image load or a missing
    canvas context.  For a decoded raster with [W*H = 0] and a canvas
    context: if the canvas hands out the pixel buffer, every per-pixel loop
    runs zero times, every working buffer is empty and the run resolves with
    an empty output raster; if the canvas throws, the promise is never
    settled. *)
Theorem processImage_no_pixels (Math_sqrt : Q -> Q) (img : ImageData)
    (params : AlgorithmParams) :
  (width img * height img = 0)%nat ->
  let b := pixelStages Math_sqrt img params in
  processImage Math_sqrt (mkBrowser (Some img) true false) params
    = Resolved (mkProcessed (width img) (height img) [])
  /\ processImage Math_sqrt (mkBrowser (Some img) true true) params = Unsettled
  /\ (dists b = [] /\ alphaRaw b = [] /\ objectMask b = [] /\ shadowMask b = []
      /\ alpha b = [] /\ finalR b = [] /\ finalG b = [] /\ finalB b = []
      /\ outD b = [])
  /\ forall env e,
       processImage Math_sqrt env params = Rejected e ->
       (decoded env = None /\ e = ImageLoadError)
       \/ (hasCtx env = false /\ e = NoCanvasContext).
Proof.
  intros Hsize b.
  assert (Hout : outD b = []).
  { unfold b, pixelStages, output; simpl. rewrite Hsize. reflexivity. }
  split; [|split; [|split]].
  - unfold processImage. cbn [decoded hasCtx canvasThrows negb]. fold b.
    rewrite Hout. reflexivity.
  - reflexivity.
  - unfold b, pixelStages, chromaDists, rawAlpha, objectMaskOf, shadowMaskOf, assemble,
      edgeDesaturate, output; simpl.
    rewrite Hsize. simpl. repeat split.
  - intros [dec ctx thr] e. unfold processImage; simpl.
    destruct dec as [im|]; [destruct ctx; [destruct thr|]|]; simpl;
      intros He; inversion He; auto.
Qed.

Lemma processImage_no_pixels_witness :
  (width emptyImage * height emptyImage = 0)%nat
  /\ processImage sqrtQ (mkBrowser (Some emptyImage) true false) DEFAULT_PARAMS
     = Resolved (mkProcessed 0 0 []).
Proof.
  assert (H : (width emptyImage * height emptyImage = 0)%nat) by reflexivity.
  split; [exact H|].
  exact (proj1 (processImage_no_pixels sqrtQ emptyImage DEFAULT_PARAMS H)).
Defined.

(** C2, as stated, fails: on the decoded 0x0 raster, with a canvas context,
    the promise is not rejected with any error, whether the canvas hands out
    the empty buffer or throws. *)
Lemma processImage_empty_not_rejected :
  ~ exists canvasThrows e,
      processImage sqrtQ (mkBrowser (Some emptyImage) true canvasThrows) DEFAULT_PARAMS
      = Rejected e.
Proof.
  intros [thr [e He]]. destruct thr; vm_compute in He; discriminate He.
Qed.

(** ** The seeds of the distance transform *)






Example computeDistanceMap_invert_false_run :
  initDist [0; 1]%Z 2 false = [INF; 0%Z]
  /\ computeDistanceMap [0]%Z 1 1 false = [INF]
  /\ computeDistanceMap [0; 1]%Z 2 1 false = [1%Z; 0%Z].
Proof. repeat split; vm_compute; reflexivity. Qed.

(** In general: with [invert = false], the cell of a mask-0 pixel starts at
    INF and the cell of a mask-1 pixel starts at 0. *)
Lemma initDist_invert_false (mask : list Z) (size i : nat) :
  (i < size)%nat ->
  (mask !! i = Some 0%Z -> initDist mask size false !! i = Some INF)
  /\ (mask !! i = Some 1%Z -> initDist mask size false !! i = Some 0%Z).
Proof.
  intros Hi. unfold initDist. rewrite lookup_map_seq by exact Hi.
  split; intros ->; reflexivity.
Qed.

(** ** The alpha shaper *)

Lemma maxDistOf_from_nonneg (dists : list Q) (m : Q) :
  0 <= m -> 0 <= foldl (fun maxDist d => if Qltb maxDist d then d else maxDist) m dists.
Proof.
  revert m. induction dists as [|d l IH]; intros m Hm; simpl; [exact Hm|].
  apply IH. destruct (Qltb m d) eqn:E; [|exact Hm].
  apply Qltb_lt in E. lra.
Qed.

Lemma maxDistOf_nonneg (dists : list Q) : 0 <= maxDistOf dists.
Proof. apply maxDistOf_from_nonneg. lra. Qed.

(** In exact arithmetic, comparing the normalised distance with a threshold
    is comparing the distance with the threshold scaled by [maxDist + EPS]. *)
Lemma distNorm_gt_iff (d maxDist c : Q) :
  0 <= maxDist -> (c < d / (maxDist + EPS) <-> c * (maxDist + EPS) < d).
Proof.
  intros HM. assert (Hpos : 0 < maxDist + EPS) by (unfold EPS; lra).
  split; intros H.
  - assert (E : d / (maxDist + EPS) * (maxDist + EPS) == d) by (field; lra).
    apply (Qmult_lt_compat_r _ _ _ Hpos) in H. lra.
  - apply Qlt_shift_div_l; assumption.
Qed.

Lemma zAt_alphaRaw (Math_sqrt : Q -> Q) (img : ImageData) (params : AlgorithmParams) (i : nat) :
  (i < width img * height img)%nat ->
  zAt (alphaRaw (pixelStages Math_sqrt img params)) i =
  rawAlphaOf (qAt (dists (pixelStages Math_sqrt img params)) i
              / (maxDist (pixelStages Math_sqrt img params) + EPS))
             (opaqueDistNormOf (colorTolerance params))
             (clearDistNormOf (colorTolerance params) (fadeStrength params)).
Proof.
  intros Hi. unfold pixelStages, rawAlpha; simpl.
  rewrite zAt_map_seq by exact Hi. reflexivity.
Qed.

(** With the documented ranges [colorTolerance >= 0] and [fadeStrength >= 1]
    the fade zone starts at or after the background cut. *)
Lemma documented_ranges_order (colorTolerance fadeStrength : Q) :
  0 <= colorTolerance -> 1 <= fadeStrength ->
  colorTolerance / 255 <= colorTolerance * fadeStrength / 255.
Proof.
  intros Hct Hfs.
  assert (H : 0 <= colorTolerance * (fadeStrength - 1))
    by (apply Qmult_le_0_compat; lra).
  assert (E : colorTolerance * (fadeStrength - 1)
              == colorTolerance * fadeStrength - colorTolerance) by ring.
  rewrite E in H. apply Qdiv255_le. lra.
Qed.

(** C4, as amended.  With [opaqueDistNorm <= clearDistNorm] (as when
    [colorTolerance >= 0] and [fadeStrength >= 1]), if every pixel's
    normalised distance [d / (maxDist + EPS)] exceeds [clearDistNorm], then
    raw alpha is 255 at every pixel. *)
Theorem rawAlpha_255_everywhere (Math_sqrt : Q -> Q) (img : ImageData)
    (params : AlgorithmParams) :
  let b := pixelStages Math_sqrt img params in
  let opaqueDistNorm := colorTolerance params / 255 in
  let clearDistNorm := colorTolerance params * fadeStrength params / 255 in
  opaqueDistNorm <= clearDistNorm ->
  (forall i, (i < width img * height img)%nat ->
             clearDistNorm < qAt (dists b) i / (maxDist b + EPS)) ->
  forall i, (i < width img * height img)%nat -> zAt (alphaRaw b) i = 255%Z.
Proof.
  intros b opaqueDistNorm clearDistNorm Hoc Hall i Hi.
  unfold b. rewrite zAt_alphaRaw by exact Hi. fold b.
  specialize (Hall i Hi).
  set (dn := qAt (dists b) i / (maxDist b + EPS)) in *.
  change (opaqueDistNormOf (colorTolerance params)) with opaqueDistNorm.
  change (clearDistNormOf (colorTolerance params) (fadeStrength params)) with clearDistNorm.
  unfold rawAlphaOf, alphaZone.
  assert (E1 : Qle_bool dn opaqueDistNorm = false) by (apply Qle_bool_gt; lra).
  assert (E2 : Qltb clearDistNorm dn = true) by (apply Qltb_lt; exact Hall).
  rewrite E1, E2. reflexivity.
Qed.

Lemma rawAlpha_255_everywhere_witness :
  colorTolerance wideFadeParams / 255
    <= colorTolerance wideFadeParams * fadeStrength wideFadeParams / 255
  /\ (forall i, (i < width onePixelRed * height onePixelRed)%nat ->
        colorTolerance wideFadeParams * fadeStrength wideFadeParams / 255
        < qAt (dists (pixelStages sqrtQ onePixelRed wideFadeParams)) i
          / (maxDist (pixelStages sqrtQ onePixelRed wideFadeParams) + EPS))
  /\ zAt (alphaRaw (pixelStages sqrtQ onePixelRed wideFadeParams)) 0 = 255%Z.
Proof.
  assert (H1 : colorTolerance wideFadeParams / 255
               <= colorTolerance wideFadeParams * fadeStrength wideFadeParams / 255)
    by (apply documented_ranges_order; simpl; lra).
  assert (H2 : forall i, (i < width onePixelRed * height onePixelRed)%nat ->
        colorTolerance wideFadeParams * fadeStrength wideFadeParams / 255
        < qAt (dists (pixelStages sqrtQ onePixelRed wideFadeParams)) i
          / (maxDist (pixelStages sqrtQ onePixelRed wideFadeParams) + EPS)).
  { intros i Hi. assert (i = 0%nat) as -> by (simpl in Hi; lia).
    vm_compute. reflexivity. }
  split; [exact H1 | split; [exact H2 |]].
  apply (rawAlpha_255_everywhere sqrtQ onePixelRed wideFadeParams H1 H2 0%nat).
  simpl; lia.
Defined.

(** The same with the distances themselves, as the claim has them, and the
    documented parameter ranges: in exact arithmetic the hypothesis on the
    normalised distance is [d > clearDistNorm * (maxDist + EPS)]. *)
Lemma rawAlpha_255_scaled (Math_sqrt : Q -> Q) (img : ImageData)
    (params : AlgorithmParams) :
  0 <= colorTolerance params -> 1 <= fadeStrength params ->
  (forall i, (i < width img * height img)%nat ->
             colorTolerance params * fadeStrength params / 255
             * (maxDist (pixelStages Math_sqrt img params) + EPS)
             < qAt (dists (pixelStages Math_sqrt img params)) i) ->
  forall i, (i < width img * height img)%nat ->
            zAt (alphaRaw (pixelStages Math_sqrt img params)) i = 255%Z.
Proof.
  intros Hct Hfs Hall i Hi.
  rewrite zAt_alphaRaw by exact Hi.
  specialize (Hall i Hi).
  apply distNorm_gt_iff in Hall; [|apply maxDistOf_nonneg].
  pose proof (documented_ranges_order _ _ Hct Hfs) as Hoc.
  set (dn := qAt (dists (pixelStages Math_sqrt img params)) i
             / (maxDist (pixelStages Math_sqrt img params) + EPS)) in *.
  unfold rawAlphaOf, alphaZone, opaqueDistNormOf, clearDistNormOf.
  assert (E1 : Qle_bool dn (colorTolerance params / 255) = false)
    by (apply Qle_bool_gt; lra).
  assert (E2 : Qltb (colorTolerance params * fadeStrength params / 255) dn = true)
    by (apply Qltb_lt; exact Hall).
  rewrite E1, E2. reflexivity.
Qed.

(** C4, as stated, fails.  One pixel (1, 0, 0), key (0, 0, 0),
    [colorTolerance = 127.4999], [fadeStrength = 2]: the distance is 1, the
    maximum is 1, [clearDistNorm = 254.9998 / 255], so the distance exceeds
    [clearDistNorm * maxDist]; the normalised distance [1 / 1.000001] does
    not exceed [clearDistNorm], the pixel falls in the fade zone and its raw
    alpha is 254. *)
Lemma rawAlpha_eps_counterexample :
  ~ ((forall i, (i < width onePixelRed * height onePixelRed)%nat ->
        colorTolerance nearOneParams * fadeStrength nearOneParams / 255
        * maxDist (pixelStages sqrtQ onePixelRed nearOneParams)
        < qAt (dists (pixelStages sqrtQ onePixelRed nearOneParams)) i)
     -> forall i, (i < width onePixelRed * height onePixelRed)%nat ->
        zAt (alphaRaw (pixelStages sqrtQ onePixelRed nearOneParams)) i = 255%Z).
Proof.
  intros H.
  assert (Hall : forall i, (i < width onePixelRed * height onePixelRed)%nat ->
        colorTolerance nearOneParams * fadeStrength nearOneParams / 255
        * maxDist (pixelStages sqrtQ onePixelRed nearOneParams)
        < qAt (dists (pixelStages sqrtQ onePixelRed nearOneParams)) i).
  { intros i Hi. assert (i = 0%nat) as -> by (simpl in Hi; lia).
    vm_compute. reflexivity. }
  specialize (H Hall 0%nat). vm_compute in H.
  assert (E : Some 254%Z = Some 255%Z) by (f_equal; apply H; lia).
  discriminate E.
Qed.

Example rawAlpha_near_one :
  alphaRaw (pixelStages sqrtQ onePixelRed nearOneParams) = [254%Z].
Proof. vm_compute. reflexivity. Qed.

(** C5.  When [clearDistNorm == opaqueDistNorm], no pixel takes the fade
    branch, so its division is never evaluated; a pixel whose normalised
    distance is above [opaqueDistNorm] gets raw alpha 255 and every other
    pixel gets raw alpha 0. *)
Theorem zero_width_fade (Math_sqrt : Q -> Q) (img : ImageData)
    (params : AlgorithmParams) (i : nat) :
  clearDistNormOf (colorTolerance params) (fadeStrength params)
    == opaqueDistNormOf (colorTolerance params) ->
  (i < width img * height img)%nat ->
  let b := pixelStages Math_sqrt img params in
  let opaqueDistNorm := colorTolerance params / 255 in
  let clearDistNorm := colorTolerance params * fadeStrength params / 255 in
  let distNorm := qAt (dists b) i / (maxDist b + EPS) in
  alphaZone distNorm opaqueDistNorm clearDistNorm <> ZoneFade
  /\ (opaqueDistNorm < distNorm -> zAt (alphaRaw b) i = 255%Z)
  /\ (distNorm <= opaqueDistNorm -> zAt (alphaRaw b) i = 0%Z).
Proof.
  intros Heq Hi b opaqueDistNorm clearDistNorm distNorm.
  unfold b. rewrite zAt_alphaRaw by exact Hi. fold b. fold distNorm.
  change (opaqueDistNormOf (colorTolerance params)) with opaqueDistNorm in *.
  change (clearDistNormOf (colorTolerance params) (fadeStrength params))
    with clearDistNorm in *.
  unfold rawAlphaOf, alphaZone.
  destruct (Qle_bool distNorm opaqueDistNorm) eqn:E1.
  - apply Qle_bool_iff in E1.
    split; [discriminate | split; [intros; lra | intros; reflexivity]].
  - apply Qle_bool_gt in E1.
    assert (E2 : Qltb clearDistNorm distNorm = true) by (apply Qltb_lt; lra).
    rewrite E2. split; [discriminate | split; [intros; reflexivity | intros; lra]].
Qed.

Lemma zero_width_fade_witness :
  clearDistNormOf (colorTolerance sharpParams) (fadeStrength sharpParams)
    == opaqueDistNormOf (colorTolerance sharpParams)
  /\ (5 < width img4x4 * height img4x4)%nat
  /\ alphaZone (qAt (dists (pixelStages sqrtQ img4x4 sharpParams)) 5
                / (maxDist (pixelStages sqrtQ img4x4 sharpParams) + EPS))
               (colorTolerance sharpParams / 255)
               (colorTolerance sharpParams * fadeStrength sharpParams / 255) <> ZoneFade.
Proof.
  assert (H1 : clearDistNormOf (colorTolerance sharpParams) (fadeStrength sharpParams)
               == opaqueDistNormOf (colorTolerance sharpParams)) by reflexivity.
  assert (H2 : (5 < width img4x4 * height img4x4)%nat) by (simpl; lia).
  split; [exact H1 | split; [exact H2 |]].
  exact (proj1 (zero_width_fade sqrtQ img4x4 sharpParams 5 H1 H2)).
Defined.

Example rawAlpha_sharp :
  alphaRaw (pixelStages sqrtQ img4x4 sharpParams)
  = [0; 0; 0; 0; 0; 255; 255; 0; 0; 255; 255; 0; 0; 0; 0; 0]%Z.
Proof. vm_compute. reflexivity. Qed.

(** ** Edge desaturation *)

(** C6.  Two runs on the same image whose parameter sets differ only in
    [edgeDesat] and [edgeDark] produce the same output raster, colour and
    alpha: the output compositor reads [origR], [origG], [origB] and [alpha],
    not the desaturated colours of stage 7. *)
Theorem edge_params_discarded (Math_sqrt : Q -> Q) (img : ImageData)
    (p q : AlgorithmParams) :
  sameButEdge p q ->
  outD (pixelStages Math_sqrt img p) = outD (pixelStages Math_sqrt img q)
  /\ forall env, processImage Math_sqrt env p = processImage Math_sqrt env q.
Proof.
  intros (Hct & Hfs & Hsp & Hfw & Hot & Hgd & Hab & Had & Hmb).
  assert (Hout : forall im, outD (pixelStages Math_sqrt im p) = outD (pixelStages Math_sqrt im q)).
  { intros im. unfold pixelStages; simpl.
    rewrite Hct, Hfs, Hsp, Hfw, Hot, Hgd, Hab, Had, Hmb. reflexivity. }
  split; [apply Hout|].
  intros env. unfold processImage.
  destruct (decoded env) as [im|]; [|reflexivity]. rewrite Hout. reflexivity.
Qed.

Lemma edge_params_discarded_witness :
  sameButEdge grayParams softEdgeParams
  /\ outD (pixelStages sqrtQ img4x4 grayParams)
     = outD (pixelStages sqrtQ img4x4 softEdgeParams).
Proof.
  assert (H : sameButEdge grayParams softEdgeParams)
    by (unfold sameButEdge; simpl; tauto).
  split; [exact H|].
  exact (proj1 (edge_params_discarded sqrtQ img4x4 grayParams softEdgeParams H)).
Defined.

(** Stage 7 does compute colours that depend on the two parameters: on the
    4x4 test image the two runs of the witness disagree on [finalR], at the
    half-transparent pixels of the block, and agree on the output. *)
Example edge_colours_differ :
  finalR (pixelStages sqrtQ img4x4 grayParams) !! 5%nat = Some 0
  /\ finalR (pixelStages sqrtQ img4x4 softEdgeParams) !! 5%nat
     = Some (369950000000000 # 4000000000000)
  /\ firstn 4 (skipn 20 (outD (pixelStages sqrtQ img4x4 grayParams))) = [85; 85; 85; 207]%Z
  /\ firstn 4 (skipn 20 (outD (pixelStages sqrtQ img4x4 softEdgeParams))) = [85; 85; 85; 207]%Z.
Proof. vm_compute. repeat split; reflexivity. Qed.

(** ** The alpha compositor *)

Lemma zAt_alpha (Math_sqrt : Q -> Q) (img : ImageData) (params : AlgorithmParams) (i : nat) :
  (i < width img * height img)%nat ->
  zAt (alpha (pixelStages Math_sqrt img params)) i =
  toUint8 (finalAlphaOf (zAt (alphaRaw (pixelStages Math_sqrt img params)) i)
                        (zAt (shavedObj (pixelStages Math_sqrt img params)) i)
                        (zAt (shadowMask (pixelStages Math_sqrt img params)) i)
                        (qAt (objectFeather (pixelStages Math_sqrt img params)) i)
                        (boostOf (alphaBoost params))).
Proof.
  intros Hi. unfold pixelStages, assemble; simpl.
  rewrite zAt_map_seq by exact Hi. reflexivity.
Qed.

(** C9.  When [alphaBoost] is 0 the multiplier used is 1: every buffer of
    the run, the final alpha among them, and the output raster are those of
    the run with [alphaBoost = 1]. *)
Theorem alphaBoost_zero_is_one (Math_sqrt : Q -> Q) (img : ImageData)
    (params : AlgorithmParams) :
  alphaBoost params == 0 ->
  boostOf (alphaBoost params) = 1
  /\ alpha (pixelStages Math_sqrt img params)
     = alpha (pixelStages Math_sqrt img (with_alphaBoost 1 params))
  /\ outD (pixelStages Math_sqrt img params)
     = outD (pixelStages Math_sqrt img (with_alphaBoost 1 params)).
Proof.
  intros H0.
  assert (Hb : boostOf (alphaBoost params) = 1).
  { unfold boostOf. apply Qeq_bool_iff in H0. rewrite H0. reflexivity. }
  assert (Ha : alpha (pixelStages Math_sqrt img params)
               = alpha (pixelStages Math_sqrt img (with_alphaBoost 1 params))).
  { unfold pixelStages, assemble; simpl. rewrite Hb. reflexivity. }
  split; [exact Hb | split; [exact Ha|]].
  unfold pixelStages, output; simpl. unfold pixelStages in Ha; simpl in Ha.
  rewrite Ha. reflexivity.
Qed.

Lemma alphaBoost_zero_is_one_witness :
  alphaBoost noBoostParams == 0
  /\ alpha (pixelStages sqrtQ img4x4 noBoostParams)
     = alpha (pixelStages sqrtQ img4x4 (with_alphaBoost 1 noBoostParams)).
Proof.
  assert (H : alphaBoost noBoostParams == 0) by reflexivity.
  split; [exact H|].
  exact (proj1 (proj2 (alphaBoost_zero_is_one sqrtQ img4x4 noBoostParams H))).
Defined.

(** With [alphaBoost = 0] the alphas are not multiplied by 0: the red block
    of the 4x4 test image keeps its raw alpha 83. *)
Example alphaBoost_zero_run :
  alpha (pixelStages sqrtQ img4x4 noBoostParams)
  = [0; 0; 0; 0; 0; 83; 83; 0; 0; 83; 83; 0; 0; 0; 0; 0]%Z.
Proof. vm_compute. reflexivity. Qed.

(** C10.  A pixel whose raw alpha is 0 has final alpha 0, whatever the
    parameters, and the alpha cell of the output raster holds 0. *)
Theorem background_stays_transparent (Math_sqrt : Q -> Q) (img : ImageData)
    (params : AlgorithmParams) (i : nat) :
  (i < width img * height img)%nat ->
  zAt (alphaRaw (pixelStages Math_sqrt img params)) i = 0%Z ->
  zAt (alpha (pixelStages Math_sqrt img params)) i = 0%Z
  /\ outD (pixelStages Math_sqrt img params) !! (i * 4 + 3)%nat = Some 0%Z.
Proof.
  intros Hi Hraw.
  assert (Ha : zAt (alpha (pixelStages Math_sqrt img params)) i = 0%Z).
  { rewrite zAt_alpha by exact Hi. rewrite Hraw.
    assert (Hsh : zAt (shadowMask (pixelStages Math_sqrt img params)) i = 0%Z).
    { unfold pixelStages at 1, shadowMaskOf; simpl.
      rewrite zAt_map_seq by exact Hi.
      fold (pixelStages Math_sqrt img params) in Hraw. unfold pixelStages in Hraw; simpl in Hraw.
      rewrite Hraw. reflexivity. }
    rewrite Hsh. unfold finalAlphaOf.
    destruct (zAt (shavedObj (pixelStages Math_sqrt img params)) i =? 1)%Z.
    - set (f := qAt (objectFeather (pixelStages Math_sqrt img params)) i).
      assert (E0 : inject_Z 0 * f == 0) by ring.
      assert (El : Qltb 0 (inject_Z 0 * f) = false) by (apply Qltb_ge; lra).
      rewrite El. unfold toUint8, Qtrunc.
      assert (Ep : Qle_bool 0 (inject_Z 0 * f) = true) by (apply Qle_bool_iff; lra).
      rewrite Ep. rewrite (Qfloor_comp _ _ E0). reflexivity.
    - reflexivity. }
  split; [exact Ha|].
  rewrite outD_alpha_cell by exact Hi. rewrite Ha. reflexivity.
Qed.

Lemma background_stays_transparent_witness :
  (0 < width img4x4 * height img4x4)%nat
  /\ zAt (alphaRaw (pixelStages sqrtQ img4x4 DEFAULT_PARAMS)) 0 = 0%Z
  /\ zAt (alpha (pixelStages sqrtQ img4x4 DEFAULT_PARAMS)) 0 = 0%Z.
Proof.
  assert (H1 : (0 < width img4x4 * height img4x4)%nat) by (simpl; lia).
  assert (H2 : zAt (alphaRaw (pixelStages sqrtQ img4x4 DEFAULT_PARAMS)) 0 = 0%Z)
    by (vm_compute; reflexivity).
  split; [exact H1 | split; [exact H2 |]].
  exact (proj1 (background_stays_transparent sqrtQ img4x4 DEFAULT_PARAMS 0 H1 H2)).
Defined.

(** A background pixel that the object mask holds: with
    [objectThreshold = 0] every pixel of the 4x4 image is in the object mask
    and has feather value 1, and the pixels of raw alpha 0 still end at 0. *)
Example background_in_object_mask :
  objectMask (pixelStages sqrtQ img4x4 allObjectParams)
  = [1; 1; 1; 1; 1; 1; 1; 1; 1; 1; 1; 1; 1; 1; 1; 1]%Z
  /\ alphaRaw (pixelStages sqrtQ img4x4 allObjectParams)
  = [0; 0; 0; 0; 0; 255; 255; 0; 0; 255; 255; 0; 0; 0; 0; 0]%Z
  /\ alpha (pixelStages sqrtQ img4x4 allObjectParams)
  = [0; 0; 0; 0; 0; 255; 255; 0; 0; 255; 255; 0; 0; 0; 0; 0]%Z.
Proof. vm_compute. repeat split; reflexivity. Qed.

(** ** Feather *)

Lemma featherVal_far (d : Z) (F : Q) :
  0 < F -> F <= inject_Z d -> featherVal d F == 1.
Proof.
  intros HF Hd. unfold featherVal.
  assert (Hv : 1 <= inject_Z d / F) by (apply Qle_shift_div_l; lra).
  destruct (Qltb 1 (inject_Z d / F)) eqn:E1.
  - reflexivity.
  - apply Qltb_ge in E1.
    assert (E2 : Qltb (inject_Z d / F) 0 = false) by (apply Qltb_ge; lra).
    rewrite E2. lra.
Qed.

Lemma featherVal_zero (F : Q) : 0 < F -> featherVal 0 F == 0.
Proof.
  intros HF. unfold featherVal.
  assert (Hv : inject_Z 0 / F == 0) by (unfold Qdiv; ring).
  assert (E1 : Qltb 1 (inject_Z 0 / F) = false) by (apply Qltb_ge; lra).
  assert (E2 : Qltb (inject_Z 0 / F) 0 = false) by (apply Qltb_ge; lra).
  rewrite E1, E2. exact Hv.
Qed.

(** C7.  With [featherWidth = F > 0], a pixel whose chamfer distance into
    the shaved object mask is [F] or more has feather value 1, and a pixel at
    the shaved boundary, where that distance is 0, has feather value 0. *)
Theorem feather_boundary (Math_sqrt : Q -> Q) (img : ImageData)
    (params : AlgorithmParams) (i : nat) :
  0 < featherWidth params ->
  (i < width img * height img)%nat ->
  let b := pixelStages Math_sqrt img params in
  let distFeather := computeDistanceMap (shavedObj b) (width img) (height img) true in
  (featherWidth params <= inject_Z (zAt distFeather i) -> qAt (objectFeather b) i == 1)
  /\ (zAt distFeather i = 0%Z -> qAt (objectFeather b) i == 0).
Proof.
  intros HF Hi b distFeather.
  assert (Hf : qAt (objectFeather b) i = featherVal (zAt distFeather i) (featherWidth params)).
  { unfold b, pixelStages, feather; simpl.
    apply Qltb_lt in HF. rewrite HF.
    rewrite qAt_map_seq by exact Hi. reflexivity. }
  rewrite Hf. split.
  - intros Hd. apply featherVal_far; assumption.
  - intros ->. apply featherVal_zero. exact HF.
Qed.

Example feather_run :
  computeDistanceMap (shavedObj (pixelStages sqrtQ img4x4 featherParams)) 4 4 true
  = [0; 0; 0; 0; 0; 1; 1; 0; 0; 1; 1; 0; 0; 0; 0; 0]%Z
  /\ objectFeather (pixelStages sqrtQ img4x4 featherParams) !! 5%nat = Some (1 # 2).
Proof. vm_compute. split; reflexivity. Qed.

Lemma feather_boundary_witness :
  0 < featherWidth featherParams
  /\ (0 < width img4x4 * height img4x4)%nat
  /\ (zAt (computeDistanceMap (shavedObj (pixelStages sqrtQ img4x4 featherParams))
                              (width img4x4) (height img4x4) true) 0 = 0%Z ->
      qAt (objectFeather (pixelStages sqrtQ img4x4 featherParams)) 0 == 0).
Proof.
  assert (H1 : 0 < featherWidth featherParams) by (simpl; lra).
  assert (H2 : (0 < width img4x4 * height img4x4)%nat) by (simpl; lia).
  split; [exact H1 | split; [exact H2 |]].
  exact (proj2 (feather_boundary sqrtQ img4x4 featherParams 0 H1 H2)).
Defined.

(** The pixels at distance 0 are the pixels outside the shaved mask. *)
Lemma feather_outside_mask (Math_sqrt : Q -> Q) (img : ImageData)
    (params : AlgorithmParams) (i : nat) :
  (i < width img * height img)%nat ->
  shavedObj (pixelStages Math_sqrt img params) !! i = Some 0%Z ->
  zAt (computeDistanceMap (shavedObj (pixelStages Math_sqrt img params))
                          (width img) (height img) true) i = 0%Z.
Proof.
  intros Hi Hm. unfold zAt.
  rewrite (computeDistanceMap_seed_zero _ _ _ _ Hi Hm). reflexivity.
Qed.

(** A pixel of the shaved mask, on its edge or not, is at distance 1 or more
    and has a positive feather value. *)
Lemma featherVal_pos (d : Z) (F : Q) :
  0 < F -> (1 <= d)%Z -> 0 < featherVal d F.
Proof.
  intros HF Hd. unfold featherVal.
  assert (Hq : 1 <= inject_Z d) by (change 1 with (inject_Z 1); rewrite <- Zle_Qle; exact Hd).
  assert (Hv : 0 < inject_Z d / F) by (apply Qlt_shift_div_l; lra).
  destruct (Qltb 1 (inject_Z d / F)) eqn:E1.
  - reflexivity.
  - assert (E2 : Qltb (inject_Z d / F) 0 = false) by (apply Qltb_ge; lra).
    rewrite E2. exact Hv.
Qed.

Lemma feather_inside_mask (Math_sqrt : Q -> Q) (img : ImageData)
    (params : AlgorithmParams) (i : nat) :
  0 < featherWidth params ->
  (i < width img * height img)%nat ->
  shavedObj (pixelStages Math_sqrt img params) !! i = Some 1%Z ->
  (1 <= zAt (computeDistanceMap (shavedObj (pixelStages Math_sqrt img params))
                                (width img) (height img) true) i)%Z
  /\ 0 < qAt (objectFeather (pixelStages Math_sqrt img params)) i.
Proof.
  intros HF Hi Hm.
  assert (Hd := computeDistanceMap_mask_pos (width img) (height img) _ i 1%Z Hi Hm
                  ltac:(discriminate)).
  split; [exact Hd|].
  unfold pixelStages at 1, feather; simpl.
  apply Qltb_lt in HF as HFb. rewrite HFb.
  rewrite qAt_map_seq by exact Hi.
  apply featherVal_pos; assumption.
Qed.

(** ** Shave *)

Lemma objectMaskOf_bits (alphaRaw : list Z) (size : nat) (thr : Q) (i : nat) (v : Z) :
  objectMaskOf alphaRaw size thr !! i = Some v -> v = 0%Z \/ v = 1%Z.
Proof.
  intros H. apply lookup_lt_Some in H as Hi.
  unfold objectMaskOf in *. rewrite length_map, length_seq in Hi.
  rewrite lookup_map_seq in H by exact Hi. inversion H.
  destruct (Qle_bool thr _); auto.
Qed.

Lemma objectMaskOf_length (alphaRaw : list Z) (size : nat) (thr : Q) :
  length (objectMaskOf alphaRaw size thr) = size.
Proof. unfold objectMaskOf. rewrite length_map, length_seq. reflexivity. Qed.

Lemma shave_length (om : list Z) (w h : nat) (s : Q) :
  length om = (w * h)%nat -> length (shave om w h s) = (w * h)%nat.
Proof.
  intros Hl. unfold shave. destruct (Qltb 0 s); [|exact Hl].
  rewrite length_map, length_seq. reflexivity.
Qed.

(** A pixel that survives a shave of [s2 >= s1 >= 0] pixels survives a shave
    of [s1] pixels. *)
Lemma shave_subset (om : list Z) (w h : nat) (s1 s2 : Q) :
  length om = (w * h)%nat ->
  (forall i v, om !! i = Some v -> v = 0%Z \/ v = 1%Z) ->
  0 <= s1 -> s1 <= s2 ->
  forall i, shave om w h s2 !! i = Some 1%Z -> shave om w h s1 !! i = Some 1%Z.
Proof.
  intros Hl Hbits H1 H12 i. unfold shave.
  destruct (Qltb 0 s2) eqn:E2.
  - intros Hi2. apply lookup_lt_Some in Hi2 as Hi.
    rewrite length_map, length_seq in Hi.
    rewrite lookup_map_seq in Hi2 by exact Hi.
    set (d := zAt (computeDistanceMap om w h true) i) in *.
    assert (Hd : s2 < inject_Z d).
    { destruct (Qltb s2 (inject_Z d)) eqn:E; [apply Qltb_lt; exact E | discriminate Hi2]. }
    destruct (Qltb 0 s1) eqn:E1.
    + rewrite lookup_map_seq by exact Hi. fold d.
      assert (E : Qltb s1 (inject_Z d) = true) by (apply Qltb_lt; lra).
      rewrite E. reflexivity.
    + destruct (om !! i) as [v|] eqn:Hv.
      * destruct (Hbits i v Hv) as [-> | ->]; [|reflexivity].
        exfalso. unfold d, zAt in Hd.
        rewrite (computeDistanceMap_seed_zero w h om i Hi Hv) in Hd. simpl in Hd.
        change (inject_Z 0) with 0%Q in Hd. lra.
      * apply lookup_ge_None in Hv. lia.
  - apply Qltb_ge in E2.
    assert (E1 : Qltb 0 s1 = false) by (apply Qltb_ge; lra).
    rewrite E1. auto.
Qed.

Lemma maskCount_mono (m2 m1 : list Z) :
  length m1 = length m2 ->
  (forall i, m2 !! i = Some 1%Z -> m1 !! i = Some 1%Z) ->
  (maskCount m2 <= maskCount m1)%nat.
Proof.
  unfold maskCount. revert m1. induction m2 as [|v2 m2 IH]; intros m1 Hl Hsub.
  - simpl. lia.
  - destruct m1 as [|v1 m1]; [discriminate Hl|].
    simpl in Hl. injection Hl as Hl.
    assert (IH' := IH m1 Hl (fun i H => Hsub (S i) H)).
    rewrite !filter_cons.
    destruct (decide (v2 = 1%Z)) as [->|Hn2].
    + assert (H0 := Hsub 0%nat eq_refl). simpl in H0. injection H0 as ->.
      rewrite decide_True by reflexivity. simpl. lia.
    + destruct (decide (v1 = 1%Z)); simpl; lia.
Qed.

(** C8.  For a fixed image and fixed other parameters, and [0 <= s1 <= s2],
    the shaved object mask obtained with [shavePx = s2] is contained in the
    one obtained with [shavePx = s1], and it holds no more pixels. *)
Theorem shave_monotone (Math_sqrt : Q -> Q) (img : ImageData)
    (params : AlgorithmParams) (s1 s2 : Q) :
  0 <= s1 -> s1 <= s2 ->
  let m1 := shavedObj (pixelStages Math_sqrt img (with_shavePx s1 params)) in
  let m2 := shavedObj (pixelStages Math_sqrt img (with_shavePx s2 params)) in
  (forall i, m2 !! i = Some 1%Z -> m1 !! i = Some 1%Z)
  /\ (maskCount m2 <= maskCount m1)%nat.
Proof.
  intros H1 H12 m1 m2.
  assert (Hsub : forall i, m2 !! i = Some 1%Z -> m1 !! i = Some 1%Z).
  { unfold m1, m2, pixelStages; simpl.
    apply shave_subset; try assumption.
    - apply objectMaskOf_length.
    - apply objectMaskOf_bits. }
  split; [exact Hsub|].
  apply maskCount_mono; [|exact Hsub].
  unfold m1, m2. rewrite !length_shavedObj. reflexivity.
Qed.

Lemma shave_monotone_witness :
  0 <= 0 /\ 0 <= 1
  /\ (maskCount (shavedObj (pixelStages sqrtQ img4x4 (with_shavePx 1 sharpParams)))
      <= maskCount (shavedObj (pixelStages sqrtQ img4x4 (with_shavePx 0 sharpParams))))%nat.
Proof.
  assert (H1 : 0 <= 0) by lra.
  assert (H2 : 0 <= 1) by lra.
  split; [exact H1 | split; [exact H2 |]].
  exact (proj2 (shave_monotone sqrtQ img4x4 sharpParams 0 1 H1 H2)).
Defined.

Example shave_run :
  shavedObj (pixelStages sqrtQ img4x4 (with_shavePx 0 sharpParams))
  = [0; 0; 0; 0; 0; 1; 1; 0; 0; 1; 1; 0; 0; 0; 0; 0]%Z
  /\ shavedObj (pixelStages sqrtQ img4x4 (with_shavePx (1 # 2) sharpParams))
  = [0; 0; 0; 0; 0; 1; 1; 0; 0; 1; 1; 0; 0; 0; 0; 0]%Z
  /\ shavedObj (pixelStages sqrtQ img4x4 (with_shavePx 1 sharpParams))
  = [0; 0; 0; 0; 0; 0; 0; 0; 0; 0; 0; 0; 0; 0; 0; 0]%Z.
Proof. vm_compute. repeat split; reflexivity. Qed.


(** * Further properties *)

Local Close Scope Q_scope.
Local Open Scope nat_scope.

(** ** Loops with a counter *)

Lemma foldl_seq_from_inv {A} (P : nat -> A -> Prop) (f : A -> nat -> A) (s n : nat) (a : A) :
  P s a -> (forall i a, s <= i < s + n -> P i a -> P (S i) (f a i)) ->
  P (s + n) (foldl f a (seq s n)).
Proof.
  revert s a. induction n as [|n IH]; intros s a H0 Hstep; simpl.
  - rewrite Nat.add_0_r. exact H0.
  - replace (s + S n) with (S s + n) by lia. apply IH.
    + apply Hstep; [lia | exact H0].
    + intros i a' Hi. apply Hstep. lia.
Qed.

Lemma foldl_seq_inv {A} (P : nat -> A -> Prop) (f : A -> nat -> A) (n : nat) (a : A) :
  P 0 a -> (forall i a, i < n -> P i a -> P (S i) (f a i)) ->
  P n (foldl f a (seq 0 n)).
Proof.
  intros H0 Hstep. apply (foldl_seq_from_inv P f 0 n a H0).
  intros i a' Hi. apply Hstep. lia.
Qed.

Lemma foldl_rev_seq_inv {A} (P : nat -> A -> Prop) (f : A -> nat -> A) (n : nat) (a : A) :
  P n a -> (forall i a, i < n -> P (S i) a -> P i (f a i)) ->
  P 0 (foldl f a (rev (seq 0 n))).
Proof.
  revert a. induction n as [|n IH]; intros a Hn Hstep; [exact Hn|].
  rewrite seq_S, rev_app_distr. simpl. apply IH.
  - apply Hstep; [lia | exact Hn].
  - intros i a' Hi. apply Hstep. lia.
Qed.

(** ** The distance transform computes city-block distances *)

Section CityBlock.

Variables (mask : list Z) (width height : nat) (invert : bool).

(** What an iteration writes, and where. *)
Lemma relaxFwd_at (dist : list Z) (y x : nat) :
  zAt (relaxFwd width dist y x) (y * width + x) =
  let c := zAt dist (y * width + x) in
  let up := if 0 <? y then zAt dist ((y - 1) * width + x) else INF in
  let left := if 0 <? x then zAt dist (y * width + (x - 1)) else INF in
  if (0 <? c)%Z then Z.min (Z.min c (up + 1)) (left + 1) else c.
Proof.
  cbv zeta. unfold relaxFwd.
  destruct (dist !! (y * width + x)) as [d|] eqn:Hd.
  - assert (Hc : zAt dist (y * width + x) = d) by (unfold zAt; rewrite Hd; reflexivity).
    rewrite Hc. destruct (0 <? d)%Z; [|exact Hc].
    unfold zAt at 1.
    rewrite list_lookup_insert_eq by (eapply lookup_lt_Some; exact Hd). reflexivity.
  - assert (Hc : zAt dist (y * width + x) = 0%Z) by (unfold zAt; rewrite Hd; reflexivity).
    rewrite Hc. reflexivity.
Qed.

Lemma relaxFwd_other (dist : list Z) (y x i : nat) :
  i <> y * width + x -> zAt (relaxFwd width dist y x) i = zAt dist i.
Proof.
  intros Hne. unfold relaxFwd.
  destruct (dist !! (y * width + x)) as [d|]; [|reflexivity].
  destruct (0 <? d)%Z; [|reflexivity].
  unfold zAt. rewrite list_lookup_insert_ne by auto. reflexivity.
Qed.

Lemma relaxBwd_at (dist : list Z) (y x : nat) :
  zAt (relaxBwd width height dist y x) (y * width + x) =
  let c := zAt dist (y * width + x) in
  let down := if y <? height - 1 then zAt dist ((y + 1) * width + x) else INF in
  let right := if x <? width - 1 then zAt dist (y * width + (x + 1)) else INF in
  if (0 <? c)%Z then Z.min (Z.min c (down + 1)) (right + 1) else c.
Proof.
  cbv zeta. unfold relaxBwd.
  destruct (dist !! (y * width + x)) as [d|] eqn:Hd.
  - assert (Hc : zAt dist (y * width + x) = d) by (unfold zAt; rewrite Hd; reflexivity).
    rewrite Hc. destruct (0 <? d)%Z; [|exact Hc].
    unfold zAt at 1.
    rewrite list_lookup_insert_eq by (eapply lookup_lt_Some; exact Hd). reflexivity.
  - assert (Hc : zAt dist (y * width + x) = 0%Z) by (unfold zAt; rewrite Hd; reflexivity).
    rewrite Hc. reflexivity.
Qed.

Lemma relaxBwd_other (dist : list Z) (y x i : nat) :
  i <> y * width + x -> zAt (relaxBwd width height dist y x) i = zAt dist i.
Proof.
  intros Hne. unfold relaxBwd.
  destruct (dist !! (y * width + x)) as [d|]; [|reflexivity].
  destruct (0 <? d)%Z; [|reflexivity].
  unfold zAt. rewrite list_lookup_insert_ne by auto. reflexivity.
Qed.

(** The index of a pixel determines the pixel. *)
Lemma index_inj (y x y' x' : nat) :
  x < width -> x' < width -> y * width + x = y' * width + x' -> y = y' /\ x = x'.
Proof.
  intros Hx Hx' E.
  assert (y = y') by nia. subst y'. split; [reflexivity | lia].
Qed.

Lemma index_in_range (y x : nat) : y < height -> x < width -> y * width + x < width * height.
Proof. intros Hy Hx. nia. Qed.

(** A cell never grows. *)
Lemma relaxFwd_le (dist : list Z) (y x i : nat) :
  (zAt (relaxFwd width dist y x) i <= zAt dist i)%Z.
Proof.
  destruct (decide (i = y * width + x)) as [->|Hne].
  - rewrite relaxFwd_at. cbv zeta. destruct (0 <? _)%Z; lia.
  - rewrite relaxFwd_other by exact Hne. lia.
Qed.

Lemma relaxBwd_le (dist : list Z) (y x i : nat) :
  (zAt (relaxBwd width height dist y x) i <= zAt dist i)%Z.
Proof.
  destruct (decide (i = y * width + x)) as [->|Hne].
  - rewrite relaxBwd_at. cbv zeta. destruct (0 <? _)%Z; lia.
  - rewrite relaxBwd_other by exact Hne. lia.
Qed.

Local Abbreviation SeedsAtZero := (seedsAtZero mask width height invert).
Local Abbreviation NotBelowSeeds := (notBelowSeeds mask width height invert).
Local Abbreviation FwdDone := (fwdDone mask width height invert).
Local Abbreviation BwdDone := (bwdDone mask width height invert).
Local Abbreviation RowsDone := (rowsDone mask width height invert).

(** The initial field. *)
Lemma initDist_at (y x : nat) :
  y < height -> x < width ->
  zAt (initDist mask (width * height) invert) (y * width + x)
  = seed invert (mask !! (y * width + x)).
Proof.
  intros Hy Hx. unfold initDist. rewrite zAt_map_seq by (apply index_in_range; assumption).
  reflexivity.
Qed.

Lemma seed_values (v : option Z) : seed invert v = 0%Z \/ seed invert v = INF.
Proof.
  unfold seed. destruct invert, v as [m|]; auto.
  - destruct (m =? 0)%Z; auto.
  - destruct (m =? 1)%Z; auto.
Qed.

Lemma initDist_seedsAtZero : SeedsAtZero (initDist mask (width * height) invert).
Proof. intros sy sx Hy Hx Hs. rewrite initDist_at by assumption. exact Hs. Qed.

Lemma initDist_notBelowSeeds : NotBelowSeeds (initDist mask (width * height) invert).
Proof.
  intros y x Hy Hx. rewrite initDist_at by assumption.
  destruct (seed_values (mask !! (y * width + x))) as [E|E].
  - right. exists y, x. repeat split; try assumption.
    rewrite E. unfold cityBlock. lia.
  - left. rewrite E. lia.
Qed.

(** Seeds stay at 0. *)
Lemma relaxFwd_seedsAtZero (d : list Z) (y x : nat) :
  SeedsAtZero d -> SeedsAtZero (relaxFwd width d y x).
Proof.
  intros H sy sx Hy Hx Hs. specialize (H sy sx Hy Hx Hs).
  pose proof (relaxFwd_le d y x (sy * width + sx)) as Hle.
  destruct (decide (sy * width + sx = y * width + x)) as [E|Hne].
  - rewrite E in *. rewrite relaxFwd_at. cbv zeta. rewrite H. reflexivity.
  - rewrite relaxFwd_other by exact Hne. exact H.
Qed.

Lemma relaxBwd_seedsAtZero (d : list Z) (y x : nat) :
  SeedsAtZero d -> SeedsAtZero (relaxBwd width height d y x).
Proof.
  intros H sy sx Hy Hx Hs. specialize (H sy sx Hy Hx Hs).
  destruct (decide (sy * width + sx = y * width + x)) as [E|Hne].
  - rewrite E in *. rewrite relaxBwd_at. cbv zeta. rewrite H. reflexivity.
  - rewrite relaxBwd_other by exact Hne. exact H.
Qed.

(** No step takes a cell below the distance to the nearest seed. *)
Lemma relaxFwd_notBelowSeeds (d : list Z) (y x : nat) :
  y < height -> x < width -> NotBelowSeeds d -> NotBelowSeeds (relaxFwd width d y x).
Proof.
  intros Hy Hx H py px Hpy Hpx.
  destruct (decide (py * width + px = y * width + x)) as [E|Hne].
  2:{ rewrite relaxFwd_other by exact Hne. apply H; assumption. }
  destruct (index_inj _ _ _ _ Hpx Hx E) as [-> ->].
  rewrite relaxFwd_at. cbv zeta.
  destruct (0 <? zAt d (y * width + x))%Z; [|apply H; assumption].
  apply Z.min_case; [apply Z.min_case|].
  - apply H; assumption.
  - destruct (0 <? y) eqn:G; [|left; lia].
    apply Nat.ltb_lt in G.
    destruct (H (y - 1) x ltac:(lia) Hx) as [Hi|(sy & sx & Hsy & Hsx & Hs & Hd)]; [left; lia|].
    right. exists sy, sx. repeat split; try assumption. unfold cityBlock in *. lia.
  - destruct (0 <? x) eqn:G; [|left; lia].
    apply Nat.ltb_lt in G.
    destruct (H y (x - 1) Hy ltac:(lia)) as [Hi|(sy & sx & Hsy & Hsx & Hs & Hd)]; [left; lia|].
    right. exists sy, sx. repeat split; try assumption. unfold cityBlock in *. lia.
Qed.

Lemma relaxBwd_notBelowSeeds (d : list Z) (y x : nat) :
  y < height -> x < width -> NotBelowSeeds d -> NotBelowSeeds (relaxBwd width height d y x).
Proof.
  intros Hy Hx H py px Hpy Hpx.
  destruct (decide (py * width + px = y * width + x)) as [E|Hne].
  2:{ rewrite relaxBwd_other by exact Hne. apply H; assumption. }
  destruct (index_inj _ _ _ _ Hpx Hx E) as [-> ->].
  rewrite relaxBwd_at. cbv zeta.
  destruct (0 <? zAt d (y * width + x))%Z; [|apply H; assumption].
  apply Z.min_case; [apply Z.min_case|].
  - apply H; assumption.
  - destruct (y <? height - 1) eqn:G; [|left; lia].
    apply Nat.ltb_lt in G.
    destruct (H (y + 1) x ltac:(lia) Hx) as [Hi|(sy & sx & Hsy & Hsx & Hs & Hd)]; [left; lia|].
    right. exists sy, sx. repeat split; try assumption. unfold cityBlock in *. lia.
  - destruct (x <? width - 1) eqn:G; [|left; lia].
    apply Nat.ltb_lt in G.
    destruct (H y (x + 1) Hy ltac:(lia)) as [Hi|(sy & sx & Hsy & Hsx & Hs & Hd)]; [left; lia|].
    right. exists sy, sx. repeat split; try assumption. unfold cityBlock in *. lia.
Qed.

(** Pass 1, one cell further. *)
Lemma relaxFwd_fwdDone (d : list Z) (y x : nat) :
  y < height -> x < width -> SeedsAtZero d ->
  FwdDone y x d -> FwdDone y (S x) (relaxFwd width d y x).
Proof.
  intros Hy Hx HZ HF py px Hpy Hpx Hdone sy sx Hsy Hsx Hs.
  destruct (decide (py * width + px = y * width + x)) as [E|Hne].
  2:{ rewrite relaxFwd_other by exact Hne. apply HF; try assumption.
      destruct Hdone as [Hlt|[-> Hlt]]; [left; exact Hlt|].
      right. split; [reflexivity|].
      destruct (decide (px = x)) as [->|]; [contradiction Hne; reflexivity | lia]. }
  destruct (index_inj _ _ _ _ Hpx Hx E) as [-> ->].
  rewrite relaxFwd_at. cbv zeta.
  destruct (0 <? zAt d (y * width + x))%Z eqn:G.
  2:{ apply Z.ltb_ge in G. unfold cityBlock. lia. }
  apply Z.ltb_lt in G.
  destruct (decide (sy < y)) as [Hup|Hnup].
  - assert (Gy : (0 <? y) = true) by (apply Nat.ltb_lt; lia). rewrite Gy.
    pose proof (HF (y - 1) x ltac:(lia) Hx ltac:(left; lia) sy sx ltac:(lia) Hsx Hs) as Hb.
    unfold cityBlock in *. lia.
  - assert (sy = y) by lia. subst sy.
    destruct (decide (sx < x)) as [Hl|Hnl].
    + assert (Gx : (0 <? x) = true) by (apply Nat.ltb_lt; lia). rewrite Gx.
      pose proof (HF y (x - 1) Hy ltac:(lia) ltac:(right; lia) y sx ltac:(lia) ltac:(lia) Hs) as Hb.
      unfold cityBlock in *. lia.
    + assert (sx = x) by lia. subst sx.
      rewrite (HZ y x Hy Hx Hs) in G. lia.
Qed.

(** A bound on cells is kept when no cell grows. *)
Lemma fwdDone_le (Y X : nat) (d d' : list Z) :
  (forall i, (zAt d' i <= zAt d i)%Z) -> FwdDone Y X d -> FwdDone Y X d'.
Proof.
  intros Hle HF y x Hy Hx Hdone sy sx Hsy Hsx Hs.
  specialize (HF y x Hy Hx Hdone sy sx Hsy Hsx Hs).
  specialize (Hle (y * width + x)). lia.
Qed.

(** Pass 2, one cell further. *)
Lemma relaxBwd_bwdDone (d : list Z) (y x : nat) :
  y < height -> x < width -> FwdDone height 0 d ->
  BwdDone y (S x) d -> BwdDone y x (relaxBwd width height d y x).
Proof.
  intros Hy Hx HF HB py px Hpy Hpx Hdone sy sx Hsy Hsx Hs.
  destruct (decide (py * width + px = y * width + x)) as [E|Hne].
  2:{ rewrite relaxBwd_other by exact Hne. apply HB; try assumption.
      destruct Hdone as [Hlt|[-> Hlt]]; [left; exact Hlt|].
      right. split; [reflexivity|].
      destruct (decide (px = x)) as [->|]; [contradiction Hne; reflexivity | lia]. }
  destruct (index_inj _ _ _ _ Hpx Hx E) as [-> ->].
  rewrite relaxBwd_at. cbv zeta.
  destruct (0 <? zAt d (y * width + x))%Z eqn:G.
  2:{ apply Z.ltb_ge in G. unfold cityBlock. lia. }
  apply Z.ltb_lt in G.
  destruct (decide (y < sy)) as [Hdown|Hndown].
  - assert (Gy : (y <? height - 1) = true) by (apply Nat.ltb_lt; lia). rewrite Gy.
    pose proof (HB (y + 1) x ltac:(lia) Hx ltac:(left; lia) sy sx Hsy Hsx Hs) as Hb.
    unfold cityBlock in *. lia.
  - destruct (decide (x < sx)) as [Hr|Hnr].
    + assert (Gx : (x <? width - 1) = true) by (apply Nat.ltb_lt; lia). rewrite Gx.
      pose proof (HB y (x + 1) Hy ltac:(lia) ltac:(right; lia) sy sx Hsy Hsx Hs) as Hb.
      unfold cityBlock in *. lia.
    + pose proof (HF y x Hy Hx ltac:(left; lia) sy sx ltac:(lia) ltac:(lia) Hs) as Hb.
      lia.
Qed.

(** The two passes. *)
Lemma pass1_inv (d : list Z) :
  SeedsAtZero d -> NotBelowSeeds d ->
  SeedsAtZero (pass1 width height d) /\ NotBelowSeeds (pass1 width height d)
  /\ FwdDone height 0 (pass1 width height d).
Proof.
  intros HZ HN. unfold pass1.
  apply (foldl_seq_inv (fun Y d => SeedsAtZero d /\ NotBelowSeeds d /\ FwdDone Y 0 d)).
  - split; [exact HZ | split; [exact HN|]].
    intros y x _ _ [Hlt|[_ Hlt]]; lia.
  - intros Y d0 HY (HZ0 & HN0 & HF0).
    assert (Hrow : SeedsAtZero (foldl (fun d x => relaxFwd width d Y x) d0 (seq 0 width))
                   /\ NotBelowSeeds (foldl (fun d x => relaxFwd width d Y x) d0 (seq 0 width))
                   /\ FwdDone Y width (foldl (fun d x => relaxFwd width d Y x) d0 (seq 0 width))).
    { apply (foldl_seq_inv (fun X d => SeedsAtZero d /\ NotBelowSeeds d /\ FwdDone Y X d)).
      - auto.
      - intros X d1 HX (HZ1 & HN1 & HF1).
        split; [apply relaxFwd_seedsAtZero; exact HZ1|].
        split; [apply relaxFwd_notBelowSeeds; assumption|].
        apply relaxFwd_fwdDone; assumption. }
    destruct Hrow as (HZr & HNr & HFr).
    split; [exact HZr | split; [exact HNr|]].
    intros y x Hy Hx Hdone. apply HFr; try assumption.
    destruct Hdone as [Hlt|[_ Hlt]]; lia.
Qed.

Lemma pass2_inv (d : list Z) :
  NotBelowSeeds d -> FwdDone height 0 d ->
  NotBelowSeeds (pass2 width height d) /\ RowsDone 0 (pass2 width height d).
Proof.
  intros HN HF. unfold pass2.
  assert (H : NotBelowSeeds
                (foldl (fun d y => foldl (fun d x => relaxBwd width height d y x) d
                                         (rev (seq 0 width))) d (rev (seq 0 height)))
              /\ FwdDone height 0
                (foldl (fun d y => foldl (fun d x => relaxBwd width height d y x) d
                                         (rev (seq 0 width))) d (rev (seq 0 height)))
              /\ RowsDone 0
                (foldl (fun d y => foldl (fun d x => relaxBwd width height d y x) d
                                         (rev (seq 0 width))) d (rev (seq 0 height)))).
  { apply (foldl_rev_seq_inv
             (fun Y d => NotBelowSeeds d /\ FwdDone height 0 d /\ RowsDone Y d)).
    - split; [exact HN | split; [exact HF|]].
      intros y x Hy _ HY. lia.
    - intros Y d0 HY (HN0 & HF0 & HR0).
      assert (Hrow : NotBelowSeeds
                       (foldl (fun d x => relaxBwd width height d Y x) d0 (rev (seq 0 width)))
                     /\ FwdDone height 0
                       (foldl (fun d x => relaxBwd width height d Y x) d0 (rev (seq 0 width)))
                     /\ BwdDone Y 0
                       (foldl (fun d x => relaxBwd width height d Y x) d0 (rev (seq 0 width)))).
      { apply (foldl_rev_seq_inv
                 (fun X d => NotBelowSeeds d /\ FwdDone height 0 d /\ BwdDone Y X d)).
        - split; [exact HN0 | split; [exact HF0|]].
          intros y x Hy Hx Hdone. apply HR0; try assumption.
          destruct Hdone as [Hlt|[_ Hlt]]; lia.
        - intros X d1 HX (HN1 & HF1 & HB1).
          split; [apply relaxBwd_notBelowSeeds; assumption|].
          split; [apply (fwdDone_le _ _ d1); [intros i; apply relaxBwd_le | exact HF1]|].
          apply relaxBwd_bwdDone; assumption. }
      destruct Hrow as (HNr & HFr & HBr).
      split; [exact HNr | split; [exact HFr|]].
      intros y x Hy Hx Hge. apply HBr; try assumption.
      destruct (decide (Y < y)); [left; assumption | right; lia]. }
  destruct H as (H1 & _ & H3). split; assumption.
Qed.

Lemma computeDistanceMap_inv :
  NotBelowSeeds (computeDistanceMap mask width height invert)
  /\ RowsDone 0 (computeDistanceMap mask width height invert).
Proof.
  unfold computeDistanceMap.
  destruct (pass1_inv _ initDist_seedsAtZero initDist_notBelowSeeds) as (_ & HN & HF).
  apply pass2_inv; assumption.
Qed.

End CityBlock.

(** X1.  [computeDistanceMap] returns, at every pixel, the city-block
    distance to the nearest seed (a pixel whose cell starts at 0: a mask-0
    pixel when [invert] is true, a mask-1 pixel otherwise), capped at INF:
    the value is at most INF and at most the distance to every seed, and it
    is INF or the distance to some seed. *)
Theorem computeDistanceMap_cityBlock (mask : list Z) (width height : nat) (invert : bool)
    (y x : nat) :
  y < height -> x < width ->
  let d := zAt (computeDistanceMap mask width height invert) (y * width + x) in
  (d <= INF)%Z
  /\ (forall sy sx, sy < height -> sx < width -> isSeed mask width invert sy sx ->
        (d <= cityBlock y x sy sx)%Z)
  /\ (d = INF
      \/ exists sy sx, sy < height /\ sx < width /\ isSeed mask width invert sy sx
                       /\ d = cityBlock y x sy sx).
Proof.
  intros Hy Hx d.
  destruct (computeDistanceMap_inv mask width height invert) as [HN HR].
  assert (Hub : forall sy sx, sy < height -> sx < width -> isSeed mask width invert sy sx ->
                  (d <= cityBlock y x sy sx)%Z).
  { intros sy sx Hsy Hsx Hs. apply (HR y x Hy Hx ltac:(lia) sy sx Hsy Hsx Hs). }
  assert (Hinf : (d <= INF)%Z).
  { apply (zAt_inRange _ (y * width + x) (computeDistanceMap_inRange width height mask invert)). }
  split; [exact Hinf | split; [exact Hub|]].
  destruct (HN y x Hy Hx) as [Hi|(sy & sx & Hsy & Hsx & Hs & Hd)].
  - left. fold d in Hi. lia.
  - right. exists sy, sx. repeat split; try assumption.
    specialize (Hub sy sx Hsy Hsx Hs). fold d in Hd. lia.
Qed.

Lemma computeDistanceMap_cityBlock_witness :
  2 < 3 /\ 2 < 3
  /\ (zAt (computeDistanceMap [1; 1; 1; 1; 1; 1; 0; 1; 1]%Z 3 3 true) (2 * 3 + 2)
      <= cityBlock 2 2 2 0)%Z.
Proof.
  assert (H1 : 2 < 3) by lia.
  split; [exact H1 | split; [exact H1 |]].
  apply (proj1 (proj2 (computeDistanceMap_cityBlock [1; 1; 1; 1; 1; 1; 0; 1; 1]%Z 3 3 true
                         2 2 H1 H1)) 2 0); [lia | lia | reflexivity].
Defined.

(** The three parts of the characterisation, for the results below. *)
Lemma distance_le_INF (mask : list Z) (width height : nat) (invert : bool) (i : nat) :
  (0 <= zAt (computeDistanceMap mask width height invert) i <= INF)%Z.
Proof. apply zAt_inRange, computeDistanceMap_inRange. Qed.

Lemma distance_le_seed (mask : list Z) (width height : nat) (invert : bool)
    (y x sy sx : nat) :
  y < height -> x < width -> sy < height -> sx < width ->
  isSeed mask width invert sy sx ->
  (zAt (computeDistanceMap mask width height invert) (y * width + x)
   <= cityBlock y x sy sx)%Z.
Proof.
  intros Hy Hx Hsy Hsx Hs.
  apply (proj2 (computeDistanceMap_inv mask width height invert) y x Hy Hx ltac:(lia)
           sy sx Hsy Hsx Hs).
Qed.

Lemma distance_attained (mask : list Z) (width height : nat) (invert : bool) (y x : nat) :
  y < height -> x < width ->
  zAt (computeDistanceMap mask width height invert) (y * width + x) = INF
  \/ exists sy sx, sy < height /\ sx < width /\ isSeed mask width invert sy sx
                   /\ zAt (computeDistanceMap mask width height invert) (y * width + x)
                      = cityBlock y x sy sx.
Proof.
  intros Hy Hx.
  pose proof (distance_le_INF mask width height invert (y * width + x)) as Hr.
  destruct (proj1 (computeDistanceMap_inv mask width height invert) y x Hy Hx)
    as [Hi|(sy & sx & Hsy & Hsx & Hs & Hd)].
  - left. lia.
  - right. exists sy, sx. repeat split; try assumption.
    pose proof (distance_le_seed mask width height invert y x sy sx Hy Hx Hsy Hsx Hs). lia.
Qed.

Lemma distance_triangle (mask : list Z) (width height : nat) (invert : bool)
    (y x y' x' : nat) :
  y < height -> x < width -> y' < height -> x' < width ->
  (zAt (computeDistanceMap mask width height invert) (y * width + x)
   <= zAt (computeDistanceMap mask width height invert) (y' * width + x')
      + cityBlock y x y' x')%Z.
Proof.
  intros Ha Hb Ha' Hb'.
  pose proof (distance_le_INF mask width height invert (y * width + x)) as Hr.
  destruct (distance_attained mask width height invert y' x' Ha' Hb')
    as [Hi|(sy & sx & Hsy & Hsx & Hs & Hd)].
  - rewrite Hi. unfold cityBlock. lia.
  - pose proof (distance_le_seed mask width height invert y x sy sx Ha Hb Hsy Hsx Hs) as Hub.
    rewrite Hd. unfold cityBlock in *. lia.
Qed.

(** X2.  The distance field has no jumps: the values at two pixels differ by
    at most the city-block distance between the pixels, so by at most 1
    between neighbours. *)
Theorem computeDistanceMap_lipschitz (mask : list Z) (width height : nat) (invert : bool)
    (y x y' x' : nat) :
  y < height -> x < width -> y' < height -> x' < width ->
  (Z.abs (zAt (computeDistanceMap mask width height invert) (y * width + x)
          - zAt (computeDistanceMap mask width height invert) (y' * width + x'))
   <= cityBlock y x y' x')%Z.
Proof.
  intros Hy Hx Hy' Hx'.
  pose proof (distance_triangle mask width height invert y x y' x' Hy Hx Hy' Hx').
  pose proof (distance_triangle mask width height invert y' x' y x Hy' Hx' Hy Hx).
  unfold cityBlock in *. lia.
Qed.

Lemma computeDistanceMap_lipschitz_witness :
  1 < 3 /\ 1 < 3 /\ 1 < 3 /\ 2 < 3
  /\ (Z.abs (zAt (computeDistanceMap [1; 1; 1; 1; 1; 1; 0; 1; 1]%Z 3 3 true) (1 * 3 + 1)
             - zAt (computeDistanceMap [1; 1; 1; 1; 1; 1; 0; 1; 1]%Z 3 3 true) (1 * 3 + 2))
      <= cityBlock 1 1 1 2)%Z.
Proof.
  assert (H1 : 1 < 3) by lia. assert (H2 : 2 < 3) by lia.
  split; [exact H1 | split; [exact H1 | split; [exact H1 | split; [exact H2 |]]]].
  exact (computeDistanceMap_lipschitz [1; 1; 1; 1; 1; 1; 0; 1; 1]%Z 3 3 true 1 1 1 2
           H1 H1 H1 H2).
Defined.

(** ** Shave and feather, by distances *)

Local Open Scope Q_scope.

Lemma isSeed_invert_zAt (mask : list Z) (width sy sx : nat) :
  (sy * width + sx < length mask)%nat ->
  (isSeed mask width true sy sx <-> zAt mask (sy * width + sx) = 0%Z).
Proof.
  intros Hlen. unfold isSeed, seed, zAt.
  destruct (mask !! (sy * width + sx)%nat) as [v|] eqn:Hv; simpl.
  - destruct (v =? 0)%Z eqn:E.
    + apply Z.eqb_eq in E. tauto.
    + apply Z.eqb_neq in E. unfold INF. split; intros H; [discriminate H | contradiction].
  - apply lookup_ge_None in Hv. lia.
Qed.

(** The cell of the shaved mask, when [shavePx > 0]. *)
Lemma shave_at (om : list Z) (w h : nat) (s : Q) (i : nat) :
  0 < s -> (i < w * h)%nat ->
  (zAt (shave om w h s) i = 1%Z <-> s < inject_Z (zAt (computeDistanceMap om w h true) i)).
Proof.
  intros Hs Hi. unfold shave. apply Qltb_lt in Hs. rewrite Hs.
  rewrite zAt_map_seq by exact Hi.
  destruct (Qltb s (inject_Z (zAt (computeDistanceMap om w h true) i))) eqn:E.
  - apply Qltb_lt in E. tauto.
  - apply Qltb_ge in E. split; [discriminate | intros H; exfalso; lra].
Qed.

(** X3.  Shave is an erosion by a city-block ball: with [shavePx > 0], a
    pixel is in the shaved object mask exactly when [shavePx < 1e6] and every
    pixel outside the object mask is farther than [shavePx] from it.  Only
    pixels of the image count: the image border erodes nothing. *)
Theorem shave_is_erosion (Math_sqrt : Q -> Q) (img : ImageData)
    (params : AlgorithmParams) (y x : nat) :
  0 < shavePx params -> (y < height img)%nat -> (x < width img)%nat ->
  let b := pixelStages Math_sqrt img params in
  zAt (shavedObj b) (y * width img + x) = 1%Z
  <-> (shavePx params < inject_Z INF
       /\ forall sy sx, (sy < height img)%nat -> (sx < width img)%nat ->
            zAt (objectMask b) (sy * width img + sx) = 0%Z ->
            shavePx params < inject_Z (cityBlock y x sy sx)).
Proof.
  intros Hs Hy Hx b.
  assert (Hi : (y * width img + x < width img * height img)%nat)
    by (apply index_in_range; assumption).
  assert (Hsh : shavedObj b = shave (objectMask b) (width img) (height img) (shavePx params))
    by reflexivity.
  rewrite Hsh, (shave_at _ _ _ _ _ Hs Hi).
  assert (Hseed : forall sy sx, (sy < height img)%nat -> (sx < width img)%nat ->
            (isSeed (objectMask b) (width img) true sy sx
             <-> zAt (objectMask b) (sy * width img + sx) = 0%Z)).
  { intros sy sx Hsy Hsx. apply isSeed_invert_zAt.
    unfold b. rewrite length_objectMask. apply index_in_range; assumption. }
  split.
  - intros Hd. split.
    + pose proof (distance_le_INF (objectMask b) (width img) (height img) true
                    (y * width img + x)) as [_ Hr].
      rewrite Zle_Qle in Hr. lra.
    + intros sy sx Hsy Hsx Hz. apply Hseed in Hz; [|assumption|assumption].
      pose proof (distance_le_seed _ _ _ _ y x sy sx Hy Hx Hsy Hsx Hz) as Hub.
      rewrite Zle_Qle in Hub. lra.
  - intros [Hinf Hall].
    destruct (distance_attained (objectMask b) (width img) (height img) true y x Hy Hx)
      as [E|(sy & sx & Hsy & Hsx & Hseed' & E)]; rewrite E.
    + exact Hinf.
    + apply Hall; try assumption. apply Hseed; assumption.
Qed.

Lemma shave_is_erosion_witness :
  0 < shavePx (with_shavePx (1 # 2) sharpParams)
  /\ (1 < height img4x4)%nat /\ (1 < width img4x4)%nat
  /\ (zAt (shavedObj (pixelStages sqrtQ img4x4 (with_shavePx (1 # 2) sharpParams)))
          (1 * width img4x4 + 1) = 1%Z
      <-> (shavePx (with_shavePx (1 # 2) sharpParams) < inject_Z INF
           /\ forall sy sx, (sy < height img4x4)%nat -> (sx < width img4x4)%nat ->
                zAt (objectMask (pixelStages sqrtQ img4x4 (with_shavePx (1 # 2) sharpParams)))
                    (sy * width img4x4 + sx) = 0%Z ->
                shavePx (with_shavePx (1 # 2) sharpParams) < inject_Z (cityBlock 1 1 sy sx))).
Proof.
  assert (H1 : 0 < shavePx (with_shavePx (1 # 2) sharpParams)) by (simpl; lra).
  assert (H2 : (1 < height img4x4)%nat) by (simpl; lia).
  assert (H3 : (1 < width img4x4)%nat) by (simpl; lia).
  split; [exact H1 | split; [exact H2 | split; [exact H3 |]]].
  exact (shave_is_erosion sqrtQ img4x4 (with_shavePx (1 # 2) sharpParams) 1 1 H1 H2 H3).
Defined.

(** X4.  An image that is object everywhere is not shaved: with
    [0 < shavePx < 1e6] every pixel stays in the shaved mask. *)
Theorem shave_all_object (Math_sqrt : Q -> Q) (img : ImageData)
    (params : AlgorithmParams) :
  0 < shavePx params -> shavePx params < inject_Z INF ->
  (forall i, (i < width img * height img)%nat ->
             zAt (objectMask (pixelStages Math_sqrt img params)) i = 1%Z) ->
  forall y x, (y < height img)%nat -> (x < width img)%nat ->
    zAt (shavedObj (pixelStages Math_sqrt img params)) (y * width img + x) = 1%Z.
Proof.
  intros Hs Hinf Hall y x Hy Hx.
  assert (Hi : (y * width img + x < width img * height img)%nat)
    by (apply index_in_range; assumption).
  assert (Hsh : shavedObj (pixelStages Math_sqrt img params)
                = shave (objectMask (pixelStages Math_sqrt img params))
                        (width img) (height img) (shavePx params)) by reflexivity.
  rewrite Hsh. apply (shave_at _ _ _ _ _ Hs Hi).
  destruct (distance_attained (objectMask (pixelStages Math_sqrt img params))
              (width img) (height img) true y x Hy Hx)
    as [E|(sy & sx & Hsy & Hsx & Hseed & E)]; rewrite E; [exact Hinf|].
  exfalso. apply isSeed_invert_zAt in Hseed.
  - rewrite Hall in Hseed by (apply index_in_range; assumption). discriminate Hseed.
  - rewrite length_objectMask. apply index_in_range; assumption.
Qed.

Lemma shave_all_object_witness :
  0 < shavePx (with_shavePx 1 allObjectParams)
  /\ shavePx (with_shavePx 1 allObjectParams) < inject_Z INF
  /\ zAt (shavedObj (pixelStages sqrtQ img4x4 (with_shavePx 1 allObjectParams)))
         (0 * width img4x4 + 0) = 1%Z.
Proof.
  assert (H1 : 0 < shavePx (with_shavePx 1 allObjectParams)) by (simpl; lra).
  assert (H2 : shavePx (with_shavePx 1 allObjectParams) < inject_Z INF)
    by (vm_compute; reflexivity).
  assert (H3 : forall i, (i < width img4x4 * height img4x4)%nat ->
            zAt (objectMask (pixelStages sqrtQ img4x4 (with_shavePx 1 allObjectParams))) i
            = 1%Z).
  { intros i Hi.
    do 16 (destruct i as [|i]; [vm_compute; reflexivity|]). simpl in Hi. lia. }
  split; [exact H1 | split; [exact H2 |]].
  apply (shave_all_object sqrtQ img4x4 (with_shavePx 1 allObjectParams) H1 H2 H3 0%nat 0%nat);
    simpl; lia.
Defined.

(** The feather value moves with the distance, by at most [k / F]. *)
Lemma featherVal_step (d1 d2 k : Z) (F : Q) :
  0 < F -> (0 <= k)%Z -> (d1 <= d2 + k)%Z ->
  featherVal d1 F <= featherVal d2 F + inject_Z k / F.
Proof.
  intros HF Hk Hd. unfold featherVal.
  assert (HinvF : 0 <= / F) by (apply Qinv_le_0_compat; lra).
  assert (H : inject_Z d1 / F <= inject_Z d2 / F + inject_Z k / F).
  { rewrite Zle_Qle, inject_Z_plus in Hd.
    apply (Qmult_le_compat_r _ _ (/ F)) in Hd; [|exact HinvF].
    unfold Qdiv. lra. }
  assert (HK : 0 <= inject_Z k / F).
  { unfold Qdiv. apply Qmult_le_0_compat; [|exact HinvF].
    change 0 with (inject_Z 0). rewrite <- Zle_Qle. exact Hk. }
  set (a1 := inject_Z d1 / F) in *. set (a2 := inject_Z d2 / F) in *.
  set (K := inject_Z k / F) in *.
  destruct (Qltb 1 a1) eqn:E1; destruct (Qltb 1 a2) eqn:E2;
    try apply Qltb_lt in E1; try apply Qltb_ge in E1;
    try apply Qltb_lt in E2; try apply Qltb_ge in E2.
  - simpl. lra.
  - assert (G : Qltb 1 0 = false) by reflexivity. rewrite G.
    destruct (Qltb a2 0) eqn:E3; [apply Qltb_lt in E3 | apply Qltb_ge in E3]; lra.
  - assert (G : Qltb 1 0 = false) by reflexivity. rewrite G.
    destruct (Qltb a1 0) eqn:E3; [apply Qltb_lt in E3 | apply Qltb_ge in E3]; lra.
  - destruct (Qltb a1 0) eqn:E3; [apply Qltb_lt in E3 | apply Qltb_ge in E3];
    destruct (Qltb a2 0) eqn:E4; try apply Qltb_lt in E4; try apply Qltb_ge in E4; lra.
Qed.

Lemma zAt_objectFeather (Math_sqrt : Q -> Q) (img : ImageData) (params : AlgorithmParams)
    (i : nat) :
  0 < featherWidth params -> (i < width img * height img)%nat ->
  qAt (objectFeather (pixelStages Math_sqrt img params)) i
  = featherVal (zAt (computeDistanceMap (shavedObj (pixelStages Math_sqrt img params))
                                        (width img) (height img) true) i)
               (featherWidth params).
Proof.
  intros HF Hi. unfold pixelStages at 1, feather; simpl.
  apply Qltb_lt in HF. rewrite HF. rewrite qAt_map_seq by exact Hi. reflexivity.
Qed.

(** The same for values stored within 5e-7 of the feather values, as the
    single-precision cells of [objectFeather] are (within 6e-8): they move by
    at most [k / F] plus 1e-6. *)
Lemma featherVal_stored_step (d1 d2 k : Z) (F v1 v2 : Q) :
  0 < F -> (0 <= k)%Z -> (Z.abs (d1 - d2) <= k)%Z ->
  Qabs (v1 - featherVal d1 F) <= 1 # 2000000 ->
  Qabs (v2 - featherVal d2 F) <= 1 # 2000000 ->
  Qabs (v1 - v2) <= inject_Z k / F + (1 # 1000000).
Proof.
  intros HF Hk Hd H1 H2.
  pose proof (featherVal_step d1 d2 k F HF Hk ltac:(lia)) as G1.
  pose proof (featherVal_step d2 d1 k F HF Hk ltac:(lia)) as G2.
  apply Qabs_Qle_condition in H1. apply Qabs_Qle_condition in H2.
  apply Qabs_Qle_condition. split; lra.
Qed.

(** X5.  The feather ramp is smooth: with [featherWidth = F > 0], the
    feather values of two pixels differ by at most their city-block distance
    divided by [F], so by at most [1 / F] between neighbours, up to 1e-6.
    The margin covers the rounding of the quotient and of its store in the
    [Float32Array], each below 6e-8 on values of [0, 1]
    ([featherVal_stored_step]); the distances themselves are integers. *)
Theorem feather_smooth (Math_sqrt : Q -> Q) (img : ImageData)
    (params : AlgorithmParams) (y x y' x' : nat) :
  0 < featherWidth params ->
  (y < height img)%nat -> (x < width img)%nat ->
  (y' < height img)%nat -> (x' < width img)%nat ->
  let b := pixelStages Math_sqrt img params in
  Qabs (qAt (objectFeather b) (y * width img + x)
        - qAt (objectFeather b) (y' * width img + x'))
  <= inject_Z (cityBlock y x y' x') / featherWidth params + (1 # 1000000).
Proof.
  intros HF Hy Hx Hy' Hx' b.
  unfold b.
  rewrite !zAt_objectFeather by (try exact HF; apply index_in_range; assumption).
  fold b.
  assert (Hk : (0 <= cityBlock y x y' x')%Z) by (unfold cityBlock; lia).
  assert (Hsym : cityBlock y' x' y x = cityBlock y x y' x') by (unfold cityBlock; lia).
  pose proof (distance_triangle (shavedObj b) (width img) (height img) true
                y x y' x' Hy Hx Hy' Hx') as H1.
  pose proof (distance_triangle (shavedObj b) (width img) (height img) true
                y' x' y x Hy' Hx' Hy Hx) as H2.
  rewrite Hsym in H2.
  pose proof (featherVal_step _ _ _ _ HF Hk H1) as G1.
  pose proof (featherVal_step _ _ _ _ HF Hk H2) as G2.
  apply Qabs_Qle_condition. split; lra.
Qed.

Lemma feather_smooth_witness :
  0 < featherWidth featherParams
  /\ (1 < height img4x4)%nat /\ (1 < width img4x4)%nat
  /\ (1 < height img4x4)%nat /\ (0 < width img4x4)%nat
  /\ Qabs (qAt (objectFeather (pixelStages sqrtQ img4x4 featherParams)) (1 * width img4x4 + 1)
           - qAt (objectFeather (pixelStages sqrtQ img4x4 featherParams)) (1 * width img4x4 + 0))
     <= inject_Z (cityBlock 1 1 1 0) / featherWidth featherParams + (1 # 1000000).
Proof.
  assert (H0 : 0 < featherWidth featherParams) by (simpl; lra).
  assert (H1 : (1 < height img4x4)%nat) by (simpl; lia).
  assert (H2 : (1 < width img4x4)%nat) by (simpl; lia).
  assert (H3 : (0 < width img4x4)%nat) by (simpl; lia).
  split; [exact H0 | split; [exact H1 | split; [exact H2 | split; [exact H1 | split; [exact H3 |]]]]].
  exact (feather_smooth sqrtQ img4x4 featherParams 1 1 1 0 H0 H1 H2 H1 H3).
Defined.

(** ** The alpha shaper, by zones *)

Lemma foldmax_ge_init (l : list Q) (m : Q) :
  m <= foldl (fun maxDist d => if Qltb maxDist d then d else maxDist) m l.
Proof.
  revert m. induction l as [|d l IH]; intros m; simpl; [lra|].
  destruct (Qltb m d) eqn:E.
  - apply Qltb_lt in E. specialize (IH d). lra.
  - apply IH.
Qed.

Lemma foldmax_ge_elem (l : list Q) (m d : Q) :
  In d l -> d <= foldl (fun maxDist d => if Qltb maxDist d then d else maxDist) m l.
Proof.
  revert m. induction l as [|e l IH]; intros m Hin; simpl; [contradiction Hin|].
  destruct Hin as [->|Hin]; [|apply IH; exact Hin].
  destruct (Qltb m d) eqn:E.
  - apply foldmax_ge_init.
  - apply Qltb_ge in E. pose proof (foldmax_ge_init l m). lra.
Qed.

(** In exact arithmetic [maxDist] bounds every distance of the image. *)
Lemma dists_le_maxDist (Math_sqrt : Q -> Q) (img : ImageData) (params : AlgorithmParams)
    (i : nat) :
  qAt (dists (pixelStages Math_sqrt img params)) i
  <= maxDist (pixelStages Math_sqrt img params).
Proof.
  unfold qAt.
  destruct (dists (pixelStages Math_sqrt img params) !! i) as [d|] eqn:Hd; simpl.
  - apply foldmax_ge_elem. apply list_elem_of_In. eapply list_elem_of_lookup_2. exact Hd.
  - apply maxDistOf_nonneg.
Qed.

(** In exact arithmetic the normalised distance is below 1.  The store of
    a distance in the [Float32Array] can lift it above [maxDist + 1e-6], by
    less than 1e-7 of its value: the properties below that rest on this
    bound keep a margin that covers it. *)
Lemma distNorm_lt_1 (Math_sqrt : Q -> Q) (img : ImageData) (params : AlgorithmParams)
    (i : nat) :
  qAt (dists (pixelStages Math_sqrt img params)) i
  / (maxDist (pixelStages Math_sqrt img params) + EPS) < 1.
Proof.
  pose proof (dists_le_maxDist Math_sqrt img params i) as Hle.
  pose proof (maxDistOf_nonneg (dists (pixelStages Math_sqrt img params))) as H0.
  change (maxDistOf (dists (pixelStages Math_sqrt img params)))
    with (maxDist (pixelStages Math_sqrt img params)) in H0.
  apply Qlt_shift_div_r; unfold EPS in *; lra.
Qed.

Lemma alphaZone_cases (dn o c : Q) :
  (alphaZone dn o c = ZoneBackground /\ dn <= o)
  \/ (alphaZone dn o c = ZoneOpaque /\ o < dn /\ c < dn)
  \/ (alphaZone dn o c = ZoneFade /\ o < dn /\ dn <= c).
Proof.
  unfold alphaZone.
  destruct (Qle_bool dn o) eqn:E1.
  - left. apply Qle_bool_iff in E1. auto.
  - apply Qle_bool_gt in E1. right.
    destruct (Qltb c dn) eqn:E2.
    + apply Qltb_lt in E2. left. auto.
    + apply Qltb_ge in E2. right. auto.
Qed.

Lemma toUint8_byte (z : Z) : (0 <= z <= 255)%Z -> toUint8 (inject_Z z) = z.
Proof.
  intros Hz. unfold toUint8, Qtrunc.
  assert (E : Qle_bool 0 (inject_Z z) = true).
  { apply Qle_bool_iff. change 0 with (inject_Z 0). rewrite <- Zle_Qle. lia. }
  rewrite E, Qfloor_Z. apply Z.mod_small. lia.
Qed.

(** The fade: strictly between 0 and 1 inside the zone, and growing with the
    normalised distance. *)
Lemma fade_range (dn o c : Q) :
  o < dn -> dn <= c -> 0 < (dn - o) / (c - o) /\ (dn - o) / (c - o) <= 1.
Proof.
  intros H1 H2. split.
  - apply Qlt_shift_div_l; lra.
  - apply Qle_shift_div_r; lra.
Qed.

Lemma fade_mono (dn1 dn2 o c : Q) :
  o < c -> dn1 <= dn2 -> (dn1 - o) / (c - o) <= (dn2 - o) / (c - o).
Proof.
  intros Hoc H. unfold Qdiv. apply Qmult_le_compat_r; [lra|].
  apply Qinv_le_0_compat. lra.
Qed.

Lemma floor255_range (f : Q) : 0 <= f -> f <= 1 -> (0 <= Qfloor (255 * f) <= 255)%Z.
Proof.
  intros H0 H1. split.
  - assert (H : (Qfloor 0 <= Qfloor (255 * f))%Z) by (apply Qfloor_resp_le; lra).
    exact H.
  - assert (H : (Qfloor (255 * f) <= Qfloor 255)%Z) by (apply Qfloor_resp_le; lra).
    exact H.
Qed.

(** The raw alpha of a pixel in the fade zone. *)
Lemma rawAlphaOf_fade (dn o c : Q) :
  o < dn -> dn <= c ->
  rawAlphaOf dn o c = Qfloor (255 * ((dn - o) / (c - o))).
Proof.
  intros H1 H2. unfold rawAlphaOf.
  destruct (alphaZone_cases dn o c) as [[_ H]|[[_ [_ H]]|[E _]]]; try lra.
  rewrite E. cbv zeta. apply toUint8_byte.
  destruct (fade_range dn o c H1 H2). apply floor255_range; lra.
Qed.

Lemma rawAlphaOf_range (dn o c : Q) : (0 <= rawAlphaOf dn o c <= 255)%Z.
Proof.
  unfold rawAlphaOf. destruct (alphaZone dn o c); try lia. apply toUint8_range.
Qed.

(** X6.  Raw alpha grows with the distance to the key colour: a pixel at
    least as far from the key as another has at least its raw alpha, for
    every parameter set. *)
Theorem rawAlpha_monotone (Math_sqrt : Q -> Q) (img : ImageData)
    (params : AlgorithmParams) (i j : nat) :
  (i < width img * height img)%nat -> (j < width img * height img)%nat ->
  let b := pixelStages Math_sqrt img params in
  qAt (dists b) i <= qAt (dists b) j ->
  (zAt (alphaRaw b) i <= zAt (alphaRaw b) j)%Z.
Proof.
  intros Hi Hj b Hd. unfold b.
  rewrite !zAt_alphaRaw by assumption. fold b.
  set (o := opaqueDistNormOf (colorTolerance params)).
  set (c := clearDistNormOf (colorTolerance params) (fadeStrength params)).
  assert (Hpos : 0 < maxDist b + EPS).
  { pose proof (maxDistOf_nonneg (dists b)) as H0.
    change (maxDistOf (dists b)) with (maxDist b) in H0. unfold EPS. lra. }
  assert (Hdn : qAt (dists b) i / (maxDist b + EPS) <= qAt (dists b) j / (maxDist b + EPS)).
  { unfold Qdiv. apply Qmult_le_compat_r; [exact Hd|]. apply Qinv_le_0_compat. lra. }
  set (dn1 := qAt (dists b) i / (maxDist b + EPS)) in *.
  set (dn2 := qAt (dists b) j / (maxDist b + EPS)) in *.
  pose proof (rawAlphaOf_range dn1 o c) as R1.
  pose proof (rawAlphaOf_range dn2 o c) as R2.
  destruct (alphaZone_cases dn1 o c) as [[E1 H1]|[[E1 [H1 H1']]|[E1 [H1 H1']]]].
  - unfold rawAlphaOf at 1. rewrite E1. lia.
  - destruct (alphaZone_cases dn2 o c) as [[E2 H2]|[[E2 [H2 H2']]|[E2 [H2 H2']]]]; try lra.
    unfold rawAlphaOf. rewrite E1, E2. lia.
  - destruct (alphaZone_cases dn2 o c) as [[E2 H2]|[[E2 [H2 H2']]|[E2 [H2 H2']]]]; try lra.
    + unfold rawAlphaOf at 2. rewrite E2. lia.
    + rewrite !rawAlphaOf_fade by assumption.
      apply Qfloor_resp_le.
      pose proof (fade_mono dn1 dn2 o c ltac:(lra) Hdn). lra.
Qed.

Lemma rawAlpha_monotone_witness :
  (0 < width img4x4 * height img4x4)%nat /\ (5 < width img4x4 * height img4x4)%nat
  /\ qAt (dists (pixelStages sqrtQ img4x4 DEFAULT_PARAMS)) 0
     <= qAt (dists (pixelStages sqrtQ img4x4 DEFAULT_PARAMS)) 5
  /\ (zAt (alphaRaw (pixelStages sqrtQ img4x4 DEFAULT_PARAMS)) 0
      <= zAt (alphaRaw (pixelStages sqrtQ img4x4 DEFAULT_PARAMS)) 5)%Z.
Proof.
  assert (H1 : (0 < width img4x4 * height img4x4)%nat) by (simpl; lia).
  assert (H2 : (5 < width img4x4 * height img4x4)%nat) by (simpl; lia).
  assert (H3 : qAt (dists (pixelStages sqrtQ img4x4 DEFAULT_PARAMS)) 0
               <= qAt (dists (pixelStages sqrtQ img4x4 DEFAULT_PARAMS)) 5)
    by (vm_compute; discriminate).
  split; [exact H1 | split; [exact H2 | split; [exact H3 |]]].
  exact (rawAlpha_monotone sqrtQ img4x4 DEFAULT_PARAMS 0 5 H1 H2 H3).
Defined.

Lemma Qfloor_lt_Z (q : Q) (n : Z) : q < inject_Z n -> (Qfloor q < n)%Z.
Proof.
  intros H. pose proof (Qfloor_le q) as Hf.
  rewrite Zlt_Qlt. lra.
Qed.

(** With [clearDistNorm >= 256/255], a normalised distance of at most
    1.001 is never in the opaque zone and its raw alpha is at most 254. *)
Lemma rawAlphaOf_margin (dn o c : Q) :
  256 # 255 <= c -> dn <= 1001 # 1000 ->
  alphaZone dn o c <> ZoneOpaque /\ (rawAlphaOf dn o c <= 254)%Z.
Proof.
  intros Hc Hdn.
  destruct (alphaZone_cases dn o c) as [[E H]|[[E [H H']]|[E [H H']]]].
  - split; [rewrite E; discriminate|]. unfold rawAlphaOf. rewrite E. lia.
  - exfalso. lra.
  - split; [rewrite E; discriminate|].
    rewrite rawAlphaOf_fade by assumption.
    assert (Hf : (dn - o) / (c - o) < 1) by (apply Qlt_shift_div_r; lra).
    assert (Hlt : (Qfloor (255 * ((dn - o) / (c - o))) < 255)%Z).
    { apply Qfloor_lt_Z. change (inject_Z 255) with 255. lra. }
    lia.
Qed.

(** X7.  When [colorTolerance >= 0] and [colorTolerance * fadeStrength >=
    256], as with the default 15 and 50, no pixel takes the opaque branch and
    raw alpha stays below 255 on every image.  [clearDistNorm] is then at
    least 256/255, and the normalised distance is below 1 in exact
    arithmetic; the store of the distance in the [Float32Array] can lift it
    above 1, by less than 1e-7, and the same holds of every normalised
    distance up to 1.001.  With [colorTolerance >= 0] the fade of such a
    distance is at most 1.001 * 255/256, away from 1 in doubles too. *)
Theorem rawAlpha_never_opaque (Math_sqrt : Q -> Q) (img : ImageData)
    (params : AlgorithmParams) (i : nat) :
  0 <= colorTolerance params ->
  256 <= colorTolerance params * fadeStrength params ->
  (i < width img * height img)%nat ->
  let b := pixelStages Math_sqrt img params in
  alphaZone (qAt (dists b) i / (maxDist b + EPS)) (colorTolerance params / 255)
            (colorTolerance params * fadeStrength params / 255) <> ZoneOpaque
  /\ (zAt (alphaRaw b) i <= 254)%Z
  /\ (forall distNorm, distNorm <= 1001 # 1000 ->
        (rawAlphaOf distNorm (opaqueDistNormOf (colorTolerance params))
                    (clearDistNormOf (colorTolerance params) (fadeStrength params))
         <= 254)%Z).
Proof.
  intros Hct H256 Hi b.
  assert (Hc : 256 # 255 <= colorTolerance params * fadeStrength params / 255).
  { apply Qle_shift_div_l; lra. }
  pose proof (distNorm_lt_1 Math_sqrt img params i) as Hdn. fold b in Hdn.
  assert (Hrun : alphaZone (qAt (dists b) i / (maxDist b + EPS)) (colorTolerance params / 255)
                   (colorTolerance params * fadeStrength params / 255) <> ZoneOpaque
                 /\ (zAt (alphaRaw b) i <= 254)%Z).
  { unfold b. rewrite zAt_alphaRaw by exact Hi. fold b.
    unfold opaqueDistNormOf, clearDistNormOf.
    apply rawAlphaOf_margin; [exact Hc | lra]. }
  split; [exact (proj1 Hrun) | split; [exact (proj2 Hrun)|]].
  intros distNorm Hd. unfold opaqueDistNormOf, clearDistNormOf.
  exact (proj2 (rawAlphaOf_margin distNorm _ _ Hc Hd)).
Qed.

Lemma rawAlpha_never_opaque_witness :
  0 <= colorTolerance DEFAULT_PARAMS
  /\ 256 <= colorTolerance DEFAULT_PARAMS * fadeStrength DEFAULT_PARAMS
  /\ (5 < width img4x4 * height img4x4)%nat
  /\ (zAt (alphaRaw (pixelStages sqrtQ img4x4 DEFAULT_PARAMS)) 5 <= 254)%Z.
Proof.
  assert (H0 : 0 <= colorTolerance DEFAULT_PARAMS) by (vm_compute; discriminate).
  assert (H1 : 256 <= colorTolerance DEFAULT_PARAMS * fadeStrength DEFAULT_PARAMS)
    by (vm_compute; discriminate).
  assert (H2 : (5 < width img4x4 * height img4x4)%nat) by (simpl; lia).
  split; [exact H0 | split; [exact H1 | split; [exact H2 |]]].
  exact (proj1 (proj2 (rawAlpha_never_opaque sqrtQ img4x4 DEFAULT_PARAMS 5 H0 H1 H2))).
Defined.

Lemma toUint8_below (q : Q) (n : Z) :
  0 <= q -> q < inject_Z (n + 1) -> (n <= 255)%Z -> (0 <= toUint8 q <= n)%Z.
Proof.
  intros H0 Hq Hn. unfold toUint8, Qtrunc.
  assert (E : Qle_bool 0 q = true) by (apply Qle_bool_iff; exact H0).
  rewrite E.
  assert (Hlo : (0 <= Qfloor q)%Z).
  { assert (H : (Qfloor 0 <= Qfloor q)%Z) by (apply Qfloor_resp_le; exact H0). exact H. }
  pose proof (Qfloor_lt_Z q (n + 1) Hq) as Hhi.
  rewrite Z.mod_small by lia. lia.
Qed.

(** The colour cells of the output are 0 when [globalDarkFactor] is 0. *)
Lemma darkGray_zero (r g bl gdf : Q) : gdf == 0 -> toUint8Clamped (darkGrayOf r g bl gdf) = 0%Z.
Proof.
  intros Hg. unfold toUint8Clamped, darkGrayOf.
  assert (H : Qle_bool (Qmin 255 (Qmax 0 (grayOf r g bl * gdf))) 0 = true).
  { apply Qle_bool_iff.
    eapply Qle_trans; [apply Q.le_min_r|].
    apply Q.max_lub; [lra|]. rewrite Hg. lra. }
  rewrite H. reflexivity.
Qed.

(** X8.  With DEFAULT_PARAMS, the parameters the application passes, and on
    every image: raw alpha is at most 83, so no pixel reaches the object
    threshold 210 and the object mask and the shaved mask are empty; the
    final alpha is at most 207; and, [globalDarkFactor] being 0, the three
    colour cells of every output pixel are 0. *)
Theorem default_run (Math_sqrt : Q -> Q) (img : ImageData) (i : nat) :
  (i < width img * height img)%nat ->
  let b := pixelStages Math_sqrt img DEFAULT_PARAMS in
  (zAt (alphaRaw b) i <= 83)%Z
  /\ zAt (objectMask b) i = 0%Z
  /\ zAt (shavedObj b) i = 0%Z
  /\ (zAt (alpha b) i <= 207)%Z
  /\ outD b !! (i * 4)%nat = Some 0%Z
  /\ outD b !! (i * 4 + 1)%nat = Some 0%Z
  /\ outD b !! (i * 4 + 2)%nat = Some 0%Z.
Proof.
  intros Hi b.
  pose proof (distNorm_lt_1 Math_sqrt img DEFAULT_PARAMS i) as Hdn. fold b in Hdn.
  assert (Hraw : (0 <= zAt (alphaRaw b) i <= 83)%Z).
  { unfold b. rewrite zAt_alphaRaw by exact Hi. fold b.
    set (dn := qAt (dists b) i / (maxDist b + EPS)) in *.
    assert (Ho : opaqueDistNormOf (colorTolerance DEFAULT_PARAMS) == 1 # 17) by reflexivity.
    assert (Hc : clearDistNormOf (colorTolerance DEFAULT_PARAMS) (fadeStrength DEFAULT_PARAMS)
                 == 50 # 17) by reflexivity.
    set (o := opaqueDistNormOf (colorTolerance DEFAULT_PARAMS)) in *.
    set (c := clearDistNormOf (colorTolerance DEFAULT_PARAMS) (fadeStrength DEFAULT_PARAMS)) in *.
    destruct (alphaZone_cases dn o c) as [[E H]|[[E [H H']]|[E [H H']]]].
    - unfold rawAlphaOf. rewrite E. lia.
    - exfalso. lra.
    - rewrite rawAlphaOf_fade by assumption.
      destruct (fade_range dn o c H H') as [Hf0 Hf1].
      assert (Hf : (dn - o) / (c - o) < 84 # 255) by (apply Qlt_shift_div_r; lra).
      assert (Hlt : (Qfloor (255 * ((dn - o) / (c - o))) < 84)%Z).
      { apply Qfloor_lt_Z. change (inject_Z 84) with 84. lra. }
      pose proof (floor255_range ((dn - o) / (c - o)) ltac:(lra) Hf1). lia. }
  assert (Hom : zAt (objectMask b) i = 0%Z).
  { unfold b, pixelStages at 1, objectMaskOf; simpl. rewrite zAt_map_seq by exact Hi.
    fold (pixelStages Math_sqrt img DEFAULT_PARAMS). fold b.
    assert (E : Qle_bool 210 (inject_Z (zAt (alphaRaw b) i)) = false).
    { apply Qle_bool_gt. change 210 with (inject_Z 210). rewrite <- Zlt_Qlt. lia. }
    unfold b in E. unfold pixelStages in E; simpl in E. rewrite E. reflexivity. }
  assert (Hsh : zAt (shavedObj b) i = 0%Z) by exact Hom.
  split; [lia | split; [exact Hom | split; [exact Hsh|]]].
  split.
  - unfold b. rewrite zAt_alpha by exact Hi. fold b. rewrite Hsh.
    unfold finalAlphaOf. change (0 =? 1)%Z with false. cbv iota.
    assert (Hb : boostOf (alphaBoost DEFAULT_PARAMS) = 5 # 2) by reflexivity.
    rewrite Hb.
    assert (Hq : 0 <= inject_Z (zAt (alphaRaw b) i) /\ inject_Z (zAt (alphaRaw b) i) <= 83).
    { split; [change 0 with (inject_Z 0) | change 83 with (inject_Z 83)];
        rewrite <- Zle_Qle; lia. }
    set (a := inject_Z (zAt (alphaRaw b) i)) in *.
    apply (toUint8_below _ 207); [| | lia];
      destruct (zAt (shadowMask b) i =? 1)%Z;
      [ destruct (Qltb 0 a) eqn:E; [|lra]
      | assert (E : Qltb 0 0 = false) by reflexivity; rewrite E; lra
      | destruct (Qltb 0 a) eqn:E
      | assert (E : Qltb 0 0 = false) by reflexivity; rewrite E;
        change (inject_Z (207 + 1)) with 208; lra ].
    + apply Q.min_glb; lra.
    + change (inject_Z (207 + 1)) with 208.
      eapply Qle_lt_trans; [apply Q.le_min_r|]. lra.
    + change (inject_Z (207 + 1)) with 208. lra.
  - assert (Hcell : forall k, (k < 3)%nat -> outD b !! (i * 4 + k)%nat = Some 0%Z).
    { intros k Hk. unfold b. rewrite outD_cell by (exact Hi || lia). fold b.
      unfold outPixel.
      rewrite darkGray_zero by reflexivity.
      destruct k as [|[|[|k]]]; [reflexivity | reflexivity | reflexivity | lia]. }
    split; [|split]; [rewrite <- (Nat.add_0_r (i * 4)) | |]; apply Hcell; lia.
Qed.

Lemma default_run_witness :
  (5 < width img4x4 * height img4x4)%nat
  /\ (zAt (alphaRaw (pixelStages sqrtQ img4x4 DEFAULT_PARAMS)) 5 <= 83)%Z.
Proof.
  assert (H : (5 < width img4x4 * height img4x4)%nat) by (simpl; lia).
  split; [exact H|].
  exact (proj1 (default_run sqrtQ img4x4 5 H)).
Defined.

(** ** Pixels of the key colour, shadow pixels and shaved pixels *)

Lemma toUint8_zero (q : Q) : q == 0 -> toUint8 q = 0%Z.
Proof.
  intros H. unfold toUint8, Qtrunc.
  assert (E : Qle_bool 0 q = true) by (apply Qle_bool_iff; lra).
  rewrite E, (Qfloor_comp _ _ H). reflexivity.
Qed.

Lemma zAt_shadowMask (Math_sqrt : Q -> Q) (img : ImageData) (params : AlgorithmParams)
    (i : nat) :
  (i < width img * height img)%nat ->
  zAt (shadowMask (pixelStages Math_sqrt img params)) i
  = if (0 <? zAt (alphaRaw (pixelStages Math_sqrt img params)) i)%Z
       && Qltb (inject_Z (zAt (alphaRaw (pixelStages Math_sqrt img params)) i))
               (objectThreshold params)
    then 1%Z else 0%Z.
Proof.
  intros Hi. unfold pixelStages at 1, shadowMaskOf; simpl.
  rewrite zAt_map_seq by exact Hi. reflexivity.
Qed.

Lemma zAt_objectMask (Math_sqrt : Q -> Q) (img : ImageData) (params : AlgorithmParams)
    (i : nat) :
  (i < width img * height img)%nat ->
  zAt (objectMask (pixelStages Math_sqrt img params)) i
  = if Qle_bool (objectThreshold params)
                (inject_Z (zAt (alphaRaw (pixelStages Math_sqrt img params)) i))
    then 1%Z else 0%Z.
Proof.
  intros Hi. unfold pixelStages at 1, objectMaskOf; simpl.
  rewrite zAt_map_seq by exact Hi. reflexivity.
Qed.

(** The shaved mask is inside the object mask. *)
Lemma shavedObj_in_objectMask (Math_sqrt : Q -> Q) (img : ImageData)
    (params : AlgorithmParams) (i : nat) :
  (i < width img * height img)%nat ->
  zAt (objectMask (pixelStages Math_sqrt img params)) i = 0%Z ->
  zAt (shavedObj (pixelStages Math_sqrt img params)) i = 0%Z.
Proof.
  intros Hi Hom.
  assert (Hsh : shavedObj (pixelStages Math_sqrt img params)
                = shave (objectMask (pixelStages Math_sqrt img params))
                        (width img) (height img) (shavePx params)) by reflexivity.
  rewrite Hsh. unfold shave.
  destruct (Qltb 0 (shavePx params)) eqn:Es; [|exact Hom].
  apply Qltb_lt in Es. rewrite zAt_map_seq by exact Hi.
  assert (Hl : objectMask (pixelStages Math_sqrt img params) !! i = Some 0%Z).
  { destruct (objectMask (pixelStages Math_sqrt img params) !! i) as [v|] eqn:Hv.
    - unfold zAt in Hom. rewrite Hv in Hom. simpl in Hom. rewrite Hom. reflexivity.
    - apply lookup_ge_None in Hv. rewrite length_objectMask in Hv. lia. }
  assert (Hd : zAt (computeDistanceMap (objectMask (pixelStages Math_sqrt img params))
                                       (width img) (height img) true) i = 0%Z).
  { unfold zAt. rewrite (computeDistanceMap_seed_zero _ _ _ _ Hi Hl). reflexivity. }
  rewrite Hd.
  assert (E : Qltb (shavePx params) (inject_Z 0) = false)
    by (apply Qltb_ge; change (inject_Z 0) with 0; lra).
  rewrite E. reflexivity.
Qed.

(** A pixel at distance 0 from the key is background. *)
Lemma dist_zero_transparent (Math_sqrt : Q -> Q) (img : ImageData)
    (params : AlgorithmParams) (i : nat) :
  0 <= colorTolerance params -> (i < width img * height img)%nat ->
  qAt (dists (pixelStages Math_sqrt img params)) i == 0 ->
  zAt (alphaRaw (pixelStages Math_sqrt img params)) i = 0%Z
  /\ zAt (alpha (pixelStages Math_sqrt img params)) i = 0%Z.
Proof.
  intros Hct Hi Hd.
  assert (Hraw : zAt (alphaRaw (pixelStages Math_sqrt img params)) i = 0%Z).
  { rewrite zAt_alphaRaw by exact Hi.
    assert (Hdn : qAt (dists (pixelStages Math_sqrt img params)) i
                  / (maxDist (pixelStages Math_sqrt img params) + EPS) == 0).
    { rewrite Hd. unfold Qdiv. ring. }
    assert (Ho : 0 <= opaqueDistNormOf (colorTolerance params)).
    { unfold opaqueDistNormOf, Qdiv. apply Qmult_le_0_compat; [exact Hct|].
      apply Qinv_le_0_compat. lra. }
    unfold rawAlphaOf, alphaZone.
    assert (E : Qle_bool (qAt (dists (pixelStages Math_sqrt img params)) i
                          / (maxDist (pixelStages Math_sqrt img params) + EPS))
                         (opaqueDistNormOf (colorTolerance params)) = true)
      by (apply Qle_bool_iff; lra).
    rewrite E. reflexivity. }
  split; [exact Hraw|].
  rewrite zAt_alpha by exact Hi. rewrite Hraw.
  rewrite zAt_shadowMask by exact Hi. rewrite Hraw.
  change ((0 <? 0)%Z && _) with false. cbv iota.
  unfold finalAlphaOf.
  destruct (zAt (shavedObj (pixelStages Math_sqrt img params)) i =? 1)%Z.
  - set (f := qAt (objectFeather (pixelStages Math_sqrt img params)) i).
    assert (E0 : inject_Z 0 * f == 0) by ring.
    assert (El : Qltb 0 (inject_Z 0 * f) = false) by (apply Qltb_ge; lra).
    rewrite El. apply toUint8_zero. exact E0.
  - reflexivity.
Qed.

Lemma chromaDist_at_key (Math_sqrt : Q -> Q) (data : list Z) (kR kG kB : Q) (i : nat) :
  (forall q, q == 0 -> Math_sqrt q == 0) ->
  byteAt data (i * 4) == kR -> byteAt data (i * 4 + 1) == kG ->
  byteAt data (i * 4 + 2) == kB ->
  chromaDist Math_sqrt data (kR, kG, kB) i == 0.
Proof.
  intros Hsqrt HR HG HB. unfold chromaDist. apply Hsqrt.
  rewrite HR, HG, HB. simpl. ring.
Qed.

Lemma qAt_dists (Math_sqrt : Q -> Q) (img : ImageData) (params : AlgorithmParams) (i : nat) :
  (i < width img * height img)%nat ->
  qAt (dists (pixelStages Math_sqrt img params)) i
  = chromaDist Math_sqrt (data img) (key (pixelStages Math_sqrt img params)) i.
Proof.
  intros Hi. unfold pixelStages, chromaDists; simpl.
  rewrite qAt_map_seq by exact Hi. reflexivity.
Qed.

(** X9.  A pixel of exactly the key colour is fully transparent: with
    [colorTolerance >= 0] and a square root that maps 0 to 0, its raw alpha
    and its final alpha are 0, whether the key is detected or given. *)
Theorem key_pixel_transparent (Math_sqrt : Q -> Q) (img : ImageData)
    (params : AlgorithmParams) (i : nat) (kR kG kB : Q) :
  (forall q, q == 0 -> Math_sqrt q == 0) ->
  0 <= colorTolerance params ->
  (i < width img * height img)%nat ->
  let b := pixelStages Math_sqrt img params in
  key b = (kR, kG, kB) ->
  byteAt (data img) (i * 4) == kR -> byteAt (data img) (i * 4 + 1) == kG ->
  byteAt (data img) (i * 4 + 2) == kB ->
  zAt (alphaRaw b) i = 0%Z /\ zAt (alpha b) i = 0%Z.
Proof.
  intros Hsqrt Hct Hi b Hkey HR HG HB.
  apply dist_zero_transparent; [exact Hct | exact Hi |].
  rewrite qAt_dists by exact Hi. fold b. rewrite Hkey.
  apply chromaDist_at_key; assumption.
Qed.

Lemma sqrtQ_zero (q : Q) : q == 0 -> sqrtQ q == 0.
Proof.
  intros H. unfold sqrtQ. destruct q as [n d]. unfold Qeq in *. simpl in *.
  assert (n = 0%Z) by lia. subst n. reflexivity.
Qed.

Lemma key_pixel_transparent_witness :
  (forall q, q == 0 -> sqrtQ q == 0)
  /\ 0 <= colorTolerance manualKeyParams
  /\ (5 < width img4x4 * height img4x4)%nat
  /\ key (pixelStages sqrtQ img4x4 manualKeyParams) = (100, 55, 200)
  /\ byteAt (data img4x4) (5 * 4) == 100 /\ byteAt (data img4x4) (5 * 4 + 1) == 55
  /\ byteAt (data img4x4) (5 * 4 + 2) == 200
  /\ zAt (alpha (pixelStages sqrtQ img4x4 manualKeyParams)) 5 = 0%Z.
Proof.
  assert (H1 : 0 <= colorTolerance manualKeyParams) by (simpl; lra).
  assert (H2 : (5 < width img4x4 * height img4x4)%nat) by (simpl; lia).
  assert (H3 : key (pixelStages sqrtQ img4x4 manualKeyParams) = (100, 55, 200)) by reflexivity.
  assert (H4 : byteAt (data img4x4) (5 * 4) == 100) by reflexivity.
  assert (H5 : byteAt (data img4x4) (5 * 4 + 1) == 55) by reflexivity.
  assert (H6 : byteAt (data img4x4) (5 * 4 + 2) == 200) by reflexivity.
  split; [exact sqrtQ_zero|].
  split; [exact H1 | split; [exact H2 | split; [exact H3 | split; [exact H4 |
    split; [exact H5 | split; [exact H6 |]]]]]].
  exact (proj2 (key_pixel_transparent sqrtQ img4x4 manualKeyParams 5 100 55 200
                  sqrtQ_zero H1 H2 H3 H4 H5 H6)).
Defined.

(** The key detected on an image of one colour is that colour. *)
Lemma detectBackground_uniform (w h : nat) (data : list Z) (manual : Q * Q * Q) (r g bl : Z) :
  (0 < w)%nat -> (0 < h)%nat ->
  (forall i, (i < w * h)%nat ->
     zAt data (i * 4) = r /\ zAt data (i * 4 + 1) = g /\ zAt data (i * 4 + 2) = bl) ->
  exists kR kG kB,
    detectBackground w h data true manual = (kR, kG, kB)
    /\ kR == inject_Z r /\ kG == inject_Z g /\ kB == inject_Z bl.
Proof.
  intros Hw Hh Hall.
  assert (Hb : forall cx cy, (cx < w)%nat -> (cy < h)%nat ->
            byteAt data ((cy * w + cx) * 4) = inject_Z r
            /\ byteAt data ((cy * w + cx) * 4 + 1) = inject_Z g
            /\ byteAt data ((cy * w + cx) * 4 + 2) = inject_Z bl).
  { intros cx cy Hcx Hcy. unfold byteAt.
    destruct (Hall (cy * w + cx)%nat ltac:(nia)) as (-> & -> & ->). auto. }
  unfold detectBackground. cbn [foldl].
  destruct (Hb 0%nat 0%nat Hw Hh) as (-> & -> & ->).
  destruct (Hb (w - 1)%nat 0%nat ltac:(lia) Hh) as (-> & -> & ->).
  destruct (Hb 0%nat (h - 1)%nat Hw ltac:(lia)) as (-> & -> & ->).
  destruct (Hb (w - 1)%nat (h - 1)%nat ltac:(lia) ltac:(lia)) as (-> & -> & ->).
  eexists _, _, _. split; [reflexivity|].
  repeat split; field.
Qed.

(** X10.  An image of a single colour is fully transparent under automatic
    key detection: the detected key is that colour, and every pixel has raw
    alpha 0 and final alpha 0 (with [colorTolerance >= 0] and a square root
    that maps 0 to 0).  This covers every 1x1 image. *)
Theorem uniform_image_transparent (Math_sqrt : Q -> Q) (img : ImageData)
    (params : AlgorithmParams) (r g bl : Z) :
  (forall q, q == 0 -> Math_sqrt q == 0) ->
  0 <= colorTolerance params ->
  autoDetectBg params = true ->
  (forall i, (i < width img * height img)%nat ->
     zAt (data img) (i * 4) = r /\ zAt (data img) (i * 4 + 1) = g
     /\ zAt (data img) (i * 4 + 2) = bl) ->
  forall i, (i < width img * height img)%nat ->
    zAt (alphaRaw (pixelStages Math_sqrt img params)) i = 0%Z
    /\ zAt (alpha (pixelStages Math_sqrt img params)) i = 0%Z.
Proof.
  intros Hsqrt Hct Hauto Hall i Hi.
  assert (Hw : (0 < width img)%nat) by nia.
  assert (Hh : (0 < height img)%nat) by nia.
  destruct (detectBackground_uniform (width img) (height img) (data img)
              (manualBgColor params) r g bl Hw Hh Hall)
    as (kR & kG & kB & Hkey & HkR & HkG & HkB).
  apply dist_zero_transparent; [exact Hct | exact Hi |].
  rewrite qAt_dists by exact Hi.
  assert (Hk : key (pixelStages Math_sqrt img params) = (kR, kG, kB)).
  { unfold pixelStages; simpl. rewrite Hauto. exact Hkey. }
  rewrite Hk.
  destruct (Hall i Hi) as (Hr & Hg & Hb).
  apply chromaDist_at_key; [exact Hsqrt | | |]; unfold byteAt.
  - rewrite Hr, HkR. reflexivity.
  - rewrite Hg, HkG. reflexivity.
  - rewrite Hb, HkB. reflexivity.
Qed.

Lemma uniform_image_transparent_witness :
  (forall q, q == 0 -> sqrtQ q == 0)
  /\ 0 <= colorTolerance DEFAULT_PARAMS
  /\ autoDetectBg DEFAULT_PARAMS = true
  /\ zAt (alpha (pixelStages sqrtQ imgUniform DEFAULT_PARAMS)) 4 = 0%Z.
Proof.
  assert (H1 : 0 <= colorTolerance DEFAULT_PARAMS) by (simpl; lra).
  assert (H2 : autoDetectBg DEFAULT_PARAMS = true) by reflexivity.
  assert (H3 : forall i, (i < width imgUniform * height imgUniform)%nat ->
            zAt (data imgUniform) (i * 4) = 100%Z /\ zAt (data imgUniform) (i * 4 + 1) = 55%Z
            /\ zAt (data imgUniform) (i * 4 + 2) = 200%Z).
  { intros i Hi.
    do 6 (destruct i as [|i]; [vm_compute; auto|]). simpl in Hi. lia. }
  split; [exact sqrtQ_zero | split; [exact H1 | split; [exact H2 |]]].
  apply (uniform_image_transparent sqrtQ imgUniform DEFAULT_PARAMS 100 55 200
           sqrtQ_zero H1 H2 H3 4%nat).
  simpl; lia.
Defined.

Lemma toUint8_floor (q : Q) : 0 <= q -> q <= 255 -> toUint8 q = Qfloor q.
Proof.
  intros H0 H255. unfold toUint8, Qtrunc.
  assert (E : Qle_bool 0 q = true) by (apply Qle_bool_iff; exact H0).
  rewrite E.
  assert (Hlo : (0 <= Qfloor q)%Z).
  { assert (H : (Qfloor 0 <= Qfloor q)%Z) by (apply Qfloor_resp_le; exact H0). exact H. }
  assert (Hhi : (Qfloor q <= 255)%Z).
  { assert (H : (Qfloor q <= Qfloor 255)%Z) by (apply Qfloor_resp_le; exact H255). exact H. }
  apply Z.mod_small. lia.
Qed.

(** The byte a [Uint8Array] holds for a rounded value: for a rounding that
    is monotone and leaves the integers as they are, as the rounding of a
    double product is, the byte stored for the rounded [x] is the floor or
    the ceiling of [x]. *)
Lemma toUint8_of_rounded (fl : Q -> Q) (x : Q) :
  (forall a b, a <= b -> fl a <= fl b) ->
  (forall n : Z, fl (inject_Z n) == inject_Z n) ->
  0 <= x -> x <= 255 ->
  (Qfloor x <= toUint8 (fl x) <= Qceiling x)%Z.
Proof.
  intros Hmono Hint H0 H255.
  pose proof (Qfloor_le x) as Hf. pose proof (Qle_ceiling x) as Hc.
  assert (Hf0 : (0 <= Qfloor x)%Z).
  { assert (H : (Qfloor 0 <= Qfloor x)%Z) by (apply Qfloor_resp_le; exact H0). exact H. }
  assert (Hc255 : (Qceiling x <= 255)%Z).
  { assert (H : (Qceiling x <= Qceiling 255)%Z) by (apply Qceiling_resp_le; exact H255).
    exact H. }
  assert (Hlo : inject_Z (Qfloor x) <= fl x).
  { rewrite <- (Hint (Qfloor x)). apply Hmono. exact Hf. }
  assert (Hhi : fl x <= inject_Z (Qceiling x)).
  { rewrite <- (Hint (Qceiling x)). apply Hmono. exact Hc. }
  assert (Hpos : 0 <= fl x).
  { eapply Qle_trans; [|exact Hlo]. change 0 with (inject_Z 0). rewrite <- Zle_Qle. exact Hf0. }
  assert (Htop : fl x <= 255).
  { eapply Qle_trans; [exact Hhi|]. change 255 with (inject_Z 255). rewrite <- Zle_Qle.
    exact Hc255. }
  rewrite (toUint8_floor (fl x) Hpos Htop).
  split.
  - assert (H : (Qfloor (inject_Z (Qfloor x)) <= Qfloor (fl x))%Z)
      by (apply Qfloor_resp_le; exact Hlo).
    rewrite Qfloor_Z in H. exact H.
  - assert (H : (Qfloor (fl x) <= Qfloor (inject_Z (Qceiling x)))%Z)
      by (apply Qfloor_resp_le; exact Hhi).
    rewrite Qfloor_Z in H. exact H.
Qed.

(** X11.  A shadow pixel keeps its alpha whatever the shave and the
    feather: it is never in the object mask nor in the shaved mask, and its
    final alpha is the same in the run with any other [shavePx] and
    [featherWidth].  That alpha is [min(255, alphaRaw * boost)] as the
    [Uint8Array] holds it: for a positive boost, the floor or the ceiling of
    the exact value (the floor, unless the double product rounds up to an
    integer, see [toUint8_of_rounded]); with a boost of 1 or more it is at
    least the raw alpha. *)
Theorem shadow_alpha_passthrough (Math_sqrt : Q -> Q) (img : ImageData)
    (params : AlgorithmParams) (s f : Q) (i : nat) :
  (i < width img * height img)%nat ->
  let b := pixelStages Math_sqrt img params in
  let b' := pixelStages Math_sqrt img (with_shavePx s (with_featherWidth f params)) in
  let x := Qmin 255 (inject_Z (zAt (alphaRaw b) i) * boostOf (alphaBoost params)) in
  zAt (shadowMask b) i = 1%Z ->
  zAt (objectMask b) i = 0%Z
  /\ zAt (shavedObj b) i = 0%Z
  /\ zAt (alpha b') i = zAt (alpha b) i
  /\ (0 < boostOf (alphaBoost params) -> (Qfloor x <= zAt (alpha b) i <= Qceiling x)%Z)
  /\ (1 <= boostOf (alphaBoost params) -> (zAt (alphaRaw b) i <= zAt (alpha b) i)%Z).
Proof.
  intros Hi b b' x Hsm.
  assert (Hsm' := Hsm). unfold b in Hsm'. rewrite zAt_shadowMask in Hsm' by exact Hi.
  fold b in Hsm'.
  destruct (0 <? zAt (alphaRaw b) i)%Z eqn:Epos; [|discriminate Hsm'].
  destruct (Qltb (inject_Z (zAt (alphaRaw b) i)) (objectThreshold params)) eqn:Ethr;
    [|discriminate Hsm'].
  apply Z.ltb_lt in Epos. apply Qltb_lt in Ethr.
  assert (Hshadow : forall p : AlgorithmParams,
            alphaRaw (pixelStages Math_sqrt img p) = alphaRaw b ->
            objectThreshold p = objectThreshold params ->
            zAt (objectMask (pixelStages Math_sqrt img p)) i = 0%Z
            /\ zAt (shavedObj (pixelStages Math_sqrt img p)) i = 0%Z).
  { intros p Hraw Hthr.
    assert (Hom : zAt (objectMask (pixelStages Math_sqrt img p)) i = 0%Z).
    { rewrite zAt_objectMask by exact Hi. rewrite Hraw, Hthr.
      assert (E : Qle_bool (objectThreshold params) (inject_Z (zAt (alphaRaw b) i)) = false)
        by (apply Qle_bool_gt; exact Ethr).
      rewrite E. reflexivity. }
    split; [exact Hom | apply shavedObj_in_objectMask; assumption]. }
  destruct (Hshadow params eq_refl eq_refl) as [Hom Hsh]. fold b in Hom, Hsh.
  destruct (Hshadow (with_shavePx s (with_featherWidth f params)) eq_refl eq_refl)
    as [_ Hsh'].
  assert (E : Qltb 0 (inject_Z (zAt (alphaRaw b) i)) = true).
  { apply Qltb_lt. change 0 with (inject_Z 0). rewrite <- Zlt_Qlt. exact Epos. }
  assert (Ha : zAt (alpha b) i = toUint8 x).
  { unfold b. rewrite zAt_alpha by exact Hi. fold b.
    rewrite Hsh, Hsm. unfold finalAlphaOf. change (0 =? 1)%Z with false.
    change (1 =? 1)%Z with true. cbv iota. rewrite E. reflexivity. }
  assert (Ha' : zAt (alpha b') i = toUint8 x).
  { unfold b'. rewrite zAt_alpha by exact Hi. rewrite Hsh'.
    change (shadowMask (pixelStages Math_sqrt img (with_shavePx s (with_featherWidth f params))))
      with (shadowMask b).
    change (alphaRaw (pixelStages Math_sqrt img (with_shavePx s (with_featherWidth f params))))
      with (alphaRaw b).
    rewrite Hsm. unfold finalAlphaOf. change (0 =? 1)%Z with false.
    change (1 =? 1)%Z with true. cbv iota. rewrite E. reflexivity. }
  assert (Hraw0 : 0 < inject_Z (zAt (alphaRaw b) i)) by (apply Qltb_lt; exact E).
  assert (Hraw255 : inject_Z (zAt (alphaRaw b) i) <= 255).
  { pose proof (rawAlphaOf_range
                  (qAt (dists b) i / (maxDist b + EPS))
                  (opaqueDistNormOf (colorTolerance params))
                  (clearDistNormOf (colorTolerance params) (fadeStrength params))) as Hr.
    unfold b in Hr. rewrite <- zAt_alphaRaw in Hr by exact Hi. fold b in Hr.
    change 255 with (inject_Z 255). rewrite <- Zle_Qle. lia. }
  split; [exact Hom | split; [exact Hsh | split; [rewrite Ha, Ha'; reflexivity|]]].
  split.
  - intros Hb.
    assert (Hx0 : 0 <= x).
    { unfold x. apply Q.min_glb; [lra|]. apply Qmult_le_0_compat; lra. }
    assert (Hx255 : x <= 255) by (unfold x; apply Q.le_min_l).
    rewrite Ha, (toUint8_floor x Hx0 Hx255).
    split; [lia|]. rewrite Zle_Qle.
    pose proof (Qfloor_le x). pose proof (Qle_ceiling x). lra.
  - intros Hb.
    assert (Hge : inject_Z (zAt (alphaRaw b) i) <= x).
    { unfold x. apply Q.min_glb; [exact Hraw255|].
      assert (Hp : 0 <= inject_Z (zAt (alphaRaw b) i) * (boostOf (alphaBoost params) - 1))
        by (apply Qmult_le_0_compat; lra).
      assert (Er : inject_Z (zAt (alphaRaw b) i) * (boostOf (alphaBoost params) - 1)
                   == inject_Z (zAt (alphaRaw b) i) * boostOf (alphaBoost params)
                      - inject_Z (zAt (alphaRaw b) i)) by ring.
      rewrite Er in Hp. lra. }
    assert (Hx0 : 0 <= x) by lra.
    assert (Hx255 : x <= 255) by (unfold x; apply Q.le_min_l).
    rewrite Ha, (toUint8_floor x Hx0 Hx255).
    assert (H : (Qfloor (inject_Z (zAt (alphaRaw b) i)) <= Qfloor x)%Z)
      by (apply Qfloor_resp_le; exact Hge).
    rewrite Qfloor_Z in H. exact H.
Qed.

Lemma shadow_alpha_passthrough_witness :
  (5 < width img4x4 * height img4x4)%nat
  /\ zAt (shadowMask (pixelStages sqrtQ img4x4 DEFAULT_PARAMS)) 5 = 1%Z
  /\ zAt (shavedObj (pixelStages sqrtQ img4x4 DEFAULT_PARAMS)) 5 = 0%Z
  /\ zAt (alpha (pixelStages sqrtQ img4x4
                   (with_shavePx 1 (with_featherWidth 2 DEFAULT_PARAMS)))) 5
     = zAt (alpha (pixelStages sqrtQ img4x4 DEFAULT_PARAMS)) 5.
Proof.
  assert (H1 : (5 < width img4x4 * height img4x4)%nat) by (simpl; lia).
  assert (H2 : zAt (shadowMask (pixelStages sqrtQ img4x4 DEFAULT_PARAMS)) 5 = 1%Z)
    by (vm_compute; reflexivity).
  destruct (shadow_alpha_passthrough sqrtQ img4x4 DEFAULT_PARAMS 1 2 5 H1 H2)
    as (_ & H3 & H4 & _).
  split; [exact H1 | split; [exact H2 | split; [exact H3 | exact H4]]].
Defined.

(** X12.  A pixel that the shave takes off the object becomes fully
    transparent: it is in the object mask, hence not in the shadow mask, and
    once outside the shaved mask its final alpha is 0. *)
Theorem shaved_off_transparent (Math_sqrt : Q -> Q) (img : ImageData)
    (params : AlgorithmParams) (i : nat) :
  (i < width img * height img)%nat ->
  let b := pixelStages Math_sqrt img params in
  zAt (objectMask b) i = 1%Z -> zAt (shavedObj b) i = 0%Z ->
  zAt (shadowMask b) i = 0%Z /\ zAt (alpha b) i = 0%Z.
Proof.
  intros Hi b Hom Hsh.
  assert (Hom' := Hom). unfold b in Hom'. rewrite zAt_objectMask in Hom' by exact Hi.
  fold b in Hom'.
  destruct (Qle_bool (objectThreshold params) (inject_Z (zAt (alphaRaw b) i))) eqn:Ethr;
    [|discriminate Hom'].
  apply Qle_bool_iff in Ethr.
  assert (Hsm : zAt (shadowMask b) i = 0%Z).
  { unfold b. rewrite zAt_shadowMask by exact Hi. fold b.
    assert (E : Qltb (inject_Z (zAt (alphaRaw b) i)) (objectThreshold params) = false)
      by (apply Qltb_ge; exact Ethr).
    rewrite E, andb_false_r. reflexivity. }
  split; [exact Hsm|].
  unfold b. rewrite zAt_alpha by exact Hi. fold b.
  rewrite Hsh, Hsm. reflexivity.
Qed.

Lemma shaved_off_transparent_witness :
  (5 < width img4x4 * height img4x4)%nat
  /\ zAt (objectMask (pixelStages sqrtQ img4x4 (with_shavePx 1 sharpParams))) 5 = 1%Z
  /\ zAt (shavedObj (pixelStages sqrtQ img4x4 (with_shavePx 1 sharpParams))) 5 = 0%Z
  /\ zAt (alpha (pixelStages sqrtQ img4x4 (with_shavePx 1 sharpParams))) 5 = 0%Z.
Proof.
  assert (H1 : (5 < width img4x4 * height img4x4)%nat) by (simpl; lia).
  assert (H2 : zAt (objectMask (pixelStages sqrtQ img4x4 (with_shavePx 1 sharpParams))) 5
               = 1%Z) by (vm_compute; reflexivity).
  assert (H3 : zAt (shavedObj (pixelStages sqrtQ img4x4 (with_shavePx 1 sharpParams))) 5
               = 0%Z) by (vm_compute; reflexivity).
  split; [exact H1 | split; [exact H2 | split; [exact H3 |]]].
  exact (proj2 (shaved_off_transparent sqrtQ img4x4 (with_shavePx 1 sharpParams) 5 H1 H2 H3)).
Defined.

(** ** The output raster *)

Lemma toUint8Clamped_range (q : Q) : (0 <= toUint8Clamped q <= 255)%Z.
Proof.
  unfold toUint8Clamped.
  destruct (Qle_bool q 0) eqn:E0; [lia|].
  destruct (Qle_bool 255 q) eqn:E1; [lia|].
  apply Qle_bool_gt in E0. apply Qle_bool_gt in E1.
  assert (Hlo : (0 <= Qfloor q)%Z).
  { assert (H : (Qfloor 0 <= Qfloor q)%Z) by (apply Qfloor_resp_le; lra). exact H. }
  assert (Hhi : (Qfloor q < 255)%Z) by (apply Qfloor_lt_Z; exact E1).
  destruct (Qltb _ _); [lia|]. destruct (Qltb _ _); [lia|].
  destruct (Z.even _); lia.
Qed.

Lemma outD_bytes (Math_sqrt : Q -> Q) (img : ImageData) (params : AlgorithmParams) :
  Forall (fun v => 0 <= v <= 255)%Z (outD (pixelStages Math_sqrt img params)).
Proof.
  apply Forall_forall. intros v Hv. apply list_elem_of_In in Hv.
  unfold pixelStages, output in Hv; simpl in Hv.
  apply in_flat_map in Hv. destruct Hv as [i [_ Hv]].
  unfold outPixel in Hv. simpl in Hv.
  destruct Hv as [<-|[<-|[<-|[<-|[]]]]]; apply toUint8Clamped_range.
Qed.

(** X13.  Whenever the promise resolves, the processed raster has the
    width and height of the decoded image and is well formed: four cells per
    pixel and every cell a byte, also when the decoded buffer was not. *)
Theorem processImage_resolves_wellFormed (Math_sqrt : Q -> Q) (env : Browser)
    (params : AlgorithmParams) (r : Processed) :
  processImage Math_sqrt env params = Resolved r ->
  (exists img, decoded env = Some img /\ res_width r = width img
               /\ res_height r = height img)
  /\ wellFormed (mkImageData (res_width r) (res_height r) (processed r)).
Proof.
  unfold processImage. intros H.
  destruct (decoded env) as [img|]; [|discriminate H].
  destruct (negb (hasCtx env)); [discriminate H|].
  destruct (canvasThrows env); [discriminate H|].
  inversion H; subst r; clear H.
  cbn [res_width res_height processed].
  split; [exists img; auto|].
  unfold wellFormed. cbn [data width height].
  split; [apply length_outD | apply outD_bytes].
Qed.

Lemma processImage_resolves_wellFormed_witness :
  processImage sqrtQ (mkBrowser (Some img2x2green) true false) DEFAULT_PARAMS
    = Resolved (mkProcessed 2 2 [0; 0; 0; 0; 0; 0; 0; 0; 0; 0; 0; 0; 0; 0; 0; 0]%Z)
  /\ wellFormed (mkImageData 2 2 [0; 0; 0; 0; 0; 0; 0; 0; 0; 0; 0; 0; 0; 0; 0; 0]%Z).
Proof.
  assert (H : processImage sqrtQ (mkBrowser (Some img2x2green) true false) DEFAULT_PARAMS
              = Resolved (mkProcessed 2 2 [0; 0; 0; 0; 0; 0; 0; 0; 0; 0; 0; 0; 0; 0; 0; 0]%Z))
    by (vm_compute; reflexivity).
  split; [exact H|].
  exact (proj2 (processImage_resolves_wellFormed sqrtQ _ DEFAULT_PARAMS _ H)).
Defined.

(** ** Boost and dark factor *)

Lemma toUint8_mono (p q : Q) : 0 <= p -> p <= q -> q <= 255 -> (toUint8 p <= toUint8 q)%Z.
Proof.
  intros H0 Hpq H255.
  rewrite (toUint8_floor p) by lra. rewrite (toUint8_floor q) by lra.
  apply Qfloor_resp_le. exact Hpq.
Qed.

Lemma finalAlphaOf_boost_mono (aRaw shaved shadow : Z) (f b1 b2 : Q) :
  0 < b1 -> b1 <= b2 ->
  (toUint8 (finalAlphaOf aRaw shaved shadow f b1)
   <= toUint8 (finalAlphaOf aRaw shaved shadow f b2))%Z.
Proof.
  intros Hb1 Hb12. unfold finalAlphaOf.
  set (finalA := if (shaved =? 1)%Z then inject_Z aRaw * f
                 else if (shadow =? 1)%Z then inject_Z aRaw else 0).
  destruct (Qltb 0 finalA) eqn:E; [|lia].
  apply Qltb_lt in E.
  assert (H1 : 0 <= finalA * b1) by (apply Qmult_le_0_compat; lra).
  assert (H12 : finalA * b1 <= finalA * b2).
  { rewrite (Qmult_comm finalA b1), (Qmult_comm finalA b2).
    apply Qmult_le_compat_r; lra. }
  apply toUint8_mono.
  - apply Q.min_glb; lra.
  - apply Q.min_le_compat_l. exact H12.
  - apply Q.le_min_l.
Qed.

(** X23.  Raising [alphaBoost] never makes a pixel more transparent: for
    two positive boosts [b1 <= b2] and the same other parameters, the final
    alpha of every pixel with [b1] is at most its final alpha with [b2]. *)
Theorem alpha_monotone_in_boost (Math_sqrt : Q -> Q) (img : ImageData)
    (params : AlgorithmParams) (b1 b2 : Q) (i : nat) :
  0 < b1 -> b1 <= b2 -> (i < width img * height img)%nat ->
  (zAt (alpha (pixelStages Math_sqrt img (with_alphaBoost b1 params))) i
   <= zAt (alpha (pixelStages Math_sqrt img (with_alphaBoost b2 params))) i)%Z.
Proof.
  intros Hb1 Hb12 Hi.
  rewrite !zAt_alpha by exact Hi.
  assert (E1 : boostOf (alphaBoost (with_alphaBoost b1 params)) = b1).
  { unfold boostOf, with_alphaBoost; cbn [alphaBoost].
    destruct (Qeq_bool b1 0) eqn:E; [exfalso; apply Qeq_bool_iff in E; lra | reflexivity]. }
  assert (E2 : boostOf (alphaBoost (with_alphaBoost b2 params)) = b2).
  { unfold boostOf, with_alphaBoost; cbn [alphaBoost].
    destruct (Qeq_bool b2 0) eqn:E; [exfalso; apply Qeq_bool_iff in E; lra | reflexivity]. }
  rewrite E1, E2.
  change (alphaRaw (pixelStages Math_sqrt img (with_alphaBoost b2 params)))
    with (alphaRaw (pixelStages Math_sqrt img (with_alphaBoost b1 params))).
  change (shavedObj (pixelStages Math_sqrt img (with_alphaBoost b2 params)))
    with (shavedObj (pixelStages Math_sqrt img (with_alphaBoost b1 params))).
  change (shadowMask (pixelStages Math_sqrt img (with_alphaBoost b2 params)))
    with (shadowMask (pixelStages Math_sqrt img (with_alphaBoost b1 params))).
  change (objectFeather (pixelStages Math_sqrt img (with_alphaBoost b2 params)))
    with (objectFeather (pixelStages Math_sqrt img (with_alphaBoost b1 params))).
  apply finalAlphaOf_boost_mono; assumption.
Qed.

Lemma alpha_monotone_in_boost_witness :
  0 < 1 /\ 1 <= 5 # 2
  /\ (zAt (alpha (pixelStages sqrtQ img4x4 (with_alphaBoost 1 DEFAULT_PARAMS))) 5
      <= zAt (alpha (pixelStages sqrtQ img4x4 (with_alphaBoost (5 # 2) DEFAULT_PARAMS))) 5)%Z.
Proof.
  assert (H1 : 0 < 1) by reflexivity.
  assert (H2 : 1 <= 5 # 2) by (unfold Qle; simpl; lia).
  split; [exact H1 | split; [exact H2 |]].
  apply (alpha_monotone_in_boost sqrtQ img4x4 DEFAULT_PARAMS 1 (5 # 2) 5 H1 H2).
  simpl; lia.
Defined.

(** With [globalDarkFactor = 1] a gray byte is its own luminance up to
    0.0255, and the byte store rounds it back. *)
Lemma gray_byte_kept (v : Z) (gdf : Q) :
  (0 <= v <= 255)%Z -> gdf == 1 ->
  toUint8Clamped (darkGrayOf (inject_Z v) (inject_Z v) (inject_Z v) gdf) = v.
Proof.
  intros Hv Hg.
  assert (Hv0 : 0 <= inject_Z v) by (change 0 with (inject_Z 0); rewrite <- Zle_Qle; lia).
  assert (Hv255 : inject_Z v <= 255)
    by (change 255 with (inject_Z 255); rewrite <- Zle_Qle; lia).
  set (q := darkGrayOf (inject_Z v) (inject_Z v) (inject_Z v) gdf).
  assert (Eq : q == (9999 # 10000) * inject_Z v).
  { unfold q, darkGrayOf, grayOf. cbv zeta.
    assert (E : ((2989 # 10000) * inject_Z v + (5870 # 10000) * inject_Z v
                 + (1140 # 10000) * inject_Z v) * gdf == (9999 # 10000) * inject_Z v)
      by (rewrite Hg; ring).
    rewrite E. rewrite Q.max_r by lra. rewrite Q.min_r by lra. reflexivity. }
  assert (H0 : 0 <= q) by lra.
  assert (H255 : q <= 255) by lra.
  pose proof (toUint8Clamped_near q H0 H255) as Hn.
  apply Qabs_Qle_condition in Hn. destruct Hn as [Hn1 Hn2].
  assert (Hlt : inject_Z (toUint8Clamped q) < inject_Z (v + 1)).
  { rewrite inject_Z_plus. change (inject_Z 1) with 1. lra. }
  assert (Hgt : inject_Z (v - 1) < inject_Z (toUint8Clamped q)).
  { unfold Z.sub. rewrite inject_Z_plus. change (inject_Z (- (1))) with (- (1)). lra. }
  rewrite <- Zlt_Qlt in Hlt, Hgt. lia.
Qed.

(** X24.  With [globalDarkFactor = 1] a gray pixel of a decoded image, its
    three colour bytes equal to [v], keeps its colour: the three colour cells
    of the output pixel hold [v]. *)
Theorem gray_pixel_kept (Math_sqrt : Q -> Q) (img : ImageData) (params : AlgorithmParams)
    (i : nat) (v : Z) :
  wellFormed img -> globalDarkFactor params == 1 ->
  (i < width img * height img)%nat ->
  data img !! (i * 4)%nat = Some v ->
  data img !! (i * 4 + 1)%nat = Some v ->
  data img !! (i * 4 + 2)%nat = Some v ->
  let b := pixelStages Math_sqrt img params in
  outD b !! (i * 4)%nat = Some v
  /\ outD b !! (i * 4 + 1)%nat = Some v
  /\ outD b !! (i * 4 + 2)%nat = Some v.
Proof.
  intros [_ Hbytes] Hg Hi Hr Hgr Hb b.
  assert (Hv : (0 <= v <= 255)%Z).
  { rewrite Forall_lookup in Hbytes. exact (Hbytes _ _ Hr). }
  destruct (orig_channels Math_sqrt img params i Hi) as [Er [Eg Eb]].
  unfold byteAt, zAt in Er, Eg, Eb.
  rewrite Hr in Er. rewrite Hgr in Eg. rewrite Hb in Eb.
  change (default 0%Z (Some v)) with v in Er, Eg, Eb.
  assert (Hcell : forall k, (k < 3)%nat -> outD b !! (i * 4 + k)%nat = Some v).
  { intros k Hk. unfold b. rewrite outD_cell by (exact Hi || lia).
    unfold outPixel. cbv zeta. rewrite Er, Eg, Eb.
    rewrite (gray_byte_kept v _ Hv Hg).
    destruct k as [|[|[|k]]]; [reflexivity | reflexivity | reflexivity | lia]. }
  split; [|split].
  - rewrite <- (Nat.add_0_r (i * 4)). apply Hcell. lia.
  - apply Hcell. lia.
  - apply Hcell. lia.
Qed.

Lemma gray_pixel_kept_witness :
  wellFormed imgGray /\ globalDarkFactor grayParams == 1
  /\ outD (pixelStages sqrtQ imgGray grayParams) !! 0%nat = Some 128%Z.
Proof.
  assert (H1 : wellFormed imgGray).
  { split; [reflexivity|]. repeat constructor; lia. }
  assert (H2 : globalDarkFactor grayParams == 1) by reflexivity.
  split; [exact H1 | split; [exact H2 |]].
  assert (Hi : (0 < width imgGray * height imgGray)%nat) by (simpl; lia).
  exact (proj1 (gray_pixel_kept sqrtQ imgGray grayParams 0 128 H1 H2 Hi
                  eq_refl eq_refl eq_refl)).
Defined.


(** ** The file queue *)

Local Close Scope Q_scope.
Local Open Scope nat_scope.

Lemma filter_index_keep {A} (l : list A) (s k : nat) :
  k < s ->
  map snd (List.filter (fun p => negb (fst p =? k)) (combine (seq s (length l)) l)) = l.
Proof.
  revert s. induction l as [|a l IH]; intros s Hk; simpl; [reflexivity|].
  assert (E : (s =? k) = false) by (apply Nat.eqb_neq; lia).
  rewrite E. simpl. rewrite IH by lia. reflexivity.
Qed.

Lemma filter_index_delete {A} (l : list A) (s i : nat) :
  map snd (List.filter (fun p => negb (fst p =? s + i)) (combine (seq s (length l)) l))
  = take i l ++ drop (S i) l.
Proof.
  revert s i. induction l as [|a l IH]; intros s i; simpl.
  - destruct i; reflexivity.
  - destruct i as [|i].
    + rewrite Nat.add_0_r, Nat.eqb_refl. simpl. rewrite drop_0.
      apply filter_index_keep. lia.
    + assert (E : (s =? s + S i) = false) by (apply Nat.eqb_neq; lia).
      rewrite E. simpl. f_equal.
      replace (s + S i) with (S s + i) by lia. apply IH.
Qed.

(** X14.  [removeFile] takes out the file at the index and nothing else:
    the files before it and after it stay, in order; an index outside the
    queue changes nothing. *)
Theorem removeFile_delete (files : list FileEntry) (index : nat) :
  removeFile files index = take index files ++ drop (S index) files
  /\ (index < length files -> length (removeFile files index) = length files - 1)
  /\ (length files <= index -> removeFile files index = files).
Proof.
  assert (H : removeFile files index = take index files ++ drop (S index) files)
    by (unfold removeFile; apply (filter_index_delete files 0 index)).
  split; [exact H | split].
  - intros Hi. rewrite H, length_app, length_take, length_drop. lia.
  - intros Hi. rewrite H, take_ge, drop_ge by lia. apply app_nil_r.
Qed.

Lemma removeFile_delete_witness :
  1 < length [mkFile "a.png" "image/png"; mkFile "b.jpg" "image/jpeg"]%string
  /\ length (removeFile [mkFile "a.png" "image/png"; mkFile "b.jpg" "image/jpeg"]%string 1)
     = length [mkFile "a.png" "image/png"; mkFile "b.jpg" "image/jpeg"]%string - 1.
Proof.
  assert (H : 1 < length [mkFile "a.png" "image/png"; mkFile "b.jpg" "image/jpeg"]%string)
    by (simpl; lia).
  split; [exact H|].
  exact (proj1 (proj2 (removeFile_delete _ 1)) H).
Defined.

(** X15.  The queue never holds more than [MAX_FILES] files nor a file of
    another type than JPEG and PNG: both handlers keep this.  A selection
    that would exceed the limit is refused as a whole, with the alert, and
    only its accepted files count toward the limit. *)
Theorem queue_invariant (files selectedFiles : list FileEntry) (index : nat) :
  length files <= MAX_FILES -> Forall (fun f => isAccepted f = true) files ->
  (length (fst (handleFileChange files selectedFiles)) <= MAX_FILES
   /\ Forall (fun f => isAccepted f = true) (fst (handleFileChange files selectedFiles))
   /\ (snd (handleFileChange files selectedFiles) = true ->
       fst (handleFileChange files selectedFiles) = files
       /\ MAX_FILES < length (List.filter isAccepted selectedFiles) + length files)
   /\ (snd (handleFileChange files selectedFiles) = false ->
       fst (handleFileChange files selectedFiles)
       = files ++ List.filter isAccepted selectedFiles))
  /\ length (removeFile files index) <= MAX_FILES
  /\ Forall (fun f => isAccepted f = true) (removeFile files index).
Proof.
  intros Hlen Hacc. split.
  - unfold handleFileChange.
    destruct (MAX_FILES <? length (List.filter isAccepted selectedFiles) + length files)
      eqn:E; simpl.
    + apply Nat.ltb_lt in E.
      split; [exact Hlen | split; [exact Hacc | split; [auto | discriminate]]].
    + apply Nat.ltb_ge in E.
      split; [rewrite length_app; lia|].
      split; [|split; [discriminate | reflexivity]].
      apply Forall_app. split; [exact Hacc|].
      apply Forall_forall. intros f Hf. apply list_elem_of_In, filter_In in Hf. tauto.
  - assert (H : removeFile files index = take index files ++ drop (S index) files)
      by (unfold removeFile; apply (filter_index_delete files 0 index)).
    rewrite H. split.
    + rewrite length_app, length_take, length_drop. lia.
    + apply Forall_app. split; [apply Forall_take | apply Forall_drop]; exact Hacc.
Qed.

Lemma queue_invariant_witness :
  length (@nil FileEntry) <= MAX_FILES
  /\ Forall (fun f => isAccepted f = true) (@nil FileEntry)
  /\ length (fst (handleFileChange []
               [mkFile "a.png" "image/png"; mkFile "notes.txt" "text/plain"]%string))
     <= MAX_FILES.
Proof.
  assert (H1 : length (@nil FileEntry) <= MAX_FILES) by (simpl; unfold MAX_FILES; lia).
  assert (H2 : Forall (fun f => isAccepted f = true) (@nil FileEntry)) by constructor.
  split; [exact H1 | split; [exact H2 |]].
  exact (proj1 (proj1 (queue_invariant [] _ 0 H1 H2))).
Defined.

Example handleFileChange_run :
  handleFileChange [] [mkFile "a.png" "image/png"; mkFile "notes.txt" "text/plain";
                       mkFile "b.JPG" "image/jpeg"]%string
  = ([mkFile "a.png" "image/png"; mkFile "b.JPG" "image/jpeg"]%string, false).
Proof. reflexivity. Qed.

(** ** The processing loop *)

(** The entries the loop pushes for a list of files that all settle. *)
Lemma processLoop_settled (run : FileEntry -> Outcome) (files : list FileEntry)
    (acc : list ProcessedImage) (n : nat) :
  Forall (fun f => run f <> Unsettled) files ->
  processLoop run files acc n
  = Some (acc ++ flat_map (fun f => match run f with
                                    | Resolved r => [mkProcessedImage (file_name f) r]
                                    | _ => []
                                    end) files,
          n + length (flat_map (fun f => match run f with
                                         | Resolved r => [mkProcessedImage (file_name f) r]
                                         | _ => []
                                         end) files)).
Proof.
  revert acc n. induction files as [|f files IH]; intros acc n Hall; simpl.
  - rewrite app_nil_r, Nat.add_0_r. reflexivity.
  - inversion Hall as [|? ? Hf Hrest]; subst.
    destruct (run f) as [r|e|] eqn:E; [| |contradiction Hf; reflexivity].
    + rewrite IH by exact Hrest. simpl. rewrite <- app_assoc. simpl.
      f_equal. f_equal. lia.
    + rewrite IH by exact Hrest. reflexivity.
Qed.

Lemma processLoop_unsettled (run : FileEntry -> Outcome) (files : list FileEntry)
    (acc : list ProcessedImage) (n : nat) :
  Exists (fun f => run f = Unsettled) files -> processLoop run files acc n = None.
Proof.
  revert acc n. induction files as [|f files IH]; intros acc n Hex; simpl.
  - inversion Hex.
  - destruct (run f) as [r|e|] eqn:E; [| |reflexivity].
    + apply IH. inversion Hex as [? ? Hf|? ? Hrest]; subst; [congruence | exact Hrest].
    + apply IH. inversion Hex as [? ? Hf|? ? Hrest]; subst; [congruence | exact Hrest].
Qed.

(** The entries [processImages] pushes: one for each file whose promise
    resolves, under the name of the file. *)
Lemma resolved_length (run : FileEntry -> Outcome) (files : list FileEntry) :
  length (flat_map (fun f => match run f with
                             | Resolved r => [mkProcessedImage (file_name f) r]
                             | _ => []
                             end) files) <= length files.
Proof.
  induction files as [|f files IH]; simpl; [lia|].
  rewrite length_app. destruct (run f); simpl; lia.
Qed.

(** X16.  On a queue that is not empty and whose files all settle,
    [processImages] clears the queue and replaces the shown results, whatever
    they were, by one entry for each file whose promise resolves, in queue
    order and under the name of the file; [completedImages] is their number,
    at most the length of the queue.  A rejected file leaves no entry. *)
Theorem processImages_results (run : FileEntry -> Outcome) (files : list FileEntry)
    (results : list ProcessedImage) (completedImages : nat) :
  files <> [] ->
  Forall (fun f => run f <> Unsettled) files ->
  exists newResults,
    processImages run files results completedImages
      = Some ([], newResults, length newResults)
    /\ newResults = flat_map (fun f => match run f with
                                       | Resolved r => [mkProcessedImage (file_name f) r]
                                       | _ => []
                                       end) files
    /\ length newResults <= length files.
Proof.
  intros Hne Hall. eexists. split; [|split; [reflexivity | apply resolved_length]].
  unfold processImages. destruct files as [|f files]; [contradiction Hne; reflexivity|].
  rewrite processLoop_settled by exact Hall. reflexivity.
Qed.

Lemma processImages_results_witness :
  [mkFile "a.png" "image/png"; mkFile "b.png" "image/png"]%string <> []
  /\ Forall (fun f => (fun f => if String.eqb (file_name f) "a.png"
                                then Rejected ImageLoadError
                                else Resolved (mkProcessed 0 0 [])) f <> Unsettled)
       [mkFile "a.png" "image/png"; mkFile "b.png" "image/png"]%string
  /\ exists newResults,
       processImages (fun f => if String.eqb (file_name f) "a.png"
                               then Rejected ImageLoadError
                               else Resolved (mkProcessed 0 0 []))
         [mkFile "a.png" "image/png"; mkFile "b.png" "image/png"]%string
         [mkProcessedImage "old.png"%string (mkProcessed 0 0 [])] 1
       = Some ([], newResults, length newResults)
       /\ newResults = [mkProcessedImage "b.png"%string (mkProcessed 0 0 [])].
Proof.
  assert (H1 : [mkFile "a.png" "image/png"; mkFile "b.png" "image/png"]%string <> [])
    by discriminate.
  assert (H2 : Forall (fun f => (fun f => if String.eqb (file_name f) "a.png"
                                          then Rejected ImageLoadError
                                          else Resolved (mkProcessed 0 0 [])) f <> Unsettled)
                 [mkFile "a.png" "image/png"; mkFile "b.png" "image/png"]%string)
    by (repeat constructor; simpl; discriminate).
  split; [exact H1 | split; [exact H2 |]].
  destruct (processImages_results _ _ [mkProcessedImage "old.png"%string (mkProcessed 0 0 [])]
              1 H1 H2) as [newResults [E [Eq _]]].
  exists newResults. split; [exact E | exact Eq].
Defined.

(** X17.  [processImages] leaves the state as it is on an empty queue, and
    never ends, so that neither the results are shown nor the queue is
    cleared, when the promise of one file of the queue is never settled. *)
Theorem processImages_stuck (run : FileEntry -> Outcome) (files : list FileEntry)
    (results : list ProcessedImage) (completedImages : nat) :
  (files = [] ->
   processImages run files results completedImages = Some ([], results, completedImages))
  /\ (Exists (fun f => run f = Unsettled) files ->
      processImages run files results completedImages = None).
Proof.
  split.
  - intros E. subst files. reflexivity.
  - intros Hex. unfold processImages. destruct files as [|f files]; [inversion Hex|].
    rewrite processLoop_unsettled by exact Hex. reflexivity.
Qed.

Lemma processImages_stuck_witness :
  Exists (fun f => (fun _ : FileEntry => Unsettled) f = Unsettled)
    [mkFile "a.png" "image/png"]%string
  /\ processImages (fun _ => Unsettled) [mkFile "a.png" "image/png"]%string [] 0 = None.
Proof.
  assert (H : Exists (fun f => (fun _ : FileEntry => Unsettled) f = Unsettled)
                [mkFile "a.png" "image/png"]%string) by (constructor; reflexivity).
  split; [exact H|].
  exact (proj2 (processImages_stuck _ _ [] 0) H).
Defined.

(** ** The lightbox *)

Lemma half_of_slide (idx k : nat) :
  k < 2 -> (idx * 2 + k) / 2 = idx /\ (idx * 2 + k) mod 2 = k.
Proof.
  intros Hk. split.
  - symmetry. apply (Nat.div_unique _ _ _ k); lia.
  - symmetry. apply (Nat.mod_unique _ _ idx); lia.
Qed.

Lemma slide_at (results : list ProcessedImage) (idx k : nat) (r : ProcessedImage) :
  results !! idx = Some r -> k < 2 ->
  getCurrentSlide results (LbIndex (idx * 2 + k))
  = SlideOf r (if k =? 0 then Original else Result) idx.
Proof.
  intros Hr Hk. unfold getCurrentSlide. cbv zeta.
  destruct (half_of_slide idx k Hk) as [D M]. rewrite D, M, Hr. reflexivity.
Qed.

(** X18.  Opening the lightbox from the gallery shows the image that was
    clicked: slide [idx * 2] is the original of [results[idx]] and slide
    [idx * 2 + 1] its result. *)
Theorem lightbox_open (results : list ProcessedImage) (idx : nat) (r : ProcessedImage) :
  results !! idx = Some r ->
  getCurrentSlide results (LbIndex (idx * 2)) = SlideOf r Original idx
  /\ getCurrentSlide results (LbIndex (idx * 2 + 1)) = SlideOf r Result idx.
Proof.
  intros Hr. split.
  - rewrite <- (Nat.add_0_r (idx * 2)). apply (slide_at results idx 0 r Hr). lia.
  - apply (slide_at results idx 1 r Hr). lia.
Qed.

Lemma next_index (total i : nat) :
  i < total -> (i + 1) mod total < total /\ ((i + 1) mod total + total - 1) mod total = i.
Proof.
  intros Hi. split; [apply Nat.mod_upper_bound; lia|].
  destruct (decide (i + 1 = total)) as [E|E].
  - rewrite E, Nat.Div0.mod_same. replace (0 + total - 1) with i by lia.
    apply Nat.mod_small. exact Hi.
  - rewrite (Nat.mod_small (i + 1)) by lia.
    replace (i + 1 + total - 1) with (i + 1 * total) by lia.
    rewrite Nat.Div0.mod_add. apply Nat.mod_small. exact Hi.
Qed.

Lemma prev_index (total i : nat) :
  i < total ->
  (i + total - 1) mod total < total /\ ((i + total - 1) mod total + 1) mod total = i.
Proof.
  intros Hi. split; [apply Nat.mod_upper_bound; lia|].
  destruct i as [|i].
  - replace (0 + total - 1) with (total - 1) by lia.
    rewrite (Nat.mod_small (total - 1)) by lia.
    replace (total - 1 + 1) with total by lia. apply Nat.Div0.mod_same.
  - replace (S i + total - 1) with (i + 1 * total) by lia.
    rewrite Nat.Div0.mod_add. rewrite (Nat.mod_small i) by lia.
    replace (i + 1) with (S i) by lia. apply Nat.mod_small. exact Hi.
Qed.

(** X19.  With at least one result and a slide number below
    [2 * results.length], the arrows stay on existing slides and undo each
    other: [prevImage] after [nextImage] and [nextImage] after [prevImage]
    return to the slide, and the slide shown after either is defined. *)
Theorem lightbox_round_trip (results : list ProcessedImage) (i : nat) :
  i < length results * 2 ->
  prevImage (length results) (nextImage (length results) (LbIndex i)) = LbIndex i
  /\ nextImage (length results) (prevImage (length results) (LbIndex i)) = LbIndex i
  /\ (exists j, nextImage (length results) (LbIndex i) = LbIndex j
                /\ j < length results * 2
                /\ exists r t, getCurrentSlide results (LbIndex j) = SlideOf r t (j / 2))
  /\ (exists j, prevImage (length results) (LbIndex i) = LbIndex j
                /\ j < length results * 2
                /\ exists r t, getCurrentSlide results (LbIndex j) = SlideOf r t (j / 2)).
Proof.
  intros Hi.
  assert (Hz : (length results * 2 =? 0) = false) by (apply Nat.eqb_neq; lia).
  destruct (next_index _ _ Hi) as [Hn1 Hn2].
  destruct (prev_index _ _ Hi) as [Hp1 Hp2].
  assert (Hslide : forall j, j < length results * 2 ->
            exists r t, getCurrentSlide results (LbIndex j) = SlideOf r t (j / 2)).
  { intros j Hj. unfold getCurrentSlide. cbv zeta.
    assert (Hh : j / 2 < length results) by (apply Nat.Div0.div_lt_upper_bound; lia).
    destruct (lookup_lt_is_Some_2 results (j / 2) Hh) as [r Hr].
    rewrite Hr. eauto. }
  unfold nextImage, prevImage. cbv zeta. rewrite Hz. cbv iota. rewrite ?Hz.
  split; [rewrite Hn2; reflexivity|].
  split; [rewrite Hp2; reflexivity|].
  split; eexists; (split; [reflexivity | split; [assumption | apply Hslide; assumption]]).
Qed.

Lemma lightbox_round_trip_witness :
  1 < length [mkProcessedImage "a.png"%string (mkProcessed 0 0 [])] * 2
  /\ prevImage 1 (nextImage 1 (LbIndex 1)) = LbIndex 1.
Proof.
  assert (H : 1 < length [mkProcessedImage "a.png"%string (mkProcessed 0 0 [])] * 2)
    by (simpl; lia).
  split; [exact H|].
  exact (proj1 (lightbox_round_trip [mkProcessedImage "a.png"%string (mkProcessed 0 0 [])] 1 H)).
Defined.

Lemma lightbox_open_witness :
  [mkProcessedImage "a.png"%string (mkProcessed 0 0 [])] !! 0
    = Some (mkProcessedImage "a.png"%string (mkProcessed 0 0 []))
  /\ getCurrentSlide [mkProcessedImage "a.png"%string (mkProcessed 0 0 [])] (LbIndex (0 * 2 + 1))
     = SlideOf (mkProcessedImage "a.png"%string (mkProcessed 0 0 [])) Result 0.
Proof.
  assert (H : [mkProcessedImage "a.png"%string (mkProcessed 0 0 [])] !! 0
              = Some (mkProcessedImage "a.png"%string (mkProcessed 0 0 []))) by reflexivity.
  split; [exact H|].
  exact (proj2 (lightbox_open _ 0 _ H)).
Defined.

(** X20.  The right arrow walks through the pairs: from the original of an
    image to the result of the same image, and from the result of an image
    to the original of the next one, the first image following the last. *)
Theorem lightbox_next_pairs (results : list ProcessedImage) (idx : nat) (r : ProcessedImage) :
  results !! idx = Some r ->
  getCurrentSlide results (nextImage (length results) (LbIndex (idx * 2)))
    = SlideOf r Result idx
  /\ exists r', results !! ((idx + 1) mod length results) = Some r'
       /\ getCurrentSlide results (nextImage (length results) (LbIndex (idx * 2 + 1)))
          = SlideOf r' Original ((idx + 1) mod length results).
Proof.
  intros Hr. apply lookup_lt_Some in Hr as Hidx.
  assert (Hz : (length results * 2 =? 0) = false) by (apply Nat.eqb_neq; lia).
  unfold nextImage. cbv zeta. rewrite Hz. split.
  - rewrite Nat.mod_small by lia. apply (slide_at results idx 1 r Hr). lia.
  - assert (Hn : (idx + 1) mod length results < length results)
      by (apply Nat.mod_upper_bound; lia).
    destruct (lookup_lt_is_Some_2 results _ Hn) as [r' Hr'].
    exists r'. split; [exact Hr'|].
    assert (E : (idx * 2 + 1 + 1) mod (length results * 2)
                = ((idx + 1) mod length results) * 2).
    { destruct (decide (idx + 1 = length results)) as [El|El].
      - rewrite <- El. replace (idx * 2 + 1 + 1) with ((idx + 1) * 2) by lia.
        rewrite !Nat.Div0.mod_same. reflexivity.
      - rewrite !Nat.mod_small by lia. lia. }
    rewrite E, <- (Nat.add_0_r (_ * 2)). apply (slide_at results _ 0 r' Hr'). lia.
Qed.

Lemma lightbox_next_pairs_witness :
  [mkProcessedImage "a.png"%string (mkProcessed 0 0 []);
   mkProcessedImage "b.png"%string (mkProcessed 0 0 [])] !! 1
    = Some (mkProcessedImage "b.png"%string (mkProcessed 0 0 []))
  /\ getCurrentSlide [mkProcessedImage "a.png"%string (mkProcessed 0 0 []);
                      mkProcessedImage "b.png"%string (mkProcessed 0 0 [])]
       (nextImage 2 (LbIndex (1 * 2)))
     = SlideOf (mkProcessedImage "b.png"%string (mkProcessed 0 0 [])) Result 1.
Proof.
  assert (H : [mkProcessedImage "a.png"%string (mkProcessed 0 0 []);
               mkProcessedImage "b.png"%string (mkProcessed 0 0 [])] !! 1
              = Some (mkProcessedImage "b.png"%string (mkProcessed 0 0 []))) by reflexivity.
  split; [exact H|].
  exact (proj1 (lightbox_next_pairs _ 1 _ H)).
Defined.

(** ** Download names *)

Lemma splitLastDot_none (s : String.string) :
  hasChar "."%char s = false -> splitLastDot s = None.
Proof.
  induction s as [|c s IH]; simpl; [reflexivity|].
  intros H. apply orb_false_elim in H as [Hc Hs].
  rewrite (IH Hs), Hc. reflexivity.
Qed.

Lemma splitLastDot_app (p e : String.string) :
  hasChar "."%char e = false ->
  splitLastDot (String.append p (String.String "."%char e)) = Some (p, e).
Proof.
  intros He. induction p as [|c p IH]; simpl.
  - rewrite (splitLastDot_none e He). reflexivity.
  - rewrite IH. reflexivity.
Qed.

(** X21.  The name of a download.  A name [p.e] whose extension [e] is not
    empty and holds no dot and no slash is downloaded as [processed_p.png]:
    only the last extension is replaced, and two files that differ only in
    that extension get the same download name.  A name without a dot keeps
    all its characters: [processed_name.png]. *)
Theorem downloadName_extension (p e e' n : String.string) :
  e <> String.EmptyString -> e' <> String.EmptyString ->
  hasChar "."%char e = false -> hasChar "/"%char e = false ->
  hasChar "."%char e' = false -> hasChar "/"%char e' = false ->
  hasChar "."%char n = false ->
  downloadName (String.append p (String.String "."%char e))
    = String.append "processed_" (String.append p ".png")
  /\ downloadName (String.append p (String.String "."%char e))
     = downloadName (String.append p (String.String "."%char e'))
  /\ downloadName n = String.append "processed_" (String.append n ".png").
Proof.
  intros Hne Hne' Hd Hs Hd' Hs' Hn.
  assert (Hstrip : forall x, x <> String.EmptyString ->
            hasChar "."%char x = false -> hasChar "/"%char x = false ->
            stripExtension (String.append p (String.String "."%char x)) = p).
  { intros x Hx Hxd Hxs. unfold stripExtension.
    rewrite (splitLastDot_app p x Hxd).
    destruct x as [|c x]; [contradiction Hx; reflexivity|].
    rewrite Hxs. reflexivity. }
  unfold downloadName. rewrite !Hstrip by assumption.
  split; [reflexivity | split; [reflexivity|]].
  unfold stripExtension. rewrite (splitLastDot_none n Hn). reflexivity.
Qed.

Lemma downloadName_extension_witness :
  downloadName "holiday.photo.jpeg"%string = "processed_holiday.photo.png"%string
  /\ downloadName "holiday.photo.jpeg"%string = downloadName "holiday.photo.png"%string
  /\ downloadName "scan"%string = "processed_scan.png"%string.
Proof.
  assert (H1 : "jpeg"%string <> String.EmptyString) by discriminate.
  assert (H2 : "png"%string <> String.EmptyString) by discriminate.
  destruct (downloadName_extension "holiday.photo"%string "jpeg"%string "png"%string
              "scan"%string H1 H2
              eq_refl eq_refl eq_refl eq_refl eq_refl) as [A [B C]].
  split; [exact A | split; [exact B | exact C]].
Defined.

(** X22.  A name is kept whole, [processed_name.png], when the pattern has
    nothing to remove: the name ends in a dot, or a slash follows its last
    dot. *)
Theorem downloadName_kept (p e : String.string) :
  hasChar "."%char e = false ->
  e = String.EmptyString \/ hasChar "/"%char e = true ->
  downloadName (String.append p (String.String "."%char e))
  = String.append "processed_"
      (String.append (String.append p (String.String "."%char e)) ".png").
Proof.
  intros Hd Hcase. unfold downloadName, stripExtension.
  rewrite (splitLastDot_app p e Hd).
  destruct Hcase as [E|Hs].
  - subst e. reflexivity.
  - destruct e as [|c e]; [discriminate Hs|]. rewrite Hs. reflexivity.
Qed.

Lemma downloadName_kept_witness :
  downloadName "v1.0/scan"%string = "processed_v1.0/scan.png"%string.
Proof.
  exact (downloadName_kept "v1"%string "0/scan"%string eq_refl (or_intror eq_refl)).
Defined.
